(** * cpp-dsa-library: LinkedList.hpp, BinarySearchTree.hpp, Sorting.hpp

    A shallow embedding of the three headers of the library and the
    properties their specification states about them.

    - [sort]: the six sorting routines of [dsa::sort] over [std::vector<T>],
      a vector being a [list T] read and written by index.  [size_t] is a
      64-bit unsigned integer and [int] a 32-bit signed one; both are carried
      as [Z], with the wrap-around of [size_t] arithmetic and the overflow
      of [int] arithmetic written out.
    - [BinarySearchTree]: the tree of exclusively owned nodes as an
      inductive type, the private helpers as structural recursions.
    - [LinkedList]: the node chain lives in a store of heap cells, because
      [tail_] aliases the last node and [reverse] rewires links in place.

    The definitions come first, module by module; [*_spec] holds the
    vocabulary of the statements, [*_facts] the properties the
    specification states, and [*_props] what else the code guarantees:
    that every sorting routine sorts, how the traversals of the tree
    relate, what each list operation does to the sequence of elements
    and to the free store. *)

From stdpp Require Import gmap list sorting strings.
From Stdlib Require Import ZArith Lia.

Open Scope Z_scope.

(** ** Outcomes of a call

    [Ret] is a normal return.  [Undef] is undefined behaviour of the C++
    abstract machine: an index outside the vector, a null or dangling
    pointer dereferenced, a signed overflow.  [Exhausted] only says that the
    fuel handed to a [while] loop ran out. *)

Inductive outcome (A : Type) : Type :=
| Ret (a : A)
| Undef
| Exhausted.
Arguments Ret {A} a.
Arguments Undef {A}.
Arguments Exhausted {A}.

#[global] Instance outcome_ret : MRet outcome := @Ret.
#[global] Instance outcome_bind : MBind outcome := λ A B f m,
  match m with
  | Ret a => f a
  | Undef => Undef
  | Exhausted => Exhausted
  end.

(** ** Machine integers *)

Definition INT_MIN : Z := - 2 ^ 31.
Definition INT_MAX : Z := 2 ^ 31 - 1.

(** Arithmetic on [size_t] is modulo [2^64]. *)
Definition size_t (z : Z) : Z := z mod 2 ^ 64.

(** [static_cast<int>(n)] of a [size_t]: reduction modulo [2^32] into the
    signed range. *)
Definition to_int (n : Z) : Z := (n + 2 ^ 31) mod 2 ^ 32 - 2 ^ 31.

(** The result of an [int] operation; leaving the range is undefined. *)
Definition int (z : Z) : outcome Z :=
  if decide (INT_MIN ≤ z ≤ INT_MAX) then Ret z else Undef.

(** ** Sorting.hpp *)

Module sort.
Section Sorting.
Context {T : Type}.
(** [T()], the value [std::vector<T> temp(n)] is filled with. *)
Context (T0 : T).
(** The comparator [comp(a, b)]: "a must precede b". *)
Context (comp : T → T → bool).

Definition size (arr : list T) : Z := Z.of_nat (length arr).

(** [arr[k]] read, [k] converted to [size_t] as [operator[]] does. *)
Definition get (arr : list T) (k : Z) : outcome T :=
  let k := size_t k in
  if decide (k < size arr) then
    match arr !! Z.to_nat k with
    | Some x => Ret x
    | None => Undef
    end
  else Undef.

(** [arr[k] = x]. *)
Definition set (arr : list T) (k : Z) (x : T) : outcome (list T) :=
  let k := size_t k in
  if decide (k < size arr) then Ret (<[Z.to_nat k := x]> arr) else Undef.

(** [std::swap(arr[a], arr[b])]. *)
Definition swap (arr : list T) (a b : Z) : outcome (list T) :=
  x ← get arr a;
  y ← get arr b;
  arr ← set arr a y;
  set arr b x.

(** A counted loop [for (i = lo; i < hi; ++i)] whose bounds the body does
    not change: [count] iterations from [i], unless the body breaks. *)
Fixpoint for_up {St : Type} (count : nat) (i : Z)
    (body : Z → St → outcome (St * bool)) (s : St) : outcome St :=
  match count with
  | O => Ret s
  | S count =>
      '(s, stop) ← body i s;
      if stop : bool then Ret s else for_up count (i + 1) body s
  end.

(** [for (i = hi; i >= lo; --i)], [count] iterations from [i] down. *)
Fixpoint for_down {St : Type} (count : nat) (i : Z)
    (body : Z → St → outcome St) (s : St) : outcome St :=
  match count with
  | O => Ret s
  | S count => s ← body i s; for_down count (i - 1) body s
  end.

(** *** Bubble sort *)

(** The body of the inner loop:
    [if (comp(arr[j + 1], arr[j])) { std::swap(arr[j], arr[j + 1]); swapped = true; }] *)
Definition bubble_inner (j : Z) (st : list T * bool) : outcome ((list T * bool) * bool) :=
  let '(arr, swapped) := st in
  x ← get arr (size_t (j + 1));
  y ← get arr j;
  if comp x y then
    arr ← swap arr j (size_t (j + 1));
    Ret ((arr, true), false)
  else Ret ((arr, swapped), false).

(** The body of the outer loop: [swapped = false], the inner loop
    [for (size_t j = 0; j < n - i - 1; ++j)], then [if (!swapped) break;]. *)
Definition bubble_outer (n : Z) (i : Z) (arr : list T) : outcome (list T * bool) :=
  let hi := size_t (size_t (n - i) - 1) in
  '(arr, swapped) ← for_up (Z.to_nat hi) 0 bubble_inner (arr, false);
  Ret (arr, negb swapped).

(** [size_t n = arr.size(); for (size_t i = 0; i < n - 1; ++i)]: the
    bound [n - 1] is a [size_t]. *)
Definition bubbleSort (arr : list T) : outcome (list T) :=
  let n := size arr in
  for_up (Z.to_nat (size_t (n - 1))) 0 (bubble_outer n) arr.

(** *** Selection sort *)

(** [if (comp(arr[j], arr[minIdx])) minIdx = j;] *)
Definition selection_inner (j : Z) (st : list T * Z) : outcome ((list T * Z) * bool) :=
  let '(arr, minIdx) := st in
  x ← get arr j;
  y ← get arr minIdx;
  Ret ((arr, if comp x y then j else minIdx), false).

(** [minIdx = i], the inner loop [for (size_t j = i + 1; j < n; ++j)],
    then [if (minIdx != i) std::swap(arr[i], arr[minIdx]);]. *)
Definition selection_outer (n : Z) (i : Z) (arr : list T) : outcome (list T * bool) :=
  let lo := size_t (i + 1) in
  '(arr, minIdx) ← for_up (Z.to_nat (n - lo)) lo selection_inner (arr, i);
  if decide (minIdx ≠ i) then
    arr ← swap arr i minIdx;
    Ret (arr, false)
  else Ret (arr, false).

Definition selectionSort (arr : list T) : outcome (list T) :=
  let n := size arr in
  for_up (Z.to_nat (size_t (n - 1))) 0 (selection_outer n) arr.

(** *** Insertion sort *)

(** [while (j >= 0 && comp(key, arr[j])) { arr[j + 1] = arr[j]; --j; }] *)
Fixpoint insertion_shift (fuel : nat) (key : T) (arr : list T) (j : Z)
    : outcome (list T * Z) :=
  if decide (j >= 0) then
    x ← get arr j;
    if comp key x then
      match fuel with
      | O => Exhausted
      | S fuel =>
          j1 ← int (j + 1);
          arr ← set arr j1 x;
          j ← int (j - 1);
          insertion_shift fuel key arr j
      end
    else Ret (arr, j)
  else Ret (arr, j).

(** [T key = arr[i]; int j = static_cast<int>(i) - 1;], the [while]
    loop, then [arr[j + 1] = key;]. *)
Definition insertion_outer (i : Z) (arr : list T) : outcome (list T * bool) :=
  key ← get arr i;
  j ← int (to_int i - 1);
  '(arr, j) ← insertion_shift (Z.to_nat (j + 1)) key arr j;
  j1 ← int (j + 1);
  arr ← set arr j1 key;
  Ret (arr, false).

(** [for (size_t i = 1; i < arr.size(); ++i)] *)
Definition insertionSort (arr : list T) : outcome (list T) :=
  for_up (Z.to_nat (size arr - 1)) 1 insertion_outer arr.

(** *** Merge sort *)

(** [while (i <= mid && j <= right)
       temp[k++] = comp(arr[i], arr[j]) ? arr[i++] : arr[j++];] *)
Fixpoint merge_both (fuel : nat) (arr temp : list T) (mid right : Z)
    (i j k : Z) : outcome (list T * Z * Z * Z) :=
  if decide (i ≤ mid ∧ j ≤ right) then
    match fuel with
    | O => Exhausted
    | S fuel =>
        x ← get arr i;
        y ← get arr j;
        if comp x y then
          i' ← int (i + 1);
          temp ← set temp k x;
          k ← int (k + 1);
          merge_both fuel arr temp mid right i' j k
        else
          j' ← int (j + 1);
          temp ← set temp k y;
          k ← int (k + 1);
          merge_both fuel arr temp mid right i j' k
    end
  else Ret (temp, i, j, k).

(** [while (i <= hi) temp[k++] = arr[i++];] *)
Fixpoint merge_rest (fuel : nat) (arr temp : list T) (hi : Z)
    (i k : Z) : outcome (list T * Z) :=
  if decide (i ≤ hi) then
    match fuel with
    | O => Exhausted
    | S fuel =>
        x ← get arr i;
        i ← int (i + 1);
        temp ← set temp k x;
        k ← int (k + 1);
        merge_rest fuel arr temp hi i k
    end
  else Ret (temp, k).

(** [for (int p = 0; p < k; ++p) arr[left + p] = temp[p];] *)
Definition merge_back (temp : list T) (left : Z) (p : Z) (arr : list T)
    : outcome (list T * bool) :=
  x ← get temp p;
  q ← int (left + p);
  arr ← set arr q x;
  Ret (arr, false).

(** [std::vector<T> temp(right - left + 1); int i = left, j = mid + 1,
    k = 0;], the three [while] loops and the copy back. *)
Definition merge (arr : list T) (left mid right : Z) : outcome (list T) :=
  n ← int (right - left);
  n ← int (n + 1);
  let temp := replicate (Z.to_nat (size_t n)) T0 in
  let fuel := length temp in
  j ← int (mid + 1);
  '(temp, i, j, k) ← merge_both fuel arr temp mid right left j 0;
  '(temp, k) ← merge_rest fuel arr temp mid i k;
  '(temp, k) ← merge_rest fuel arr temp right j k;
  for_up (Z.to_nat k) 0 (merge_back temp left) arr.

(** [detail::mergeSort]; every level of the recursion splits a range of
    at least two elements, so [right - left] bounds the depth. *)
Fixpoint mergeSort_rec (fuel : nat) (arr : list T) (left right : Z)
    : outcome (list T) :=
  if decide (left < right) then
    match fuel with
    | O => Exhausted
    | S fuel =>
        d ← int (right - left);
        mid ← int (left + d `quot` 2);
        arr ← mergeSort_rec fuel arr left mid;
        m1 ← int (mid + 1);
        arr ← mergeSort_rec fuel arr m1 right;
        merge arr left mid right
    end
  else Ret arr.

Definition mergeSort (arr : list T) : outcome (list T) :=
  if decide (size arr > 1) then
    right ← int (to_int (size arr) - 1);
    mergeSort_rec (Z.to_nat right) arr 0 right
  else Ret arr.

(** *** Quick sort *)

(** [if (comp(arr[j], pivot)) { ++i; std::swap(arr[i], arr[j]); }] *)
Definition partition_body (pivot : T) (j : Z) (st : list T * Z)
    : outcome ((list T * Z) * bool) :=
  let '(arr, i) := st in
  x ← get arr j;
  if comp x pivot then
    i ← int (i + 1);
    arr ← swap arr i j;
    Ret ((arr, i), false)
  else Ret ((arr, i), false).

(** [T pivot = arr[high]; int i = low - 1;], the loop
    [for (int j = low; j < high; ++j)], then
    [std::swap(arr[i + 1], arr[high]); return i + 1;]. *)
Definition partition (arr : list T) (low high : Z) : outcome (list T * Z) :=
  pivot ← get arr high;
  i ← int (low - 1);
  '(arr, i) ← for_up (Z.to_nat (high - low)) low (partition_body pivot) (arr, i);
  i1 ← int (i + 1);
  arr ← swap arr i1 high;
  Ret (arr, i1).

(** [detail::quickSort]; both recursive calls are on ranges shorter than
    [low .. high], so [high - low] bounds the depth. *)
Fixpoint quickSort_rec (fuel : nat) (arr : list T) (low high : Z)
    : outcome (list T) :=
  if decide (low < high) then
    match fuel with
    | O => Exhausted
    | S fuel =>
        '(arr, pi) ← partition arr low high;
        p1 ← int (pi - 1);
        arr ← quickSort_rec fuel arr low p1;
        p2 ← int (pi + 1);
        quickSort_rec fuel arr p2 high
    end
  else Ret arr.

Definition quickSort (arr : list T) : outcome (list T) :=
  if decide (size arr > 1) then
    high ← int (to_int (size arr) - 1);
    quickSort_rec (Z.to_nat high) arr 0 high
  else Ret arr.

(** *** Heap sort *)

(** [if (child < n && comp(arr[largest], arr[child])) largest = child;] *)
Definition heapify_child (arr : list T) (n largest child : Z) : outcome Z :=
  if decide (child < n) then
    x ← get arr largest;
    y ← get arr child;
    Ret (if comp x y then child else largest)
  else Ret largest.

(** [detail::heapify]; [largest] grows with every recursive call and
    stays below [n]. *)
Fixpoint heapify (fuel : nat) (arr : list T) (n i : Z) : outcome (list T) :=
  i2 ← int (2 * i);
  left ← int (i2 + 1);
  right ← int (i2 + 2);
  largest ← heapify_child arr n i left;
  largest ← heapify_child arr n largest right;
  if decide (largest ≠ i) then
    match fuel with
    | O => Exhausted
    | S fuel =>
        arr ← swap arr i largest;
        heapify fuel arr n largest
    end
  else Ret arr.

(** [int n = static_cast<int>(arr.size());], then
    [for (int i = n / 2 - 1; i >= 0; --i) heapify(arr, n, i)] and
    [for (int i = n - 1; i > 0; --i) { swap(arr[0], arr[i]); heapify(arr, i, 0); }]. *)
Definition heapSort (arr : list T) : outcome (list T) :=
  let n := to_int (size arr) in
  let fuel := length arr in
  i ← int (n `quot` 2 - 1);
  arr ← for_down (Z.to_nat (i + 1)) i (λ i arr, heapify fuel arr n i) arr;
  i ← int (n - 1);
  for_down (Z.to_nat i) i
    (λ i arr, arr ← swap arr 0 i; heapify fuel arr i 0) arr.

(** *** isSorted *)

(** [if (comp(arr[i], arr[i - 1])) return false;] *)
Definition isSorted_body (arr : list T) (i : Z) (r : bool)
    : outcome (bool * bool) :=
  x ← get arr i;
  y ← get arr (size_t (i - 1));
  if comp x y then Ret (false, true) else Ret (r, false).

(** [for (size_t i = 1; i < arr.size(); ++i)], then [return true;]. *)
Definition isSorted (arr : list T) : outcome bool :=
  for_up (Z.to_nat (size arr - 1)) 1 (isSorted_body arr) true.

End Sorting.
End sort.

(** ** BinarySearchTree.hpp *)

Module BinarySearchTree.
Section Tree.
Context {T : Type}.
(** [operator<] of the element type, a strict total order, with
    [a > b] as [b < a], [a <= b] as [a < b || a == b] and [==] as
    equality. *)
Context (lt : relation T) `{!RelDecision lt} `{!EqDecision T}.

Definition ltb (a b : T) : bool := bool_decide (lt a b).
Definition gtb (a b : T) : bool := bool_decide (lt b a).
Definition eqb (a b : T) : bool := bool_decide (a = b).
Definition leb (a b : T) : bool := bool_decide (lt a b ∨ a = b).
Definition geb (a b : T) : bool := bool_decide (lt b a ∨ a = b).

(** A [Node*]: null, or the node it owns with its two subtrees. *)
Inductive NodePtr : Type :=
| nullptr
| node (data : T) (l r : NodePtr).   (* data, left, right *)

Record BinarySearchTree : Type := mk {
  root_ : NodePtr;
  size_ : N
}.

(** [size_] counts live nodes, each of them a separate allocation, so
    [++size_] stays below [2^64]; [--size_] wraps at zero. *)
Definition incr (size : N) : N := (size + 1)%N.
Definition decr (size : N) : N :=
  if decide (size = 0%N) then (2 ^ 64 - 1)%N else (size - 1)%N.

(** The private helpers.  Those that touch the member [size_] take it
    and give it back. *)

Fixpoint insert_node (n : NodePtr) (value : T) (size : N) : NodePtr * N :=
  match n with
  | nullptr => (node value nullptr nullptr, incr size)
  | node data l r =>
      if ltb value data then
        let '(l, size) := insert_node l value size in
        (node data l r, size)
      else if gtb value data then
        let '(r, size) := insert_node r value size in
        (node data l r, size)
      else (n, size)
  end.

Fixpoint findMin (n : NodePtr) : NodePtr :=
  match n with
  | nullptr => nullptr
  | node _ nullptr _ => n
  | node _ l _ => findMin l
  end.

Fixpoint findMax (n : NodePtr) : NodePtr :=
  match n with
  | nullptr => nullptr
  | node _ _ nullptr => n
  | node _ _ r => findMax r
  end.

(** [p->data]. *)
Definition deref (p : NodePtr) : outcome T :=
  match p with
  | nullptr => Undef
  | node data _ _ => Ret data
  end.

(** [remove] recurses a second time on the right subtree in the
    two-children case, with another value; the recursion is on the
    subtree all the same, and [value] is an argument of the inner
    function. *)
Fixpoint remove_node (n : NodePtr) : T → N → outcome (NodePtr * N) :=
  match n with
  | nullptr => λ _ size, Ret (nullptr, size)
  | node data l r => λ value size,
      if ltb value data then
        '(l, size) ← remove_node l value size;
        Ret (node data l r, size)
      else if gtb value data then
        '(r, size) ← remove_node r value size;
        Ret (node data l r, size)
      else
        match l, r with
        | nullptr, _ => Ret (r, decr size)
        | _, nullptr => Ret (l, decr size)
        | _, _ =>
            data ← deref (findMin r);
            '(r, size) ← remove_node r data size;
            Ret (node data l r, size)
        end
  end.

Fixpoint search (n : NodePtr) (value : T) : bool :=
  match n with
  | nullptr => false
  | node data l r =>
      if eqb value data then true
      else if ltb value data then search l value
      else search r value
  end.

(** [height(Node* node)], an [int]. *)
Fixpoint height_node (n : NodePtr) : outcome Z :=
  match n with
  | nullptr => Ret (-1)
  | node _ l r =>
      hl ← height_node l;
      hr ← height_node r;
      int (1 + Z.max hl hr)
  end.

(** [minVal] and [maxVal] are pointers, null for "no bound". *)
Fixpoint isValidBST (n : NodePtr) (minVal maxVal : option T) : bool :=
  match n with
  | nullptr => true
  | node data l r =>
      if from_option (leb data) false minVal
         || from_option (geb data) false maxVal
      then false
      else isValidBST l minVal (Some data)
           && isValidBST r (Some data) maxVal
  end.

(** The traversal helpers push onto the vector [result] they are given. *)
Fixpoint inorder (n : NodePtr) (result : list T) : list T :=
  match n with
  | nullptr => result
  | node data l r => inorder r (inorder l result ++ [data])
  end.

Fixpoint preorder (n : NodePtr) (result : list T) : list T :=
  match n with
  | nullptr => result
  | node data l r => preorder r (preorder l (result ++ [data]))
  end.

Fixpoint postorder (n : NodePtr) (result : list T) : list T :=
  match n with
  | nullptr => result
  | node data l r => postorder r (postorder l result) ++ [data]
  end.

(** [while (!q.empty()) { current = q.front(); q.pop();
                          result.push_back(current->data);
                          if (current->left) q.push(current->left);
                          if (current->right) q.push(current->right); }] *)
Fixpoint levelOrder_loop (fuel : nat) (q : list NodePtr) (result : list T)
    : outcome (list T) :=
  match q with
  | [] => Ret result
  | current :: q =>
      match fuel with
      | O => Exhausted
      | S fuel =>
          match current with
          | nullptr => Undef
          | node data l r =>
              let result := result ++ [data] in
              let q := if l is nullptr then q else q ++ [l] in
              let q := if r is nullptr then q else q ++ [r] in
              levelOrder_loop fuel q result
          end
      end
  end.

(** The public interface. *)

Definition new : BinarySearchTree := mk nullptr 0.

Definition empty (t : BinarySearchTree) : bool := bool_decide (size_ t = 0%N).
Definition size (t : BinarySearchTree) : N := size_ t.
Definition height (t : BinarySearchTree) : outcome Z := height_node (root_ t).

Definition insert (value : T) (t : BinarySearchTree) : BinarySearchTree :=
  let '(root, size) := insert_node (root_ t) value (size_ t) in
  mk root size.

Definition remove (value : T) (t : BinarySearchTree) : outcome BinarySearchTree :=
  '(root, size) ← remove_node (root_ t) value (size_ t);
  Ret (mk root size).

Definition clear (t : BinarySearchTree) : BinarySearchTree := mk nullptr 0.

(** [BinarySearchTree(std::initializer_list<T> init)] *)
Definition of_list (init : list T) : BinarySearchTree :=
  foldl (λ t item, insert item t) new init.

Definition contains (value : T) (t : BinarySearchTree) : bool :=
  search (root_ t) value.

Definition minimum (t : BinarySearchTree) : option T :=
  match findMin (root_ t) with
  | nullptr => None
  | node data _ _ => Some data
  end.

Definition maximum (t : BinarySearchTree) : option T :=
  match findMax (root_ t) with
  | nullptr => None
  | node data _ _ => Some data
  end.

Definition inorderTraversal (t : BinarySearchTree) : list T := inorder (root_ t) [].
Definition preorderTraversal (t : BinarySearchTree) : list T := preorder (root_ t) [].
Definition postorderTraversal (t : BinarySearchTree) : list T := postorder (root_ t) [].

(** The loop takes one node off the queue in every round; [size_] rounds
    are allowed for. *)
Definition levelOrderTraversal (t : BinarySearchTree) : outcome (list T) :=
  match root_ t with
  | nullptr => Ret []
  | root => levelOrder_loop (N.to_nat (size_ t)) [root] []
  end.

Definition isValid (t : BinarySearchTree) : bool := isValidBST (root_ t) None None.

(** The trees a program can hold: built from the empty tree through the
    public modifiers. *)
Inductive reachable : BinarySearchTree → Prop :=
| reachable_new : reachable new
| reachable_insert t v : reachable t → reachable (insert v t)
| reachable_remove t t' v : reachable t → remove v t = Ret t' → reachable t'
| reachable_clear t : reachable t → reachable (clear t).

End Tree.
End BinarySearchTree.

(** ** LinkedList.hpp *)

Module LinkedList.
Section List.
Context {T : Type}.

(** A [Node*] is null or an address of the free store. *)
Definition ptr : Type := option positive.

Record Node : Type := mkNode {
  data : T;
  next : ptr
}.

(** The three members of the class, and the free store its nodes are
    allocated in. *)
Record LinkedList : Type := mk {
  store : gmap positive Node;
  head_ : ptr;
  tail_ : ptr;
  size_ : N
}.

Inductive exn : Type :=
| out_of_range (what : string).

(** What a member function does to the list it is called on: it returns
    a value and leaves the list in a new state, or throws and leaves the
    list in the state it had at the [throw]. *)
Inductive result (A : Type) : Type :=
| Ok (a : A) (s : LinkedList)
| Throw (e : exn) (s : LinkedList)
| Fault
| OutOfFuel.
Arguments Ok {A} a s.
Arguments Throw {A} e s.
Arguments Fault {A}.
Arguments OutOfFuel {A}.

Definition M (A : Type) : Type := LinkedList → result A.

#[local] Instance M_ret : MRet M := λ A a s, Ok a s.
#[local] Instance M_bind : MBind M := λ A B f m s,
  match m s with
  | Ok a s => f a s
  | Throw e s => Throw e s
  | Fault => Fault
  | OutOfFuel => OutOfFuel
  end.

Definition throw {A : Type} (e : exn) : M A := λ s, Throw e s.
Definition out_of_fuel {A : Type} : M A := λ _, OutOfFuel.

Definition get_head : M ptr := λ s, Ok (head_ s) s.
Definition get_tail : M ptr := λ s, Ok (tail_ s) s.
Definition get_size : M N := λ s, Ok (size_ s) s.
Definition set_head (p : ptr) : M unit :=
  λ s, Ok () (mk (store s) p (tail_ s) (size_ s)).
Definition set_tail (p : ptr) : M unit :=
  λ s, Ok () (mk (store s) (head_ s) p (size_ s)).
Definition set_size (n : N) : M unit :=
  λ s, Ok () (mk (store s) (head_ s) (tail_ s) n).

(** [*p]: undefined when [p] is null or its node has been deleted. *)
Definition load (p : ptr) : M Node := λ s,
  match p ≫= (store s !!.) with
  | Some n => Ok n s
  | None => Fault
  end.

(** [p->next = q] *)
Definition set_next (p q : ptr) : M unit := λ s,
  match p with
  | Some a =>
      match store s !! a with
      | Some n => Ok () (mk (<[a := mkNode (data n) q]> (store s))
                            (head_ s) (tail_ s) (size_ s))
      | None => Fault
      end
  | None => Fault
  end.

(** [new Node(value)]: a node at an address not in use, its [next] null. *)
Definition new_node (value : T) : M ptr := λ s,
  let a := fresh (dom (store s)) in
  Ok (Some a) (mk (<[a := mkNode value None]> (store s))
                  (head_ s) (tail_ s) (size_ s)).

(** [delete p] *)
Definition delete_node (p : ptr) : M unit := λ s,
  match p with
  | Some a =>
      match store s !! a with
      | Some _ => Ok () (mk (delete a (store s)) (head_ s) (tail_ s) (size_ s))
      | None => Fault
      end
  | None => Ok () s
  end.

(** [size_] counts live nodes, each of them a separate allocation, so
    [++size_] stays below [2^64]; [--size_] wraps at zero. *)
Definition incr_size : M unit :=
  n ← get_size; set_size (n + 1)%N.
Definition decr_size : M unit :=
  n ← get_size;
  set_size (if decide (n = 0%N) then (2 ^ 64 - 1)%N else (n - 1)%N).

Definition LinkedList_new : LinkedList := mk ∅ None None 0.

Definition empty : M bool :=
  n ← get_size; mret (bool_decide (n = 0%N)).
Definition size : M N := get_size.

Definition front : M T :=
  e ← empty;
  if e : bool then throw (out_of_range "List is empty") else
  h ← get_head;
  n ← load h;
  mret (data n).

Definition back : M T :=
  e ← empty;
  if e : bool then throw (out_of_range "List is empty") else
  t ← get_tail;
  n ← load t;
  mret (data n).

(** [for (size_t i = 0; i < count; ++i) curr = curr->next;] *)
Fixpoint advance (count : nat) (curr : ptr) : M ptr :=
  match count with
  | O => mret curr
  | S count => n ← load curr; advance count (next n)
  end.

Definition at_ (index : N) : M T :=
  sz ← get_size;
  if decide (sz ≤ index)%N then throw (out_of_range "Index out of bounds") else
  h ← get_head;
  curr ← advance (N.to_nat index) h;
  n ← load curr;
  mret (data n).

Definition push_front (value : T) : M unit :=
  newNode ← new_node value;
  h ← get_head;
  set_next newNode h;;
  set_head newNode;;
  t ← get_tail;
  (if t is None then set_tail newNode else mret ());;
  incr_size.

Definition push_back (value : T) : M unit :=
  newNode ← new_node value;
  t ← get_tail;
  (if t is Some _ then set_next t newNode;; set_tail newNode
   else set_head newNode;; set_tail newNode);;
  incr_size.

Definition pop_front : M unit :=
  e ← empty;
  if e : bool then throw (out_of_range "List is empty") else
  temp ← get_head;
  n ← load temp;
  set_head (next n);;
  delete_node temp;;
  decr_size;;
  e ← empty;
  if e : bool then set_tail None else mret ().

(** [while (curr->next != tail_) curr = curr->next;] *)
Fixpoint find_prev (fuel : nat) (curr : ptr) : M ptr :=
  n ← load curr;
  t ← get_tail;
  if decide (next n ≠ t) then
    match fuel with
    | O => out_of_fuel
    | S fuel => find_prev fuel (next n)
    end
  else mret curr.

Definition pop_back : M unit :=
  e ← empty;
  if e : bool then throw (out_of_range "List is empty") else
  sz ← get_size;
  (if decide (sz = 1%N) then
     h ← get_head;
     delete_node h;;
     set_head None;;
     set_tail None
   else
     h ← get_head;
     fuel ← (λ s, Ok (map_size (store s)) s);
     curr ← find_prev fuel h;
     t ← get_tail;
     delete_node t;;
     set_tail curr;;
     set_next curr None);;
  decr_size.

Definition insert (index : N) (value : T) : M unit :=
  sz ← get_size;
  if decide (sz < index)%N then throw (out_of_range "Index out of bounds") else
  if decide (index = 0%N) then push_front value else
  if decide (index = sz) then push_back value else
  h ← get_head;
  curr ← advance (N.to_nat (index - 1)) h;
  newNode ← new_node value;
  n ← load curr;
  set_next newNode (next n);;
  set_next curr newNode;;
  incr_size.

Definition erase (index : N) : M unit :=
  sz ← get_size;
  if decide (sz ≤ index)%N then throw (out_of_range "Index out of bounds") else
  if decide (index = 0%N) then pop_front else
  h ← get_head;
  curr ← advance (N.to_nat (index - 1)) h;
  n ← load curr;
  let toDelete := next n in
  d ← load toDelete;
  set_next curr (next d);;
  t ← get_tail;
  (if decide (toDelete = t) then set_tail curr else mret ());;
  delete_node toDelete;;
  decr_size.

(** [while (!empty()) pop_front();] *)
Fixpoint clear_loop (fuel : nat) : M unit :=
  e ← empty;
  if e : bool then mret () else
  match fuel with
  | O => out_of_fuel
  | S fuel => pop_front;; clear_loop fuel
  end.

Definition clear : M unit :=
  n ← get_size; clear_loop (N.to_nat n).

(** [while (curr) { next = curr->next; curr->next = prev;
                    prev = curr; curr = next; }] *)
Fixpoint reverse_loop (fuel : nat) (prev curr : ptr) : M ptr :=
  if curr is Some _ then
    match fuel with
    | O => out_of_fuel
    | S fuel =>
        n ← load curr;
        set_next curr prev;;
        reverse_loop fuel curr (next n)
    end
  else mret prev.

Definition reverse : M unit :=
  h ← get_head;
  set_tail h;;
  fuel ← (λ s, Ok (map_size (store s)) s);
  prev ← reverse_loop fuel None h;
  set_head prev.

(** [for (auto it = begin(); it != end(); ++it)] with [*it] collected:
    the elements front to back. *)
Fixpoint iterate (fuel : nat) (current_ : ptr) : M (list T) :=
  if current_ is Some _ then
    match fuel with
    | O => out_of_fuel
    | S fuel =>
        n ← load current_;
        rest ← iterate fuel (next n);
        mret (data n :: rest)
    end
  else mret [].

Definition elements : M (list T) :=
  h ← get_head;
  fuel ← (λ s, Ok (map_size (store s)) s);
  iterate fuel h.

(** [LinkedList(std::initializer_list<T> init)] *)
Fixpoint push_all (init : list T) : M unit :=
  match init with
  | [] => mret ()
  | item :: init => push_back item;; push_all init
  end.

(** [for (Node* curr = head_; curr; curr = curr->next)
         if (curr->data == value) return true;
       return false;] *)
Fixpoint contains_loop `{!EqDecision T} (fuel : nat) (value : T) (curr : ptr)
    : M bool :=
  if curr is Some _ then
    match fuel with
    | O => out_of_fuel
    | S fuel =>
        n ← load curr;
        if decide (data n = value) then mret true
        else contains_loop fuel value (next n)
    end
  else mret false.

Definition contains `{!EqDecision T} (value : T) : M bool :=
  h ← get_head;
  fuel ← (λ s, Ok (map_size (store s)) s);
  contains_loop fuel value h.

(** [for (Node* curr = head_; curr; curr = curr->next)
         if (pred(curr->data)) return curr;
       return nullptr;] *)
Fixpoint find_if_loop (fuel : nat) (pred : T → bool) (curr : ptr) : M ptr :=
  if curr is Some _ then
    match fuel with
    | O => out_of_fuel
    | S fuel =>
        n ← load curr;
        if pred (data n) then mret curr
        else find_if_loop fuel pred (next n)
    end
  else mret None.

Definition find_if (pred : T → bool) : M ptr :=
  h ← get_head;
  fuel ← (λ s, Ok (map_size (store s)) s);
  find_if_loop fuel pred h.

(** [for (Node* curr = other.head_; curr; curr = curr->next)
         push_back(curr->data);]
    run on the list under construction, whose store also holds the
    nodes of [other]. *)
Fixpoint copy_loop (fuel : nat) (curr : ptr) : M unit :=
  if curr is Some _ then
    match fuel with
    | O => out_of_fuel
    | S fuel =>
        n ← load curr;
        push_back (data n);;
        copy_loop fuel (next n)
    end
  else mret ().

(** [LinkedList(const LinkedList& other)]: the delegated default
    constructor makes the new list empty, in the store [other] lives in;
    then the nodes of [other] are copied one by one. *)
Definition LinkedList_copy (other : LinkedList) : result unit :=
  copy_loop (map_size (store other)) (head_ other) (mk (store other) None None 0).

End List.
Arguments Ok {T A} a s.
Arguments Throw {T A} e s.
Arguments Fault {T A}.
Arguments OutOfFuel {T A}.
End LinkedList.

(** ** What the specification says about Sorting.hpp *)

Module sort_spec.
Import sort.

Section Specification.
Context {T : Type} (comp : T → T → bool).

(** [out] is [arr] rearranged: [p] lists, for every position of [out],
    the position of [arr] its element comes from. *)
Definition rearranged (arr out : list T) (p : list nat) : Prop :=
  p ≡ₚ seq 0 (length arr) ∧ Forall2 (λ y i, arr !! i = Some y) out p.

(** A rearrangement is stable when two elements that compare equal,
    neither [comp(x, y)] nor [comp(y, x)], keep the order they had. *)
Definition stable (arr out : list T) : Prop :=
  ∃ p, rearranged arr out p
    ∧ ∀ (u v i j : nat) x y,
        (u < v)%nat → p !! u = Some i → p !! v = Some j →
        arr !! i = Some x → arr !! j = Some y →
        comp x y = false → comp y x = false → (i < j)%nat.

(** The vector is in order: no element has to precede the one just
    before it. *)
Definition ordered (arr : list T) : Prop :=
  ∀ (i : nat) x y, arr !! i = Some x → arr !! S i = Some y → comp y x = false.

(** Comparators.  [asymmetric]: never both [comp(a, b)] and
    [comp(b, a)].  A strict partial order is irreflexive and transitive;
    a strict weak order, what the standard library asks of a [Compare],
    is one in which "neither before the other" is transitive as well. *)
Definition asymmetric : Prop := ∀ a b, comp a b = true → comp b a = false.

Definition equivalent (a b : T) : Prop := comp a b = false ∧ comp b a = false.

Record strict_partial_order : Prop := {
  spo_irreflexive a : comp a a = false;
  spo_transitive a b c : comp a b = true → comp b c = true → comp a c = true
}.

Record strict_weak_order : Prop := {
  swo_irreflexive a : comp a a = false;
  swo_transitive a b c : comp a b = true → comp b c = true → comp a c = true;
  swo_equivalent a b c : equivalent a b → equivalent b c → equivalent a c
}.

(** The heap laid out in the vector: the node at position [c > 0] has
    its parent at position [(c - 1) / 2]. *)
Definition parent (c : nat) : nat := (c - 1) / 2.

(** Among the first [n] elements, no node from position [s] on has to
    precede one of its children. *)
Definition heap_from (s n : nat) (arr : list T) : Prop :=
  ∀ (c : nat) x y,
    (1 ≤ c < n)%nat → (s ≤ parent c)%nat →
    arr !! parent c = Some x → arr !! c = Some y → comp x y = false.

(** The same with the node at [k] left out: nothing is said of [k] and
    its children, but the parent of [k] need not precede them. *)
Definition heap_except (s n k : nat) (arr : list T) : Prop :=
  (∀ (c : nat) x y,
     (1 ≤ c < n)%nat → (s ≤ parent c)%nat → parent c ≠ k →
     arr !! parent c = Some x → arr !! c = Some y → comp x y = false)
  ∧ (∀ (c : nat) x y,
       (1 ≤ k)%nat → (s ≤ parent k)%nat → (1 ≤ c < n)%nat → parent c = k →
       arr !! parent k = Some x → arr !! c = Some y → comp x y = false).

(** Insertion of [key] behind a sorted prefix, written from its end:
    [key] passes the elements it must precede and stops at the first
    one it need not. *)
Fixpoint insert_back (key : T) (rpre : list T) : list T :=
  match rpre with
  | [] => [key]
  | x :: rpre' => if comp key x then x :: insert_back key rpre' else key :: rpre
  end.

Definition place (pre : list T) (key : T) : list T :=
  reverse (insert_back key (reverse pre)).

(** What [insertionSort] computes. *)
Definition isort (arr : list T) : list T := foldl place [] arr.

(** Elements tagged with the position they start at, compared as
    before; [kept a b] is what holds of [a] placed before [b]: [a]
    started before [b], or had to precede it. *)
Definition tagged_comp (a b : T * nat) : bool := comp a.1 b.1.
Definition kept (a b : T * nat) : Prop :=
  (a.2 < b.2)%nat ∨ comp a.1 b.1 = true.
Definition tag (arr : list T) : list (T * nat) := zip arr (seq 0 (length arr)).
End Specification.

(** Records sorted by their first field only. *)
Definition by_key (a b : Z * Z) : bool := a.1 <? b.1.

(** The vector the demo program sorts. *)
Definition demo_vector : list Z := [64; 34; 25; 12; 22; 11; 90; 45].

End sort_spec.

(** ** What the specification says about BinarySearchTree.hpp *)

Module BinarySearchTree_spec.
Import BinarySearchTree.

Section Specification.
Context {T : Type} (lt : relation T).

(** The values stored below a node, left to right. *)
Fixpoint values (n : NodePtr (T:=T)) : list T :=
  match n with
  | nullptr => []
  | node data l r => values l ++ data :: values r
  end.

(** The BST property. *)
Fixpoint bst (n : NodePtr (T:=T)) : Prop :=
  match n with
  | nullptr => True
  | node data l r =>
      (∀ x, x ∈ values l → lt x data) ∧ (∀ x, x ∈ values r → lt data x)
      ∧ bst l ∧ bst r
  end.

(** The number of links on the longest way down from a node, [-1] for
    no node: the height as a number, free of the limits of [int]. *)
Fixpoint depth (n : NodePtr (T:=T)) : Z :=
  match n with
  | nullptr => -1
  | node _ l r => 1 + Z.max (depth l) (depth r)
  end.

(** The values at depth [k] below a node, left to right. *)
Fixpoint level (k : nat) (n : NodePtr (T:=T)) {struct n} : list T :=
  match n, k with
  | nullptr, _ => []
  | node data _ _, O => [data]
  | node _ l r, S k => level k l ++ level k r
  end.

(** The tree with no left child anywhere, its values down the right
    spine. *)
Fixpoint spine (xs : list T) : NodePtr (T:=T) :=
  match xs with
  | [] => nullptr
  | x :: xs => node x nullptr (spine xs)
  end.

(** The children of a node that are not null, left before right. *)
Definition children (n : NodePtr (T:=T)) : list (NodePtr (T:=T)) :=
  match n with
  | nullptr => []
  | node _ l r =>
      (if l is nullptr then [] else [l]) ++ (if r is nullptr then [] else [r])
  end.

(** [x] lies strictly between the bounds that are present. *)
Definition within (lo hi : option T) (x : T) : Prop :=
  (∀ m, lo = Some m → lt m x) ∧ (∀ m, hi = Some m → lt x m).

(** What every reachable tree satisfies. *)
Definition well_formed (t : BinarySearchTree (T:=T)) : Prop :=
  bst (root_ t) ∧ size_ t = N.of_nat (length (values (root_ t))).
End Specification.

Section Comparison.
Context {T : Type} (lt : relation T) `{!RelDecision lt} `{!EqDecision T}.

(** The three-way comparison every helper starts with: the answers of
    [v < d], [v > d] and [v == d]. *)
Inductive order_spec (v d : T) : bool → bool → bool → Prop :=
| order_lt : lt v d → order_spec v d true false false
| order_gt : lt d v → order_spec v d false true false
| order_eq : v = d → order_spec v d false false true.

(** [insert] of the values [xs], one after the other, the count apart. *)
Definition insert_all (n : NodePtr (T:=T)) (xs : list T) : NodePtr (T:=T) :=
  foldl (λ n x, (insert_node lt n x 0%N).1) n xs.
End Comparison.

(** The tree of the demo program, [{50, 30, 70, 20, 40, 60, 80}], then
    [remove(30)]. *)
Definition demo_tree : BinarySearchTree (T:=Z) :=
  of_list Z.lt [50; 30; 70; 20; 40; 60; 80].

End BinarySearchTree_spec.

(** ** What the specification says about LinkedList.hpp *)

Module LinkedList_spec.
Import LinkedList.
#[local] Existing Instances M_ret M_bind.

Section Specification.
Context {T : Type}.

(** The nodes linked from [p] up to [q], with their addresses. *)
Inductive lseg (h : gmap positive (Node (T:=T)))
    : ptr → ptr → list (positive * T) → Prop :=
| lseg_nil p : lseg h p p []
| lseg_cons a x q r cells :
    h !! a = Some (mkNode x q) → lseg h q r cells →
    lseg h (Some a) r ((a, x) :: cells).

(** The list [s] holds the nodes [cells], in this order: they are
    chained from [head_] to null, at distinct addresses, [tail_] is the
    last of them and [size_] their number. *)
Definition represents (s : LinkedList (T:=T)) (cells : list (positive * T)) : Prop :=
  lseg (store s) (head_ s) None cells
  ∧ NoDup cells.*1
  ∧ tail_ s = last cells.*1
  ∧ size_ s = N.of_nat (length cells).

Definition well_formed (s : LinkedList (T:=T)) : Prop := ∃ cells, represents s cells.

(** The list holds the nodes [cells] and no other node is allocated. *)
Definition owns (s : LinkedList (T:=T)) (cells : list (positive * T)) : Prop :=
  represents s cells ∧ map_size (store s) = length cells.

(** The public modifiers. *)
Inductive modifier : M (T:=T) () → Prop :=
| mod_push_front v : modifier (push_front v)
| mod_push_back v : modifier (push_back v)
| mod_pop_front : modifier pop_front
| mod_pop_back : modifier pop_back
| mod_insert i v : modifier (insert i v)
| mod_erase i : modifier (erase i)
| mod_clear : modifier clear
| mod_reverse : modifier reverse.

(** The lists a program can hold: the empty list, and what a modifier
    leaves behind, whether it returns or throws. *)
Inductive reachable : LinkedList (T:=T) → Prop :=
| reachable_new : reachable LinkedList_new
| reachable_ok s s' op :
    reachable s → modifier op → op s = Ok () s' → reachable s'
| reachable_throw s s' e op :
    reachable s → modifier op → op s = Throw e s' → reachable s'.

(** What the caller of a member function sees, the list apart. *)
Inductive answer (A : Type) : Type :=
| Returned (a : A)
| Raised (e : exn)
| Undefined
| Unfinished.

Definition answer_of {A : Type} (r : result (T:=T) A) : answer A :=
  match r with
  | Ok a _ => Returned A a
  | Throw e _ => Raised A e
  | Fault => Undefined A
  | OutOfFuel => Unfinished A
  end.
End Specification.

(** The list of the demo program: [{10, 20, 30, 40, 50}], then
    [push_front(5)], [push_back(60)], [insert(3, 25)]. *)
Definition demo_program : M (T:=Z) () :=
  push_all [10; 20; 30; 40; 50];; push_front 5;; push_back 60;; insert 3 25.

Definition demo_list : LinkedList (T:=Z) :=
  match demo_program LinkedList_new with
  | Ok _ s => s
  | _ => LinkedList_new
  end.

End LinkedList_spec.

(** ** Facts about Sorting.hpp *)

Module sort_facts.
Import sort sort_spec.

Section Arithmetic.
Context {T : Type}.
Implicit Types (arr : list T) (k z : Z).

Lemma size_t_small z : 0 ≤ z < 2 ^ 64 → size_t z = z.
Proof. intros. unfold size_t. by apply Z.mod_small. Qed.

Lemma to_int_small z : - 2 ^ 31 ≤ z < 2 ^ 31 → to_int z = z.
Proof. intros. unfold to_int. rewrite Z.mod_small; lia. Qed.

Lemma int_small z : - 2 ^ 31 ≤ z < 2 ^ 31 → int z = Ret z.
Proof. intros. unfold int, INT_MIN, INT_MAX. case_decide; [done|lia]. Qed.

Lemma get_lookup arr k x :
  0 ≤ k < 2 ^ 64 → arr !! Z.to_nat k = Some x → get arr k = Ret x.
Proof.
  intros Hk Hx. unfold get, size. rewrite size_t_small by done. rewrite Hx.
  apply lookup_lt_Some in Hx. case_decide; [done|lia].
Qed.

Lemma set_insert arr k x :
  0 ≤ k < 2 ^ 64 → k < Z.of_nat (length arr) →
  set arr k x = Ret (<[Z.to_nat k := x]> arr).
Proof.
  intros Hk Hlen. unfold set, size. rewrite size_t_small by done.
  case_decide; [done|lia].
Qed.

Lemma bind_Ret {A B : Type} (a : A) (f : A → outcome B) : Ret a ≫= f = f a.
Proof. done. Qed.

Lemma for_up_S {St : Type} count i (body : Z → St → outcome (St * bool)) s :
  for_up (S count) i body s
  = '(s, stop) ← body i s; if stop : bool then Ret s else for_up count (i + 1) body s.
Proof. done. Qed.
End Arithmetic.

Section Facts.
Context {T : Type} (comp : T → T → bool).
Implicit Types (arr pre : list T) (key x : T).

(** *** Bubble sort on the empty vector *)

(** C1: with [arr] empty, [n - 1] wraps to [2^64 - 1], both loops are
    entered and [arr[1]] is read from a vector of no elements. *)
Theorem bubbleSort_empty : bubbleSort comp [] = Undef.
Proof.
  cbv beta zeta delta [bubbleSort].
  change (size_t (size (@nil T) - 1)) with (Z.succ (2 ^ 64 - 2)).
  rewrite Z2Nat.inj_succ by done. rewrite for_up_S.
  cbv beta zeta delta [bubble_outer].
  change (size_t (size_t (size (@nil T) - 0) - 1)) with (Z.succ (2 ^ 64 - 2)).
  rewrite Z2Nat.inj_succ by done. rewrite for_up_S.
  reflexivity.
Qed.

(** *** Merge sort is not stable *)

(** C3 fails for [mergeSort]: of two records with equal keys, [merge]
    takes the one of the right run first, so they leave in the other
    order. *)
Lemma mergeSort_not_stable :
  mergeSort (0, 0) by_key [(1, 10); (1, 20)] = Ret [(1, 20); (1, 10)]
  ∧ ¬ stable by_key [(1, 10); (1, 20)] [(1, 20); (1, 10)].
Proof.
  split; [reflexivity|].
  intros (p & [_ Hp] & Hord).
  apply Forall2_cons_inv_l in Hp as (i & p' & Hi & Hp & ->).
  apply Forall2_cons_inv_l in Hp as (j & p'' & Hj & _ & ->).
  assert (i = 1%nat) as -> by (by destruct i as [|[|[|?]]]).
  assert (j = 0%nat) as -> by (by destruct j as [|[|[|?]]]).
  specialize (Hord 0%nat 1%nat 1%nat 0%nat (1, 20) (1, 10)).
  assert (1 < 0)%nat; [apply Hord; [lia|done..]|lia].
Qed.

(** *** Insertion sort *)

Lemma place_nil key : place comp [] key = [key].
Proof. done. Qed.

Lemma place_snoc pre x key :
  place comp (pre ++ [x]) key
  = if comp key x then place comp pre key ++ [x] else pre ++ [x; key].
Proof.
  unfold place. rewrite reverse_snoc. simpl. destruct (comp key x).
  - by rewrite reverse_cons.
  - rewrite !reverse_cons, reverse_involutive, <- app_assoc. done.
Qed.

Lemma place_perm pre key : place comp pre key ≡ₚ key :: pre.
Proof.
  induction pre as [|x pre IH] using rev_ind; [done|].
  rewrite place_snoc. destruct (comp key x).
  - by rewrite IH.
  - by rewrite (Permutation_cons_append (pre ++ [x])), <- app_assoc.
Qed.

Lemma length_place pre key : length (place comp pre key) = S (length pre).
Proof. by rewrite place_perm. Qed.

Lemma isort_snoc arr x : isort comp (arr ++ [x]) = place comp (isort comp arr) x.
Proof. unfold isort. by rewrite foldl_snoc. Qed.

Lemma isort_perm arr : isort comp arr ≡ₚ arr.
Proof.
  induction arr as [|x arr IH] using rev_ind; [done|].
  by rewrite isort_snoc, place_perm, IH, Permutation_cons_append.
Qed.

Lemma length_isort arr : length (isort comp arr) = length arr.
Proof. by rewrite isort_perm. Qed.

Lemma insertion_shift_unfold fuel key arr j :
  insertion_shift comp fuel key arr j
  = if decide (j >= 0) then
      x ← get arr j;
      if comp key x then
        match fuel with
        | O => Exhausted
        | S fuel =>
            j1 ← int (j + 1);
            arr ← set arr j1 x;
            j ← int (j - 1);
            insertion_shift comp fuel key arr j
        end
      else Ret (arr, j)
    else Ret (arr, j).
Proof. by destruct fuel. Qed.

(** The [while] loop of [insertionSort] opens the gap [key] belongs in:
    with the sorted prefix [pre] before the slot [key] was taken from,
    it stops with the slot moved to where [place] puts [key]. *)
Lemma insertion_shift_place key pre : ∀ (hole : T) rest fuel,
  (length pre ≤ fuel)%nat →
  Z.of_nat (length pre + 1 + length rest) ≤ 2 ^ 31 →
  ∃ pre1 pre2 hole',
    insertion_shift comp fuel key (pre ++ hole :: rest) (Z.of_nat (length pre) - 1)
    = Ret (pre1 ++ hole' :: pre2 ++ rest, Z.of_nat (length pre1) - 1)
    ∧ place comp pre key = pre1 ++ key :: pre2.
Proof.
  induction pre as [|x pre IH] using rev_ind; intros hole rest fuel Hfuel Hlen.
  - exists [], [], hole. split; [|done]. by rewrite insertion_shift_unfold.
  - rewrite length_app in *. simpl in Hfuel, Hlen.
    assert (insertion_shift comp fuel key ((pre ++ [x]) ++ hole :: rest)
              (Z.of_nat (length pre + length [x]) - 1)
            = if comp key x then
                match fuel with
                | O => Exhausted
                | S fuel =>
                    insertion_shift comp fuel key (pre ++ x :: x :: rest)
                      (Z.of_nat (length pre) - 1)
                end
              else Ret (pre ++ x :: hole :: rest, Z.of_nat (length pre))) as ->.
    { rewrite insertion_shift_unfold.
      case_decide; [|simpl in *; lia]. rewrite <- app_assoc.
      change ([x] ++ hole :: rest) with (x :: hole :: rest).
      replace (Z.of_nat (length pre + length [x]) - 1)
        with (Z.of_nat (length pre)) by (simpl; lia).
      rewrite (get_lookup _ _ x);
        [|lia|by rewrite Nat2Z.id; apply list_lookup_middle].
      rewrite bind_Ret. destruct (comp key x), fuel as [|fuel]; try done.
      rewrite (int_small (Z.of_nat (length pre) + 1)) by lia. rewrite bind_Ret.
      rewrite set_insert; [|lia|rewrite length_app; simpl; lia]. rewrite bind_Ret.
      replace (Z.to_nat (Z.of_nat (length pre) + 1)) with (length pre + 1)%nat by lia.
      rewrite insert_app_r.
      change (<[1%nat:=x]> (x :: hole :: rest)) with (x :: x :: rest).
      by rewrite int_small by lia. }
    rewrite place_snoc. destruct (comp key x).
    + destruct fuel as [|fuel]; [lia|].
      destruct (IH x (x :: rest) fuel) as (pre1 & pre2 & hole' & -> & ->);
        [lia|simpl; lia|].
      exists pre1, (pre2 ++ [x]), hole'. rewrite <- !app_assoc. done.
    + exists (pre ++ [x]), [], hole. rewrite length_app, <- !app_assoc. simpl.
      split; [|done]. do 3 f_equal. lia.
Qed.

Lemma insertion_outer_place pre key rest :
  Z.of_nat (length pre + 1 + length rest) ≤ 2 ^ 31 →
  insertion_outer comp (Z.of_nat (length pre)) (pre ++ key :: rest)
  = Ret (place comp pre key ++ rest, false).
Proof.
  intros Hlen. unfold insertion_outer.
  rewrite (get_lookup _ _ key);
    [|lia|by rewrite Nat2Z.id; apply list_lookup_middle].
  rewrite bind_Ret.
  rewrite to_int_small by lia. rewrite int_small by lia. rewrite bind_Ret.
  destruct (insertion_shift_place key pre key rest
              (Z.to_nat (Z.of_nat (length pre) - 1 + 1)))
    as (pre1 & pre2 & hole' & -> & E); [lia|done|].
  rewrite bind_Ret. cbv beta iota.
  pose proof (length_place pre key) as Hl. rewrite E, length_app in Hl.
  simpl in Hl. rewrite int_small by lia. rewrite bind_Ret.
  rewrite set_insert; [|lia|rewrite length_app; simpl; lia]. rewrite bind_Ret.
  replace (Z.to_nat (Z.of_nat (length pre1) - 1 + 1)) with (length pre1 + 0)%nat by lia.
  rewrite insert_app_r. simpl. by rewrite E, <- app_assoc.
Qed.

Lemma insertionSort_loop arr :
  Z.of_nat (length arr) ≤ 2 ^ 31 →
  ∀ (count i : nat), (i + count = length arr)%nat →
  for_up count (Z.of_nat i) (insertion_outer comp)
    (isort comp (take i arr) ++ drop i arr)
  = Ret (isort comp arr).
Proof.
  intros Hlen. induction count as [|count IH]; intros i Hi.
  - simpl. rewrite take_ge, drop_ge by lia. by rewrite app_nil_r.
  - destruct (lookup_lt_is_Some_2 arr i) as [key Hkey]; [lia|].
    rewrite for_up_S, (drop_S _ _ _ Hkey).
    pose proof (length_isort (take i arr)) as Hl.
    rewrite length_take_le in Hl by lia.
    rewrite <- Hl at 1. rewrite insertion_outer_place.
    + rewrite bind_Ret. cbv beta iota. rewrite <- isort_snoc, <- (take_S_r _ _ _ Hkey).
      replace (Z.of_nat i + 1) with (Z.of_nat (S i)) by lia.
      apply IH. lia.
    + rewrite Hl, length_drop. lia.
Qed.

(** [insertionSort] returns, on vectors an [int] can index, what
    [isort] describes. *)
Lemma insertionSort_isort arr :
  Z.of_nat (length arr) ≤ 2 ^ 31 →
  insertionSort comp arr = Ret (isort comp arr).
Proof.
  intros Hlen. unfold insertionSort, size. destruct arr as [|x arr]; [done|].
  replace (Z.to_nat (Z.of_nat (length (x :: arr)) - 1)) with (length arr)
    by (simpl; lia).
  apply (insertionSort_loop (x :: arr) Hlen (length arr) 1). simpl. lia.
Qed.

End Facts.

Section Naturality.
Context {A B : Type} (f : A → B).
Context (compA : A → A → bool) (compB : B → B → bool).
Hypothesis comp_f : ∀ a a', compA a a' = compB (f a) (f a').

Lemma insert_back_fmap key l :
  f <$> insert_back compA key l = insert_back compB (f key) (f <$> l).
Proof.
  induction l as [|x l IH]; [done|]. csimpl. rewrite <- comp_f.
  destruct (compA key x); csimpl; [by rewrite IH|done].
Qed.

Lemma place_fmap pre key :
  f <$> place compA pre key = place compB (f <$> pre) (f key).
Proof. unfold place. by rewrite fmap_reverse, insert_back_fmap, fmap_reverse. Qed.

Lemma isort_fmap l : f <$> isort compA l = isort compB (f <$> l).
Proof.
  induction l as [|x l IH] using rev_ind; [done|].
  rewrite fmap_app. change (f <$> [x]) with [f x].
  by rewrite !isort_snoc, place_fmap, IH.
Qed.
End Naturality.

Section Stability.
Context {T : Type} (comp : T → T → bool).
Implicit Types (arr : list T) (pre l : list (T * nat)) (key a b : T * nat).

Lemma StronglySorted_lookup {A : Type} (R : relation A) (xs : list A)
    (u v : nat) (x y : A) :
  StronglySorted R xs → xs !! u = Some x → xs !! v = Some y → (u < v)%nat →
  R x y.
Proof.
  intros Hs Hu Hv Huv.
  pose proof (take_drop_middle _ _ _ Hv) as Hsplit. rewrite <- Hsplit in Hs.
  eapply (StronglySorted_app_1_elem_of R _ _ x y Hs); [|set_solver].
  apply list_elem_of_lookup. exists u. by apply lookup_take_Some.
Qed.

Lemma place_kept pre key :
  StronglySorted (kept comp) pre → Forall (λ a, (a.2 < key.2)%nat) pre →
  StronglySorted (kept comp) (place (tagged_comp comp) pre key).
Proof.
  induction pre as [|x pre IH] using rev_ind; intros Hs Hk.
  - rewrite place_nil. repeat constructor.
  - rewrite place_snoc. pose proof Hs as Hs0.
    apply StronglySorted_app in Hs as (Hx & Hs & _).
    apply Forall_app in Hk as [Hk Hxk].
    destruct (tagged_comp comp key x) eqn:Hc.
    + apply StronglySorted_app_2; [|by apply IH|repeat constructor].
      intros a b Ha ->%list_elem_of_singleton.
      rewrite place_perm in Ha. apply elem_of_cons in Ha as [->|Ha].
      * by right.
      * apply Hx; set_solver.
    + change (pre ++ [x; key]) with (pre ++ [x] ++ [key]). rewrite app_assoc.
      apply StronglySorted_app_2; [|done|repeat constructor].
      intros a b Ha ->%list_elem_of_singleton. left.
      apply elem_of_app in Ha as [Ha| ->%list_elem_of_singleton].
      * by apply (proj1 (Forall_forall _ _) Hk).
      * exact (Forall_inv Hxk).
Qed.

Lemma isort_kept l :
  StronglySorted (λ a b, (a.2 < b.2)%nat) l →
  StronglySorted (kept comp) (isort (tagged_comp comp) l).
Proof.
  induction l as [|x l IH] using rev_ind; intros Hs; [constructor|].
  rewrite isort_snoc. apply StronglySorted_app in Hs as (Hx & Hs & _).
  apply place_kept; [by apply IH|]. apply Forall_forall. intros a Ha.
  rewrite isort_perm in Ha. apply Hx; set_solver.
Qed.

Lemma zip_seq_sorted arr (k : nat) :
  StronglySorted (λ a b : T * nat, (a.2 < b.2)%nat) (zip arr (seq k (length arr))).
Proof.
  revert k. induction arr as [|x arr IH]; intros k; simpl; constructor; [done|].
  apply Forall_forall. intros [y i] Hy%elem_of_zip_r.
  apply elem_of_seq in Hy. simpl. lia.
Qed.

Lemma tag_lookup arr a : a ∈ tag arr → arr !! a.2 = Some a.1.
Proof.
  intros [i Hi]%list_elem_of_lookup. destruct a as [x k].
  apply lookup_zip_Some in Hi as [Hx Hk].
  apply lookup_seq in Hk as [-> _]. done.
Qed.

(** [isort] is a stable rearrangement. *)
Lemma isort_stable arr : stable comp arr (isort comp arr).
Proof.
  set (out := isort (tagged_comp comp) (tag arr)).
  assert (out ≡ₚ tag arr) as Hperm by apply isort_perm.
  assert (isort comp arr = out.*1) as ->.
  { unfold out. rewrite (isort_fmap fst (tagged_comp comp) comp) by done.
    unfold tag. rewrite fst_zip; [done|]. by rewrite length_seq. }
  assert (Forall (λ a, arr !! a.2 = Some a.1) out) as Hout.
  { apply Forall_forall. intros a Ha. apply tag_lookup. by rewrite <- Hperm. }
  exists (out.*2). split; [split|].
  - rewrite Hperm. unfold tag. rewrite snd_zip; [done|]. by rewrite length_seq.
  - apply Forall2_fmap, Forall_Forall2_diag. done.
  - intros u v i j x y Huv Hu Hv Hx Hy Hxy Hyx.
    apply list_lookup_fmap_Some in Hu as (a & -> & Ha).
    apply list_lookup_fmap_Some in Hv as (b & -> & Hb).
    assert (kept comp a b) as [?|Hc]; [|done|].
    { eapply (StronglySorted_lookup _ out u v); [|done..].
      apply isort_kept, zip_seq_sorted. }
    rewrite Forall_forall in Hout.
    rewrite (Hout a) in Hx by by eapply list_elem_of_lookup_2.
    rewrite (Hout b) in Hy by by eapply list_elem_of_lookup_2.
    congruence.
Qed.

(** C3, as the code has it: [insertionSort], on a vector whose positions
    fit an [int], returns a stable rearrangement of its input.  (Of
    [mergeSort] it does not hold, see [mergeSort_not_stable].) *)
Theorem insertionSort_stable arr :
  Z.of_nat (length arr) ≤ 2 ^ 31 →
  ∃ out, insertionSort comp arr = Ret out ∧ stable comp arr out.
Proof.
  intros Hlen. exists (isort comp arr). split.
  - by apply insertionSort_isort.
  - apply isort_stable.
Qed.
End Stability.

Lemma insertionSort_stable_witness :
  ∃ out, insertionSort by_key [(1, 10); (1, 20); (0, 30); (1, 40)] = Ret out
         ∧ stable by_key [(1, 10); (1, 20); (0, 30); (1, 40)] out.
Proof. apply insertionSort_stable. simpl. lia. Defined.

Section Limits.
Context {T : Type} (comp : T → T → bool).

(** [selectionSort] has the bound of [bubbleSort], [n - 1] in [size_t]:
    on the empty vector its outer loop runs [2^64 - 1] times.  Its inner
    loop starts at [i + 1], above [n], so no element is touched and the
    empty vector comes back. *)
Lemma selectionSort_empty_loop (count : nat) : ∀ i,
  0 ≤ i → i + Z.of_nat count < 2 ^ 64 →
  for_up count i (selection_outer comp 0) [] = Ret [].
Proof.
  induction count as [|count IH]; intros i Hi Hc; [done|].
  rewrite for_up_S. cbv beta zeta delta [selection_outer].
  rewrite size_t_small by lia.
  replace (Z.to_nat (0 - (i + 1))) with 0%nat by lia.
  cbn [for_up]. rewrite bind_Ret. cbv beta iota.
  rewrite decide_False by (intros ?; done). rewrite bind_Ret. cbv beta iota.
  apply IH; lia.
Qed.

Lemma selectionSort_empty : selectionSort comp [] = Ret [].
Proof.
  cbv beta zeta delta [selectionSort].
  change (size_t (size (@nil T) - 1)) with (2 ^ 64 - 1).
  apply selectionSort_empty_loop; lia.
Qed.
End Limits.

(** Where the positions of a vector leave the range of [int]:
    [insertionSort] on [2^31 + 1] equal elements moves nothing while
    [i < 2^31], and with [i = 2^31] computes [static_cast<int>(i) - 1]
    below [INT_MIN]. *)
Lemma insertion_outer_equal (n : nat) (i : Z) :
  1 ≤ i < 2 ^ 31 → i < Z.of_nat n →
  insertion_outer Z.ltb i (replicate n 0) = Ret (replicate n 0, false).
Proof.
  intros Hi Hn. unfold insertion_outer.
  rewrite (get_lookup _ _ 0); [|lia|apply lookup_replicate_2; lia].
  rewrite bind_Ret, to_int_small by lia. rewrite int_small by lia.
  rewrite bind_Ret, insertion_shift_unfold. rewrite decide_True by lia.
  rewrite (get_lookup _ _ 0); [|lia|apply lookup_replicate_2; lia].
  rewrite bind_Ret. change (0 <? 0) with false. cbv beta iota.
  rewrite bind_Ret. cbv beta iota. rewrite int_small by lia.
  rewrite bind_Ret, set_insert; [|lia|rewrite length_replicate; lia].
  rewrite bind_Ret, list_insert_id; [done|]. apply lookup_replicate_2. lia.
Qed.

Lemma insertionSort_overflow_loop (n : nat) :
  Z.of_nat n = 2 ^ 31 + 1 →
  ∀ (count : nat) i, 1 ≤ i → i + Z.of_nat count = 2 ^ 31 →
  for_up (S count) i (insertion_outer Z.ltb) (replicate n 0) = Undef.
Proof.
  intros Hn. induction count as [|count IH]; intros i Hi Hc; rewrite for_up_S.
  - replace i with (2 ^ 31) by lia. unfold insertion_outer.
    rewrite (get_lookup _ _ 0); [|lia|apply lookup_replicate_2; lia].
    reflexivity.
  - rewrite insertion_outer_equal by lia. rewrite bind_Ret. cbv beta iota.
    apply IH; lia.
Qed.

Lemma insertionSort_int_overflow :
  insertionSort Z.ltb (replicate (Z.to_nat (2 ^ 31 + 1)) 0) = Undef.
Proof.
  unfold insertionSort, size. rewrite length_replicate.
  replace (Z.to_nat (Z.of_nat (Z.to_nat (2 ^ 31 + 1)) - 1))
    with (S (Z.to_nat (2 ^ 31 - 1))) by lia.
  apply insertionSort_overflow_loop; lia.
Qed.

(** The vector of the demo program through the six routines. *)
Example demo_sorted :
  bubbleSort Z.ltb demo_vector = Ret [11; 12; 22; 25; 34; 45; 64; 90]
  ∧ selectionSort Z.ltb demo_vector = Ret [11; 12; 22; 25; 34; 45; 64; 90]
  ∧ insertionSort Z.ltb demo_vector = Ret [11; 12; 22; 25; 34; 45; 64; 90]
  ∧ mergeSort 0 Z.ltb demo_vector = Ret [11; 12; 22; 25; 34; 45; 64; 90]
  ∧ quickSort Z.ltb demo_vector = Ret [11; 12; 22; 25; 34; 45; 64; 90]
  ∧ heapSort Z.ltb demo_vector = Ret [11; 12; 22; 25; 34; 45; 64; 90]
  ∧ quickSort Z.gtb demo_vector = Ret [90; 64; 45; 34; 25; 22; 12; 11]
  ∧ isSorted Z.gtb [90; 64; 45; 34; 25; 22; 12; 11] = Ret true.
Proof. by vm_compute. Qed.

End sort_facts.

(** ** Facts about BinarySearchTree.hpp *)

Module BinarySearchTree_facts.
Import BinarySearchTree BinarySearchTree_spec.

#[local] Instance Z_lt_trichotomy : Trichotomy Z.lt.
Proof. intros x y. lia. Qed.

Section Facts.
Context {T : Type} (lt : relation T) `{!RelDecision lt} `{!EqDecision T}.
Context `{!StrictOrder lt} `{!Trichotomy lt}.

Implicit Types (n l r : NodePtr (T:=T)) (v x d : T) (t : BinarySearchTree (T:=T)).

Lemma lt_irrefl x : ¬ lt x x.
Proof. apply (irreflexivity lt). Qed.

Lemma lt_asym x y : lt x y → lt y x → False.
Proof. intros H1 H2. exact (lt_irrefl x (transitivity H1 H2)). Qed.

Lemma lt_total x y : ¬ lt x y → ¬ lt y x → x = y.
Proof. intros H1 H2. destruct (trichotomy lt x y) as [?|[?|?]]; tauto. Qed.

Lemma order_cases v d : order_spec lt v d (ltb lt v d) (gtb lt v d) (eqb v d).
Proof.
  unfold ltb, gtb, eqb. repeat case_bool_decide; subst;
    try (exfalso; by eauto using lt_irrefl, lt_asym).
  - by constructor.
  - by constructor.
  - by constructor.
  - exfalso. eauto using lt_total.
Qed.

Lemma inorder_values n result : inorder n result = result ++ values n.
Proof.
  revert result. induction n as [|d l IHl r IHr]; intros result; simpl.
  - by rewrite app_nil_r.
  - rewrite IHr, IHl, <- !app_assoc. done.
Qed.

(** *** insert *)

Lemma insert_node_values n v size :
  ∀ x, x ∈ values (insert_node lt n v size).1 ↔ x = v ∨ x ∈ values n.
Proof.
  revert size. induction n as [|d l IHl r IHr]; intros size x; simpl.
  - set_solver.
  - destruct (order_cases v d) as [Hlt|Hgt| ->].
    + specialize (IHl size x). destruct (insert_node lt l v size) as [l' s'].
      simpl in *. set_solver.
    + specialize (IHr size x). destruct (insert_node lt r v size) as [r' s'].
      simpl in *. set_solver.
    + simpl. set_solver.
Qed.

Lemma insert_node_bst n v size : bst lt n → bst lt (insert_node lt n v size).1.
Proof.
  revert size. induction n as [|d l IHl r IHr]; intros size; simpl.
  - set_solver.
  - intros (Hl & Hr & Bl & Br). destruct (order_cases v d) as [Hlt|Hgt| ->].
    + pose proof (insert_node_values l v size) as Hv.
      specialize (IHl size Bl). destruct (insert_node lt l v size) as [l' s'].
      simpl in *. split_and!; try done. intros x [->|?]%Hv; auto.
    + pose proof (insert_node_values r v size) as Hv.
      specialize (IHr size Br). destruct (insert_node lt r v size) as [r' s'].
      simpl in *. split_and!; try done. intros x [->|?]%Hv; auto.
    + simpl. done.
Qed.

(** [search] and [insert] walk down the same path. *)
Lemma insert_node_found n v size :
  search lt n v = true → insert_node lt n v size = (n, size).
Proof.
  induction n as [|d l IHl r IHr]; simpl; [done|].
  destruct (order_cases v d) as [Hlt|Hgt| ->]; intros H; [| |done].
  - by rewrite (IHl H).
  - by rewrite (IHr H).
Qed.

Lemma insert_node_fresh n v size :
  search lt n v = false →
  (insert_node lt n v size).2 = incr size
  ∧ length (values (insert_node lt n v size).1) = S (length (values n)).
Proof.
  induction n as [|d l IHl r IHr]; simpl; [done|].
  destruct (order_cases v d) as [Hlt|Hgt| ->]; intros H; [| |done].
  - destruct (IHl H) as [E1 E2]. destruct (insert_node lt l v size) as [l' s'].
    simpl in *. rewrite !length_app, E2. simpl. split; [done|lia].
  - destruct (IHr H) as [E1 E2]. destruct (insert_node lt r v size) as [r' s'].
    simpl in *. rewrite !length_app. simpl. rewrite E2. split; [done|lia].
Qed.

(** *** search *)

Lemma search_values n v : bst lt n → search lt n v = true ↔ v ∈ values n.
Proof.
  induction n as [|d l IHl r IHr]; simpl.
  - intros _. split; [done|]. by intros ?%elem_of_nil.
  - intros (Hl & Hr & Bl & Br).
    destruct (order_cases v d) as [Hlt|Hgt| ->].
    + rewrite (IHl Bl). split; [set_solver|].
      intros [?|[->|?%Hr]%elem_of_cons]%elem_of_app; [done| |].
      * by destruct (lt_irrefl d).
      * by destruct (lt_asym v d).
    + rewrite (IHr Br). split; [set_solver|].
      intros [?%Hl|[->|?]%elem_of_cons]%elem_of_app; [|by destruct (lt_irrefl d)|done].
      by destruct (lt_asym v d).
    + split; [set_solver|done].
Qed.

(** *** The in-order sequence of a search tree *)

Lemma bst_sorted n : bst lt n → StronglySorted lt (values n).
Proof.
  induction n as [|d l IHl r IHr]; simpl; [constructor|].
  intros (Hl & Hr & Bl & Br). apply StronglySorted_app_2; auto.
  - intros x y Hx [->|Hy]%elem_of_cons; [auto|].
    transitivity d; auto.
  - constructor; [auto|]. apply Forall_forall. auto.
Qed.

Lemma sorted_head_least (xs : list T) m :
  StronglySorted lt xs → head xs = Some m → ∀ x, x ∈ xs → x = m ∨ lt m x.
Proof.
  destruct 1 as [|y ys _ Hall]; simpl; [done|]. intros [= ->] x.
  rewrite Forall_forall in Hall. intros [->|?]%elem_of_cons; auto.
Qed.

Lemma sorted_last_greatest (xs : list T) m :
  StronglySorted lt xs → last xs = Some m → ∀ x, x ∈ xs → x = m ∨ lt x m.
Proof.
  intros Hs Hlast x Hx.
  destruct (last_Some xs m) as [[ys ->] _]; [done|].
  apply elem_of_app in Hx as [Hx|Hx%list_elem_of_singleton]; [|auto].
  right. eapply (StronglySorted_app_1_elem_of lt ys [m]); set_solver.
Qed.

(** *** findMin and findMax *)

Lemma findMin_head n :
  match findMin n with
  | nullptr => n = nullptr
  | node m _ _ => head (values n) = Some m
  end.
Proof.
  induction n as [|d l IHl r _]; [done|].
  destruct l as [|dl ll rl]; [done|].
  change (findMin (node d (node dl ll rl) r)) with (findMin (node dl ll rl)).
  destruct (findMin (node dl ll rl)); [done|].
  change (values (node d (node dl ll rl) r))
    with (values (node dl ll rl) ++ d :: values r).
  by rewrite head_app, IHl.
Qed.

Lemma findMax_last n :
  match findMax n with
  | nullptr => n = nullptr
  | node m _ _ => last (values n) = Some m
  end.
Proof.
  induction n as [|d l _ r IHr]; [done|].
  destruct r as [|dr lr rr].
  - simpl. apply last_snoc.
  - change (findMax (node d l (node dr lr rr))) with (findMax (node dr lr rr)).
    destruct (findMax (node dr lr rr)); [done|].
    change (values (node d l (node dr lr rr)))
      with (values l ++ d :: values (node dr lr rr)).
    by rewrite last_app_cons, last_cons, IHr.
Qed.

(** *** remove *)

Lemma decr_of_nat (k : nat) : decr (N.of_nat (S k)) = N.of_nat k.
Proof. unfold decr. case_decide; lia. Qed.

Lemma remove_node_spec n : ∀ v size,
  bst lt n →
  ∃ n' size',
    remove_node lt n v size = Ret (n', size')
    ∧ bst lt n'
    ∧ (∀ x, x ∈ values n' ↔ x ∈ values n ∧ x ≠ v)
    ∧ (v ∉ values n → n' = n ∧ size' = size)
    ∧ (v ∈ values n →
         size' = decr size ∧ S (length (values n')) = length (values n)).
Proof.
  induction n as [|d l IHl r IHr]; intros v size.
  - intros _. exists nullptr, size. simpl. split_and!; try done; set_solver.
  - intros (Hl & Hr & Bl & Br). simpl.
    destruct (order_cases v d) as [Hlt|Hgt| ->].
    + destruct (IHl v size Bl) as (l' & s' & -> & Bl' & Hv & Hout & Hin).
      exists (node d l' r), s'. simpl. split_and!; try done.
      * intros x Hx%Hv. apply Hl. tauto.
      * intros x. rewrite !elem_of_app, !elem_of_cons, Hv. split.
        -- intros [[? ?]|[->|Hx]]; split; auto.
           ++ intros ->. by destruct (lt_irrefl v).
           ++ intros ->. apply Hr in Hx. by destruct (lt_asym v d).
        -- intros [[?|[->|?]] ?]; auto.
      * intros Hn. destruct Hout as [-> ->]; [set_solver|done].
      * intros [Hx|[->|Hx]%elem_of_cons]%elem_of_app.
        -- destruct (Hin Hx) as [-> E]. split; [done|].
           rewrite !length_app. simpl. lia.
        -- by destruct (lt_irrefl d).
        -- apply Hr in Hx. by destruct (lt_asym v d).
    + destruct (IHr v size Br) as (r' & s' & -> & Br' & Hv & Hout & Hin).
      exists (node d l r'), s'. simpl. split_and!; try done.
      * intros x Hx%Hv. apply Hr. tauto.
      * intros x. rewrite !elem_of_app, !elem_of_cons, Hv. split.
        -- intros [Hx|[->|[? ?]]]; split; auto.
           ++ intros ->. apply Hl in Hx. by destruct (lt_asym v d).
           ++ intros ->. by destruct (lt_irrefl v).
        -- intros [[?|[->|?]] ?]; auto.
      * intros Hn. destruct Hout as [-> ->]; [set_solver|done].
      * intros [Hx|[->|Hx]%elem_of_cons]%elem_of_app.
        -- apply Hl in Hx. by destruct (lt_asym v d).
        -- by destruct (lt_irrefl d).
        -- destruct (Hin Hx) as [-> E]. split; [done|].
           rewrite !length_app. simpl. lia.
    + destruct l as [|dl ll rl].
      { exists r, (decr size). simpl. split_and!; try done.
        - intros x. rewrite elem_of_cons. split; [|tauto].
          intros Hx. split; [auto|]. intros ->. apply Hr in Hx.
          by destruct (lt_irrefl d).
        - set_solver. }
      destruct r as [|dr lr rr].
      { exists (node dl ll rl), (decr size). split_and!; try done.
        - intros x. change (values (node d (node dl ll rl) nullptr))
            with (values (node dl ll rl) ++ [d]).
          rewrite elem_of_app, list_elem_of_singleton. split; [|tauto].
          intros Hx. split; [auto|]. intros ->. apply Hl in Hx.
          by destruct (lt_irrefl d).
        - set_solver.
        - intros _. split; [done|].
          change (values (node d (node dl ll rl) nullptr))
            with (values (node dl ll rl) ++ [d]).
          rewrite length_app. simpl. lia. }
      cbv beta iota.
      remember (node dl ll rl) as l eqn:El. remember (node dr lr rr) as r eqn:Er.
      pose proof (findMin_head r) as Hmin.
      destruct (findMin r) as [|m lm rm]; [congruence|]. simpl.
      pose proof (bst_sorted r Br) as Sr.
      pose proof (sorted_head_least _ _ Sr Hmin) as Hleast.
      assert (m ∈ values r) as Hm by by apply head_Some_elem_of.
      destruct (IHr m size Br) as (r' & s' & -> & Br' & Hv & _ & Hin).
      destruct (Hin Hm) as [-> Hlen].
      exists (node m l r'), (decr size). simpl. split_and!; try done.
      * intros x Hx. transitivity d; auto.
      * intros x [Hx Hne]%Hv. destruct (Hleast x Hx); done.
      * intros x. rewrite !elem_of_app, !elem_of_cons, Hv. split.
        -- intros [Hx|[->|[Hx ?]]]; split; auto.
           ++ intros ->. apply Hl in Hx. by destruct (lt_irrefl d).
           ++ intros ->. apply Hr in Hm. by destruct (lt_irrefl d).
           ++ intros ->. apply Hr in Hx. by destruct (lt_irrefl d).
        -- intros [[?|[?|?]] ?]; [auto|done|]. destruct (decide (x = m)); auto.
      * intros Hn. exfalso. apply Hn. set_solver.
      * intros _. split; [done|]. rewrite !length_app. simpl. lia.
Qed.

(** *** isValid *)

Lemma leb_false a b : leb lt a b = false ↔ lt b a.
Proof.
  unfold leb. rewrite bool_decide_eq_false. split.
  - intros Hn. destruct (trichotomy lt a b) as [?|[?|?]]; tauto.
  - intros Hlt [?| ->]; [by eapply lt_asym|by eapply lt_irrefl].
Qed.

Lemma geb_false a b : geb lt a b = false ↔ lt a b.
Proof.
  unfold geb. rewrite bool_decide_eq_false. split.
  - intros Hn. destruct (trichotomy lt a b) as [?|[?|?]]; tauto.
  - intros Hlt [?| ->]; [by eapply lt_asym|by eapply lt_irrefl].
Qed.

Lemma isValidBST_spec n : ∀ lo hi,
  isValidBST lt n lo hi = true
  ↔ bst lt n ∧ ∀ x, x ∈ values n → within lt lo hi x.
Proof.
  induction n as [|d l IHl r IHr]; intros lo hi; simpl.
  - split; [|done]. intros _. split; [done|]. by intros x ?%elem_of_nil.
  - assert (from_option (leb lt d) false lo || from_option (geb lt d) false hi
            = false ↔ within lt lo hi d) as Hd.
    { unfold within. destruct lo as [a|], hi as [b|]; simpl;
        rewrite ?orb_false_r, ?orb_false_iff, ?leb_false, ?geb_false;
        naive_solver. }
    destruct (from_option (leb lt d) false lo || from_option (geb lt d) false hi).
    + split; [done|]. intros [_ Hw]. destruct Hd as [_ Hd].
      assert (true = false) by (apply Hd, Hw; set_solver). done.
    + destruct Hd as [Hd _]. specialize (Hd eq_refl). destruct Hd as [Hlo Hhi].
      rewrite andb_true_iff, IHl, IHr. unfold within. split.
      * intros [[Bl Wl] [Br Wr]]. split.
        -- split_and!; try done.
           ++ intros x Hx. by apply (Wl x Hx).
           ++ intros x Hx. by apply (Wr x Hx).
        -- intros x [Hx|[->|Hx]%elem_of_cons]%elem_of_app.
           ++ split; [apply Wl, Hx|]. intros m Hm. transitivity d; [|auto].
              by apply (Wl x Hx).
           ++ done.
           ++ split; [|apply Wr, Hx]. intros m Hm. transitivity d; [auto|].
              by apply (Wr x Hx).
      * intros [(Hl & Hr & Bl & Br) W]. split; (split; [done|]).
        -- intros x Hx. split; [apply W; set_solver|]. intros m [= <-]. auto.
        -- intros x Hx. split; [|apply W; set_solver]. intros m [= <-]. auto.
Qed.

(** *** Reachable trees *)

Lemma tree_well_formed t : reachable lt t → well_formed lt t.
Proof.
  unfold well_formed. induction 1 as [|t v _ [B E]|t t' v _ [B E] Hrm|t _ _].
  - done.
  - unfold insert. pose proof (insert_node_bst (root_ t) v (size_ t) B) as B'.
    destruct (search lt (root_ t) v) eqn:Hs.
    + rewrite (insert_node_found _ _ _ Hs). done.
    + destruct (insert_node_fresh (root_ t) v (size_ t) Hs) as [E1 E2].
      destruct (insert_node lt (root_ t) v (size_ t)) as [n' s']. simpl in *.
      split; [done|]. rewrite E1, E2, E. unfold incr. lia.
  - unfold remove in Hrm.
    destruct (remove_node_spec (root_ t) v (size_ t) B)
      as (n' & s' & Hr & B' & _ & Hout & Hin).
    rewrite Hr in Hrm. simpl in Hrm. injection Hrm as <-. simpl.
    split; [done|]. destruct (decide (v ∈ values (root_ t))) as [Hv|Hv].
    + destruct (Hin Hv) as [-> Hlen]. rewrite E, <- Hlen. apply decr_of_nat.
    + by destruct (Hout Hv) as [-> ->].
  - done.
Qed.

Lemma reachable_of_list (init : list T) : reachable lt (of_list lt init).
Proof.
  unfold of_list. generalize (reachable_new lt). generalize (new (T:=T)).
  induction init as [|x init IH]; intros t Ht; simpl; [done|].
  apply IH. by constructor.
Qed.

(** *** The properties of the specification *)

(** C2: every tree reachable through the public modifiers has the BST
    property, and [isValid()] returns true on it. *)
Theorem reachable_isValid t :
  reachable lt t → bst lt (root_ t) ∧ isValid lt t = true.
Proof.
  intros [B _]%tree_well_formed. split; [done|].
  unfold isValid. apply isValidBST_spec. split; [done|].
  intros x _. by split.
Qed.

(** C4: [inorderTraversal()] of a reachable tree lists the values the
    tree stores, each once: a value is in the list exactly when
    [contains] finds it, and the list is as long as [size()] says.  The
    list is strictly ascending: an earlier element is less than a later
    one, so no later element is less than an earlier one. *)
Theorem inorderTraversal_ascending t :
  reachable lt t →
  inorderTraversal t = values (root_ t)
  ∧ (∀ v, v ∈ inorderTraversal t ↔ contains lt v t = true)
  ∧ N.of_nat (length (inorderTraversal t)) = size t
  ∧ NoDup (inorderTraversal t)
  ∧ StronglySorted lt (inorderTraversal t)
  ∧ ∀ (i j : nat) x y,
      inorderTraversal t !! i = Some x → inorderTraversal t !! j = Some y →
      (i < j)%nat → lt x y ∧ ¬ lt y x.
Proof.
  intros [B E]%tree_well_formed. unfold inorderTraversal, contains, size.
  rewrite inorder_values. simpl.
  pose proof (bst_sorted _ B) as Hs.
  assert (∀ (i j : nat) x y,
            values (root_ t) !! i = Some x → values (root_ t) !! j = Some y →
            (i < j)%nat → lt x y) as Hlt.
  { intros i j x y Hi Hj Hij.
    pose proof (take_drop_middle _ _ _ Hj) as Hsplit.
    eapply (StronglySorted_app_1_elem_of lt (take j (values (root_ t)))
              (y :: drop (S j) (values (root_ t))) x y);
      [congruence| |set_solver].
    apply list_elem_of_lookup. exists i. by apply lookup_take_Some. }
  split_and!; [done| |done| |done|].
  - intros v. symmetry. by apply search_values.
  - apply NoDup_alt. intros i j x Hi Hj.
    destruct (Nat.lt_trichotomy i j) as [Hij|[Hij|Hij]]; [|done|].
    + destruct (lt_irrefl x). by apply (Hlt i j).
    + destruct (lt_irrefl x). by apply (Hlt j i).
  - intros i j x y Hi Hj Hij.
    assert (lt x y) as Hxy by by apply (Hlt i j).
    split; [done|]. intros ?. by eapply lt_asym.
Qed.

(** C7: [insert] of a stored value and [remove] of a value not stored
    change nothing and fail in no way; [insert] of a new value adds one
    to the count and [remove] of a stored value takes one off. *)
Theorem insert_remove_count t v :
  reachable lt t →
  (v ∈ inorderTraversal t → insert lt v t = t)
  ∧ (v ∉ inorderTraversal t → remove lt v t = Ret t)
  ∧ (v ∉ inorderTraversal t →
       size (insert lt v t) = (size t + 1)%N
       ∧ ∀ x, x ∈ inorderTraversal (insert lt v t)
              ↔ x = v ∨ x ∈ inorderTraversal t)
  ∧ (v ∈ inorderTraversal t →
       ∃ t', remove lt v t = Ret t'
             ∧ (size t' + 1)%N = size t
             ∧ ∀ x, x ∈ inorderTraversal t'
                    ↔ x ∈ inorderTraversal t ∧ x ≠ v).
Proof.
  intros [B E]%tree_well_formed. destruct t as [n s]. simpl in *.
  unfold inorderTraversal, insert, remove, size. simpl.
  rewrite inorder_values. simpl.
  pose proof (search_values n v B) as Hs.
  destruct (remove_node_spec n v s B) as (n' & s' & Hr & B' & Hv & Hout & Hin).
  rewrite Hr. simpl. split_and!.
  - intros Hx%Hs. by rewrite (insert_node_found _ _ _ Hx).
  - intros Hx. by destruct (Hout Hx) as [-> ->].
  - intros Hx. assert (search lt n v = false) as Hf.
    { destruct (search lt n v); [|done]. destruct Hx. by apply Hs. }
    destruct (insert_node_fresh n v s Hf) as [E1 _].
    pose proof (insert_node_values n v s) as Hi.
    destruct (insert_node lt n v s) as [n1 s1]. simpl in *.
    split; [done|]. intros x. rewrite inorder_values. apply Hi.
  - intros Hx. destruct (Hin Hx) as [-> Hlen]. eexists. split; [done|].
    simpl. split.
    + rewrite E, <- Hlen, decr_of_nat. lia.
    + intros x. rewrite inorder_values. apply Hv.
Qed.

(** C9: [minimum()] and [maximum()] are empty exactly on the empty tree,
    the tree of count 0; otherwise they are the first and the last
    element of [inorderTraversal()], the least and the greatest value
    stored. *)
Theorem minimum_maximum t :
  reachable lt t →
  (minimum t = None ↔ size t = 0%N)
  ∧ (maximum t = None ↔ size t = 0%N)
  ∧ (size t = 0%N ↔ root_ t = nullptr)
  ∧ minimum t = head (inorderTraversal t)
  ∧ maximum t = last (inorderTraversal t)
  ∧ (∀ m, minimum t = Some m →
       m ∈ inorderTraversal t ∧ ∀ x, x ∈ inorderTraversal t → x = m ∨ lt m x)
  ∧ (∀ m, maximum t = Some m →
       m ∈ inorderTraversal t ∧ ∀ x, x ∈ inorderTraversal t → x = m ∨ lt x m).
Proof.
  intros [B E]%tree_well_formed. destruct t as [n s]. simpl in *.
  unfold inorderTraversal, minimum, maximum, size. simpl.
  rewrite inorder_values. simpl.
  pose proof (bst_sorted _ B) as Hs.
  pose proof (findMin_head n) as Hmin. pose proof (findMax_last n) as Hmax.
  assert (s = 0%N ↔ n = nullptr) as Hz.
  { subst s. destruct n as [|d l r]; simpl; [done|].
    rewrite length_app. simpl. split; [lia|done]. }
  assert (match findMin n with nullptr => None | node d _ _ => Some d end
          = head (values n)) as Emin.
  { destruct (findMin n); [by subst|done]. }
  assert (match findMax n with nullptr => None | node d _ _ => Some d end
          = last (values n)) as Emax.
  { destruct (findMax n); [by subst|done]. }
  rewrite Emin, Emax. split_and!; try done.
  - rewrite Hz. destruct n as [|d l r]; simpl; [done|].
    split; [|done]. by intros [_ ?]%head_app_None.
  - rewrite Hz. destruct n as [|d l r]; simpl; [done|].
    split; [|done]. by intros [_ ?%last_None]%last_app_None.
  - intros m Hm. split; [by apply head_Some_elem_of|].
    by apply sorted_head_least.
  - intros m Hm. split; [|by apply sorted_last_greatest].
    apply last_Some in Hm as [ys ->]. set_solver.
Qed.

(** C10: on a reachable tree [contains(v)] is true exactly for the
    values [inorderTraversal()] lists. *)
Theorem contains_inorderTraversal t v :
  reachable lt t → contains lt v t = true ↔ v ∈ inorderTraversal t.
Proof.
  intros [B _]%tree_well_formed. unfold contains, inorderTraversal.
  rewrite inorder_values. simpl. by apply search_values.
Qed.

End Facts.

Example demo_tree_inorder :
  inorderTraversal demo_tree = [20; 30; 40; 50; 60; 70; 80].
Proof. reflexivity. Qed.

Example demo_tree_remove :
  (t ← remove Z.lt 30 demo_tree; Ret (inorderTraversal t))
  = Ret [20; 40; 50; 60; 70; 80].
Proof. reflexivity. Qed.

Example demo_tree_height :
  height (new (T:=Z)) = Ret (-1) ∧ height (of_list Z.lt [7]) = Ret 0.
Proof. done. Qed.

Lemma reachable_isValid_witness :
  bst Z.lt (root_ demo_tree) ∧ isValid Z.lt demo_tree = true.
Proof. apply (reachable_isValid Z.lt demo_tree), reachable_of_list. Defined.

Lemma inorderTraversal_ascending_witness :
  inorderTraversal demo_tree = values (root_ demo_tree)
  ∧ (∀ v, v ∈ inorderTraversal demo_tree ↔ contains Z.lt v demo_tree = true)
  ∧ N.of_nat (length (inorderTraversal demo_tree)) = size demo_tree
  ∧ NoDup (inorderTraversal demo_tree)
  ∧ StronglySorted Z.lt (inorderTraversal demo_tree)
  ∧ ∀ (i j : nat) x y,
      inorderTraversal demo_tree !! i = Some x →
      inorderTraversal demo_tree !! j = Some y →
      (i < j)%nat → x < y ∧ ¬ y < x.
Proof. apply (inorderTraversal_ascending Z.lt demo_tree), reachable_of_list. Defined.

Lemma insert_remove_count_witness :
  insert Z.lt 30 demo_tree = demo_tree
  ∧ remove Z.lt 35 demo_tree = Ret demo_tree
  ∧ size (insert Z.lt 35 demo_tree) = 8%N
  ∧ ∃ t', remove Z.lt 30 demo_tree = Ret t' ∧ (size t' + 1)%N = 7%N.
Proof.
  destruct (insert_remove_count Z.lt demo_tree 30 (reachable_of_list Z.lt _))
    as (H1 & _ & _ & H4).
  destruct (insert_remove_count Z.lt demo_tree 35 (reachable_of_list Z.lt _))
    as (_ & H2 & H3 & _).
  assert (30 ∈ inorderTraversal demo_tree) as Hin
    by (apply (bool_decide_unpack _); vm_compute; exact I).
  assert (35 ∉ inorderTraversal demo_tree) as Hout
    by (apply (bool_decide_unpack _); vm_compute; exact I).
  split_and!.
  - by apply H1.
  - by apply H2.
  - by apply H3.
  - destruct (H4 Hin) as (t' & ? & ? & _). by exists t'.
Defined.

Lemma minimum_maximum_witness :
  minimum demo_tree = head (inorderTraversal demo_tree)
  ∧ maximum demo_tree = last (inorderTraversal demo_tree)
  ∧ (minimum demo_tree = None ↔ size demo_tree = 0%N)
  ∧ (maximum (new (T:=Z)) = None ↔ size (new (T:=Z)) = 0%N).
Proof.
  destruct (minimum_maximum Z.lt demo_tree (reachable_of_list Z.lt _))
    as (H1 & _ & _ & H4 & H5 & _).
  destruct (minimum_maximum Z.lt new (reachable_new Z.lt)) as (_ & H2 & _).
  done.
Defined.

Lemma contains_inorderTraversal_witness :
  contains Z.lt 40 demo_tree = true ↔ 40 ∈ inorderTraversal demo_tree.
Proof. apply (contains_inorderTraversal Z.lt demo_tree 40), reachable_of_list. Defined.

End BinarySearchTree_facts.

(** ** Facts about LinkedList.hpp *)

Module LinkedList_facts.
Import LinkedList LinkedList_spec.
#[local] Existing Instances M_ret M_bind.

Section Facts.
Context {T : Type}.
Implicit Types (s : LinkedList (T:=T)) (h : gmap positive (Node (T:=T))).
Implicit Types (cells : list (positive * T)) (p q r : ptr) (a : positive).

(** *** Segments of the store *)

Lemma lseg_app h p q r cells1 cells2 :
  lseg h p q cells1 → lseg h q r cells2 → lseg h p r (cells1 ++ cells2).
Proof. induction 1; simpl; [done|]. intros. econstructor; eauto. Qed.

Lemma lseg_snoc h p a x q cells :
  lseg h p (Some a) cells → h !! a = Some (mkNode x q) →
  lseg h p q (cells ++ [(a, x)]).
Proof. intros H1 H2. eapply lseg_app; [done|]. repeat econstructor. done. Qed.

Lemma lseg_app_inv h p r cells1 cells2 :
  lseg h p r (cells1 ++ cells2) →
  ∃ q, lseg h p q cells1 ∧ lseg h q r cells2.
Proof.
  revert p. induction cells1 as [|[a x] cells1 IH]; intros p; simpl.
  - intros H. exists p. split; [constructor|done].
  - inversion 1; subst. destruct (IH _ H6) as (q' & ? & ?).
    exists q'. split; [econstructor; eauto|done].
Qed.

Lemma lseg_insert h p q cells a n :
  lseg h p q cells → a ∉ cells.*1 → lseg (<[a := n]> h) p q cells.
Proof.
  induction 1 as [|b x q' r cells Hb _ IH]; [constructor|].
  rewrite fmap_cons, not_elem_of_cons. simpl. intros [? ?].
  econstructor; [|by apply IH]. by rewrite lookup_insert_ne.
Qed.

Lemma lseg_delete h p q cells a :
  lseg h p q cells → a ∉ cells.*1 → lseg (delete a h) p q cells.
Proof.
  induction 1 as [|b x q' r cells Hb _ IH]; [constructor|].
  rewrite fmap_cons, not_elem_of_cons. simpl. intros [? ?].
  econstructor; [|by apply IH]. by rewrite lookup_delete_ne.
Qed.

Lemma lseg_allocated h p q cells a :
  lseg h p q cells → a ∈ cells.*1 → is_Some (h !! a).
Proof.
  induction 1 as [|b x q' r cells Hb _ IH]; [by intros ?%elem_of_nil|].
  rewrite fmap_cons, elem_of_cons. simpl. intros [->|?]; eauto.
Qed.

Lemma lseg_head h p cells : lseg h p None cells → p = head cells.*1.
Proof. by inversion 1. Qed.

Lemma lseg_length h p q cells :
  lseg h p q cells → NoDup cells.*1 → (length cells ≤ map_size h)%nat.
Proof.
  intros Hl Hn. change (map_size h) with (base.size h).
  rewrite <- (length_fmap fst), <- (size_dom h).
  rewrite <- (size_list_to_set (C:=gset positive) _ Hn).
  apply subseteq_size. intros a Ha%elem_of_list_to_set.
  apply elem_of_dom. by eapply lseg_allocated.
Qed.

Lemma fresh_not_in s cells :
  represents s cells → fresh (dom (store s)) ∉ cells.*1.
Proof.
  intros (Hl & _) Hin. apply (is_fresh (dom (store s))).
  apply elem_of_dom. by eapply lseg_allocated.
Qed.

(** *** The last node *)

Lemma last_cells cells t :
  last cells.*1 = Some t → ∃ cells' y, cells = cells' ++ [(t, y)].
Proof.
  intros Hlast. destruct cells as [|c cells _] using rev_ind; [done|].
  rewrite fmap_snoc, last_snoc in Hlast. destruct c as [b y].
  injection Hlast as ->. eauto.
Qed.

Lemma last_cells_None cells : last cells.*1 = None → cells = [].
Proof. intros H%last_None. by destruct cells. Qed.

(** The segment before the last node, and the last node. *)
Lemma lseg_last h p r cells t y :
  lseg h p r (cells ++ [(t, y)]) →
  lseg h p (Some t) cells ∧ h !! t = Some (mkNode y r).
Proof.
  intros (q & H1 & H2)%lseg_app_inv. inversion H2; subst.
  inversion H7; subst. done.
Qed.

Ltac run :=
  unfold push_front, push_back, pop_front, front, back,
    mbind, M_bind, mret, M_ret, get_head, get_tail, get_size,
    set_head, set_tail, set_size, incr_size, decr_size, empty, load, set_next,
    new_node, delete_node, throw, out_of_fuel; csimpl.

(** *** The modifiers on a well-formed list *)

Lemma push_front_spec v s cells :
  represents s cells →
  ∃ a s', push_front v s = Ok () s' ∧ represents s' ((a, v) :: cells).
Proof.
  intros Hr. pose proof (fresh_not_in s cells Hr) as Hfresh.
  destruct Hr as (Hl & Hn & Ht & Hs). destruct s as [h hd tl sz]. csimpl in *.
  remember (fresh (dom h)) as a eqn:Ea. exists a. run.
  rewrite <- Ea, lookup_insert_eq. csimpl. rewrite insert_insert_eq.
  assert (lseg (<[a:=mkNode v hd]> h) (Some a) None ((a, v) :: cells)) as Hl'.
  { econstructor; [apply lookup_insert_eq|]. by apply lseg_insert. }
  assert (NoDup ((a, v) :: cells).*1) as Hn' by by constructor.
  destruct tl as [t|]; csimpl; eexists; (split; [done|]).
  - split_and!; try done; csimpl.
    + by rewrite last_cons, <- Ht.
    + lia.
  - symmetry in Ht. apply last_cells_None in Ht as ->.
    split_and!; try done. csimpl in *. lia.
Qed.

Lemma push_back_spec v s cells :
  represents s cells →
  ∃ a s', push_back v s = Ok () s' ∧ represents s' (cells ++ [(a, v)]).
Proof.
  intros Hr. pose proof (fresh_not_in s cells Hr) as Hfresh.
  destruct Hr as (Hl & Hn & Ht & Hs). destruct s as [h hd tl sz]. csimpl in *.
  remember (fresh (dom h)) as a eqn:Ea. exists a. run. rewrite <- Ea.
  assert (NoDup (cells ++ [(a, v)]).*1) as Hn'.
  { rewrite fmap_snoc. apply NoDup_app. split_and!; [done| |apply NoDup_singleton].
    intros b Hb ->%list_elem_of_singleton. done. }
  destruct tl as [t|]; csimpl.
  - symmetry in Ht. apply last_cells in Ht as (cells' & y & ->).
    apply lseg_last in Hl as [Hl Hlast].
    rewrite fmap_snoc, not_elem_of_app in Hfresh. destruct Hfresh as [Ha Hat].
    csimpl in Hat. rewrite list_elem_of_singleton in Hat.
    rewrite fmap_snoc in Hn. apply NoDup_app in Hn as (_ & Hdisj & _).
    rewrite lookup_insert_ne, Hlast by done. csimpl.
    eexists. split; [done|]. split_and!; csimpl; try done.
    + eapply lseg_snoc; [eapply lseg_snoc|].
      * apply lseg_insert; [by apply lseg_insert|].
        intros Hin. eapply Hdisj; [done|]. by apply list_elem_of_singleton.
      * apply lookup_insert_eq.
      * rewrite lookup_insert_ne by done. apply lookup_insert_eq.
    + by rewrite fmap_snoc, last_snoc.
    + rewrite !length_app in *. csimpl in *. lia.
  - symmetry in Ht. apply last_cells_None in Ht as ->. inversion Hl; subst.
    eexists. split; [done|]. split_and!; csimpl; try done.
    econstructor; [apply lookup_insert_eq|constructor].
Qed.

Lemma pop_front_spec s a x cells :
  represents s ((a, x) :: cells) →
  ∃ s', pop_front s = Ok () s' ∧ represents s' cells.
Proof.
  intros (Hl & Hn & Ht & Hs). destruct s as [h hd tl sz]. csimpl in *. subst sz.
  inversion Hl as [|? ? q ? ? Ha Hl']; subst. apply NoDup_cons in Hn as [Hna Hn].
  run. rewrite Ha. csimpl. rewrite Ha. csimpl.
  replace (N.of_nat (S (length cells)) - 1)%N with (N.of_nat (length cells)) by lia.
  assert (lseg (delete a h) q None cells) as Hd by by apply lseg_delete.
  case_bool_decide as Hz; eexists; (split; [done|]); split_and!; csimpl; try done.
  - destruct cells; [done|csimpl in *; lia].
  - destruct cells as [|c cells]; [csimpl in *; lia|]. by rewrite fmap_cons, last_cons_cons.
Qed.

Lemma pop_front_empty s :
  size_ s = 0%N → pop_front s = Throw (out_of_range "List is empty") s.
Proof. intros Hs. run. by rewrite Hs. Qed.

Lemma lseg_start h q r cells :
  lseg h q r cells → (q = r ∧ cells = []) ∨ ∃ a, q = Some a ∧ a ∈ cells.*1.
Proof. destruct 1; [by left|right]. eexists. split; [done|]. csimpl. set_solver. Qed.

Lemma find_prev_unfold fuel curr :
  find_prev (T:=T) fuel curr
  = (n ← load curr;
     t ← get_tail;
     if decide (next n ≠ t) then
       match fuel return M (T:=T) ptr with
       | O => out_of_fuel
       | S fuel => find_prev fuel (next n)
       end
     else mret curr).
Proof. by destruct fuel. Qed.

Lemma find_prev_spec s p cells b z t : ∀ fuel,
  lseg (store s) p (Some b) cells →
  store s !! b = Some (mkNode z (Some t)) → tail_ s = Some t →
  t ∉ cells.*1 → t ≠ b → (length cells ≤ fuel)%nat →
  find_prev fuel p s = Ok (Some b) s.
Proof.
  intros fuel Hl. remember (Some b) as q eqn:Eq. revert fuel.
  induction Hl as [|a x q' r cells Ha Hl IH]; intros fuel Hb Ht Hnin Hne Hfuel;
    rewrite find_prev_unfold; subst.
  - run. rewrite Hb. csimpl. rewrite Ht. by rewrite decide_False by naive_solver.
  - run. rewrite Ha. csimpl. rewrite Ht.
    rewrite fmap_cons, not_elem_of_cons in Hnin. destruct Hnin as [Hta Hnin].
    rewrite decide_True.
    + destruct fuel as [|fuel]; [csimpl in *; lia|]. apply IH; try done.
      csimpl in *. lia.
    + destruct (lseg_start _ _ _ _ Hl) as [[-> _]|(a' & -> & Ha')]; [congruence|].
      intros [= ->]. done.
Qed.

Lemma pop_back_spec s cells t y :
  represents s (cells ++ [(t, y)]) →
  ∃ s', pop_back s = Ok () s' ∧ represents s' cells.
Proof.
  intros (Hl & Hn & Ht & Hs). destruct s as [h hd tl sz]. csimpl in *.
  rewrite fmap_snoc, last_snoc in Ht. rewrite length_app in Hs. csimpl in *.
  pose proof (lseg_length _ _ _ _ Hl Hn) as Hfuel.
  apply lseg_last in Hl as [Hl Hlast].
  rewrite fmap_snoc in Hn. apply NoDup_app in Hn as (Hn & Hdisj & _).
  assert (t ∉ cells.*1) as Hnt.
  { intros Hin. eapply Hdisj; [done|]. by apply list_elem_of_singleton. }
  subst tl sz. unfold pop_back. run.
  rewrite bool_decide_eq_false_2 by lia.
  destruct cells as [|[b z] cells _] using rev_ind.
  - inversion Hl; subst. csimpl. rewrite Hlast. csimpl.
    eexists. split; [done|]. split_and!; csimpl; try done. constructor.
  - rewrite length_app in *. csimpl in *. rewrite decide_False by lia.
    apply lseg_last in Hl as [Hl Hb].
    rewrite fmap_snoc in Hnt, Hn. apply not_elem_of_app in Hnt as [Hnt Hnb].
    rewrite list_elem_of_singleton in Hnb.
    apply NoDup_app in Hn as (Hn & Hdisj' & _).
    assert (b ∉ cells.*1) as Hnb'.
    { intros Hin. eapply Hdisj'; [done|]. by apply list_elem_of_singleton. }
    rewrite (find_prev_spec _ _ cells b z t); csimpl; try done;
      [|rewrite length_app in Hfuel; csimpl in Hfuel; lia].
    rewrite Hlast. csimpl. rewrite lookup_delete_ne, Hb by done. csimpl.
    eexists. split; [done|]. split_and!; csimpl.
    + eapply lseg_snoc; [|apply lookup_insert_eq].
      apply lseg_insert; [|done]. by apply lseg_delete.
    + rewrite fmap_snoc. apply NoDup_app. split_and!; [done| |apply NoDup_singleton].
      intros c Hc ->%list_elem_of_singleton. done.
    + by rewrite fmap_snoc, last_snoc.
    + rewrite decide_False by lia. rewrite length_app. csimpl. lia.
Qed.

Lemma pop_back_empty s :
  size_ s = 0%N → pop_back s = Throw (out_of_range "List is empty") s.
Proof. intros Hs. unfold pop_back. run. by rewrite Hs. Qed.

Lemma advance_spec s p q cells :
  lseg (store s) p q cells → advance (length cells) p s = Ok q s.
Proof.
  induction 1 as [|a x q' r cells Ha _ IH]; [done|].
  csimpl. run. by rewrite Ha.
Qed.

Lemma insert_unfold index v s :
  insert index v s
  = if decide (size_ s < index)%N then Throw (out_of_range "Index out of bounds") s
    else if decide (index = 0%N) then push_front v s
    else if decide (index = size_ s) then push_back v s
    else (h ← get_head;
          curr ← advance (N.to_nat (index - 1)) h;
          newNode ← new_node v;
          n ← load curr;
          set_next newNode (next n);;
          set_next curr newNode;;
          incr_size) s.
Proof.
  unfold insert, mbind at 1, M_bind at 1, get_size, throw.
  by repeat case_decide.
Qed.

(** A list cut before position [i > 0]: the node before the cut, what
    precedes it and what follows the cut. *)
Lemma cells_cut cells (i : nat) :
  (0 < i ≤ length cells)%nat →
  ∃ b z, cells = take (i - 1) cells ++ (b, z) :: drop i cells
         ∧ take i cells = take (i - 1) cells ++ [(b, z)]
         ∧ length (take (i - 1) cells) = (i - 1)%nat.
Proof.
  intros Hi. destruct (lookup_lt_is_Some_2 cells (i - 1)) as [[b z] Hb]; [lia|].
  exists b, z. replace i with (S (i - 1)) at 2 3 by lia. split_and!.
  - by rewrite take_drop_middle.
  - by apply take_S_r.
  - rewrite length_take. lia.
Qed.

Lemma insert_spec index v s cells :
  represents s cells → (index ≤ size_ s)%N →
  ∃ a s', insert index v s = Ok () s'
          ∧ represents s'
              (take (N.to_nat index) cells ++ (a, v) :: drop (N.to_nat index) cells).
Proof.
  intros Hr Hi. rewrite insert_unfold. rewrite decide_False by lia.
  pose proof Hr as (Hl & Hn & Ht & Hs).
  case_decide as H0; [|case_decide as Hend].
  - subst index. by apply push_front_spec.
  - subst index. rewrite Hs, Nat2N.id, take_ge, drop_ge by lia.
    by apply push_back_spec.
  - pose proof (fresh_not_in s cells Hr) as Hfresh.
    destruct (cells_cut cells (N.to_nat index)) as (b & z & Ecells & Etake & Elen);
      [lia|].
    rewrite Etake.
    set (c1 := take (N.to_nat index - 1) cells) in *.
    assert (drop (N.to_nat index) cells ≠ []) as Hc2.
    { intros E%(f_equal length). rewrite length_drop in E. csimpl in E. lia. }
    set (c2 := drop (N.to_nat index) cells) in *. clearbody c1 c2. subst cells.
    clear Etake. destruct s as [h hd tl sz]. csimpl in *.
    apply lseg_app_inv in Hl as (q & Hl1 & Hl2).
    inversion Hl2 as [|? ? q2 ? ? Hb Hl3]; subst.
    rewrite fmap_app, fmap_cons in Hn, Hfresh. csimpl in *.
    pose proof Hn as Hn0.
    apply NoDup_app in Hn as (Hn1 & Hdisj & Hn2).
    apply NoDup_cons in Hn2 as [Hb2 Hn2].
    assert (b ∉ c1.*1) as Hb1 by (intros ?; eapply Hdisj; [done|set_solver]).
    remember (fresh (dom h)) as a eqn:Ea.
    assert (a ≠ b) as Hab by set_solver.
    assert (a ∉ c1.*1) as Ha1 by set_solver.
    assert (a ∉ c2.*1) as Ha2 by set_solver.
    exists a. unfold mbind, M_bind, get_head. csimpl.
    replace (N.to_nat (index - 1)) with (length c1) by lia.
    rewrite (advance_spec _ _ (Some b) c1) by done. run. rewrite <- Ea.
    rewrite lookup_insert_ne, Hb by done. csimpl.
    rewrite lookup_insert_eq. csimpl.
    rewrite !lookup_insert_ne, Hb by done. csimpl. rewrite insert_insert_eq.
    eexists. split; [done|]. rewrite <- app_assoc. split_and!; csimpl.
    + eapply lseg_app; [by repeat apply lseg_insert|].
      econstructor; [apply lookup_insert_eq|].
      econstructor; [by rewrite lookup_insert_ne, lookup_insert_eq|].
      by repeat apply lseg_insert.
    + rewrite fmap_app, !fmap_cons. csimpl.
      assert (c1.*1 ++ b :: a :: c2.*1 ≡ₚ a :: (c1.*1 ++ b :: c2.*1)) as ->.
      { by rewrite (Permutation_middle _ (b :: _)), (Permutation_swap a b). }
      by constructor.
    + rewrite !fmap_app, !fmap_cons, !last_app_cons. csimpl.
      destruct c2 as [|c c2]; [done|]. by rewrite !fmap_cons, !last_cons_cons.
    + rewrite !length_app in *. csimpl in *. lia.
Qed.

Lemma insert_out_of_range index v s :
  (size_ s < index)%N →
  insert index v s = Throw (out_of_range "Index out of bounds") s.
Proof. intros Hi. rewrite insert_unfold. by rewrite decide_True. Qed.

Lemma erase_unfold index s :
  erase index s
  = if decide (size_ s ≤ index)%N then Throw (out_of_range "Index out of bounds") s
    else if decide (index = 0%N) then pop_front s
    else (h ← get_head;
          curr ← advance (N.to_nat (index - 1)) h;
          n ← load curr;
          let toDelete := next n in
          d ← load toDelete;
          set_next curr (next d);;
          t ← get_tail;
          (if decide (toDelete = t) then set_tail curr else mret ());;
          delete_node toDelete;;
          decr_size) s.
Proof.
  unfold erase, mbind at 1, M_bind at 1, get_size, throw.
  by repeat case_decide.
Qed.

Lemma erase_spec index s cells :
  represents s cells → (index < size_ s)%N →
  ∃ s', erase index s = Ok () s' ∧ represents s' (delete (N.to_nat index) cells).
Proof.
  intros Hr Hi. rewrite erase_unfold. rewrite decide_False by lia.
  pose proof Hr as (Hl & Hn & Ht & Hs).
  case_decide as H0.
  - subst index. destruct cells as [|[a x] cells]; [csimpl in *; lia|].
    by eapply pop_front_spec.
  - destruct (cells_cut cells (N.to_nat index)) as (b & z & Ecells & _ & Elen);
      [lia|].
    destruct (lookup_lt_is_Some_2 cells (N.to_nat index)) as [[d w] Hd]; [lia|].
    rewrite (drop_S _ _ _ Hd) in Ecells.
    assert (delete (N.to_nat index) cells
            = take (N.to_nat index - 1) cells ++ (b, z) :: drop (S (N.to_nat index)) cells)
      as ->.
    { rewrite Ecells at 1. rewrite cons_middle, app_assoc.
      replace (N.to_nat index) with
        (length (take (N.to_nat index - 1) cells ++ [(b, z)])) at 1
        by (rewrite length_app; csimpl; lia).
      by rewrite delete_middle, <- app_assoc. }
    set (c1 := take (N.to_nat index - 1) cells) in *.
    set (c2 := drop (S (N.to_nat index)) cells) in *. clearbody c1 c2. subst cells.
    clear Hd. destruct s as [h hd tl sz]. csimpl in *.
    apply lseg_app_inv in Hl as (q & Hl1 & Hl2).
    inversion Hl2 as [|? ? q2 ? ? Hb Hl3]; subst.
    inversion Hl3 as [|? ? q3 ? ? Hd Hl4]; subst.
    rewrite fmap_app, !fmap_cons in Hn. csimpl in *.
    apply NoDup_app in Hn as (Hn1 & Hdisj & Hn2).
    apply NoDup_cons in Hn2 as [Hb2 Hn2]. apply NoDup_cons in Hn2 as [Hd2 Hn2].
    assert (b ∉ c1.*1) as Hb1 by (intros ?; eapply Hdisj; [done|set_solver]).
    assert (d ∉ c1.*1) as Hd1 by (intros ?; eapply Hdisj; [done|set_solver]).
    assert (b ≠ d) as Hbd by set_solver.
    assert (b ∉ c2.*1) as Hb3 by set_solver.
    unfold mbind, M_bind, get_head. csimpl.
    replace (N.to_nat (index - 1)) with (length c1) by lia.
    rewrite (advance_spec _ _ (Some b) c1) by done. run.
    rewrite Hb. csimpl. rewrite Hd. csimpl. rewrite Hb. csimpl.
    assert (lseg (delete d (<[b:=mkNode z q3]> h)) hd None (c1 ++ (b, z) :: c2)) as Hl'.
    { eapply lseg_app; [apply lseg_delete; [apply lseg_insert|]; done|].
      econstructor; [by rewrite lookup_delete_ne, lookup_insert_eq|].
      apply lseg_delete; [apply lseg_insert|]; done. }
    assert (NoDup (c1 ++ (b, z) :: c2).*1) as Hn'.
    { rewrite fmap_app, fmap_cons. apply NoDup_app. split_and!; [done| |].
      - intros c Hc Hin. eapply Hdisj; [done|]. set_solver.
      - constructor; [set_solver|done]. }
    rewrite !fmap_app, !fmap_cons, !last_app_cons. csimpl.
    destruct c2 as [|c c2].
    + csimpl. rewrite decide_True by done. csimpl.
      rewrite lookup_insert_ne, Hd by done. csimpl.
      eexists. split; [done|]. split_and!; csimpl; try done.
      * by rewrite fmap_app, fmap_cons, last_app_cons.
      * rewrite !length_app. csimpl. case_decide; lia.
    + rewrite fmap_cons, last_cons_cons. rewrite decide_False.
      2: { intros E. symmetry in E. apply last_Some_elem_of in E.
           rewrite fmap_cons in Hd2. done. }
      csimpl. rewrite lookup_insert_ne, Hd by done. csimpl.
      eexists. split; [done|]. split_and!; csimpl; try done.
      * by rewrite fmap_app, !fmap_cons, last_app_cons, last_cons_cons.
      * rewrite !length_app. csimpl. case_decide; lia.
Qed.

Lemma erase_out_of_range index s :
  (size_ s ≤ index)%N →
  erase index s = Throw (out_of_range "Index out of bounds") s.
Proof. intros Hi. rewrite erase_unfold. by rewrite decide_True. Qed.

Lemma clear_loop_unfold fuel :
  clear_loop (T:=T) fuel
  = (e ← empty;
     if e : bool then mret () else
     match fuel return M (T:=T) () with
     | O => out_of_fuel
     | S fuel => pop_front;; clear_loop fuel
     end).
Proof. by destruct fuel. Qed.

Lemma clear_spec s cells :
  represents s cells → ∃ s', clear s = Ok () s' ∧ represents s' [].
Proof.
  intros Hr. unfold clear, mbind, M_bind, get_size. csimpl.
  pose proof Hr as (_ & _ & _ & ->). rewrite Nat2N.id.
  revert s Hr. induction cells as [|[a x] cells IH]; intros s Hr;
    rewrite clear_loop_unfold; pose proof Hr as (_ & _ & _ & Hs);
    unfold mbind, M_bind, empty, get_size; csimpl; rewrite Hs; csimpl.
  - eauto.
  - destruct (pop_front_spec _ _ _ _ Hr) as (s' & -> & Hr'). by apply IH.
Qed.

Lemma reverse_loop_spec todo : ∀ fuel h hd tl sz prev curr done,
  lseg h prev None done → lseg h curr None todo →
  NoDup (done ++ todo).*1 → (length todo ≤ fuel)%nat →
  ∃ h' prev',
    reverse_loop fuel prev curr (mk h hd tl sz) = Ok prev' (mk h' hd tl sz)
    ∧ lseg h' prev' None (list.reverse todo ++ done).
Proof.
  induction todo as [|[a x] todo IH];
    intros fuel h hd tl sz prev curr done Hd Ht Hn Hfuel.
  - inversion Ht; subst. exists h, prev. by destruct fuel.
  - inversion Ht as [|? ? q ? ? Ha Ht']; subst.
    destruct fuel as [|fuel]; [csimpl in *; lia|]. csimpl. run.
    rewrite Ha. csimpl. rewrite Ha. csimpl.
    rewrite fmap_app, fmap_cons in Hn. csimpl in Hn.
    assert (c1 := Hn). rewrite <- Permutation_middle in c1.
    apply NoDup_cons in c1 as [Hna c1]. rewrite not_elem_of_app in Hna.
    destruct Hna as [Had Hat].
    destruct (IH fuel (<[a:=mkNode x prev]> h) hd tl sz (Some a) q ((a, x) :: done))
      as (h' & prev' & -> & Hl').
    + econstructor; [apply lookup_insert_eq|]. by apply lseg_insert.
    + by apply lseg_insert.
    + rewrite fmap_app, fmap_cons. csimpl. constructor; [|done].
      by rewrite not_elem_of_app.
    + csimpl in *. lia.
    + exists h', prev'. split; [done|].
      by rewrite reverse_cons, <- app_assoc.
Qed.

Lemma reverse_spec s cells :
  represents s cells → ∃ s', reverse s = Ok () s' ∧ represents s' (list.reverse cells).
Proof.
  intros (Hl & Hn & Ht & Hs). destruct s as [h hd tl sz]. csimpl in *.
  unfold reverse. run.
  destruct (reverse_loop_spec cells (map_size h) h hd hd sz None hd [])
    as (h' & prev' & -> & Hl'); [constructor|done|done|by eapply lseg_length|].
  rewrite app_nil_r in Hl'. csimpl. eexists. split; [done|].
  split_and!; csimpl; try done.
  - by rewrite fmap_reverse, reverse_Permutation.
  - rewrite fmap_reverse, last_reverse. by eapply lseg_head.
  - by rewrite length_reverse.
Qed.

(** *** Element access on a well-formed list *)

Lemma front_spec s a x cells :
  represents s ((a, x) :: cells) → front s = Ok x s.
Proof.
  intros (Hl & _ & _ & Hs). destruct s as [h hd tl sz]. csimpl in *.
  inversion Hl as [|? ? q ? ? Ha]; subst. run. by rewrite Ha.
Qed.

Lemma front_empty s :
  size_ s = 0%N → front s = Throw (out_of_range "List is empty") s.
Proof. intros Hs. run. by rewrite Hs. Qed.

Lemma back_spec s t y cells :
  represents s (cells ++ [(t, y)]) → back s = Ok y s.
Proof.
  intros (Hl & _ & Ht & Hs). destruct s as [h hd tl sz]. csimpl in *.
  apply lseg_last in Hl as [_ Hlast].
  rewrite fmap_snoc, last_snoc in Ht. rewrite length_app in Hs. subst.
  run. rewrite bool_decide_eq_false_2 by (csimpl; lia). csimpl. by rewrite Hlast.
Qed.

Lemma back_empty s :
  size_ s = 0%N → back s = Throw (out_of_range "List is empty") s.
Proof. intros Hs. run. by rewrite Hs. Qed.

Lemma at_spec index s a x cells :
  represents s cells → cells !! N.to_nat index = Some (a, x) →
  at_ index s = Ok x s.
Proof.
  intros (Hl & _ & _ & Hs) Hx. pose proof (lookup_lt_Some _ _ _ Hx) as Hlt.
  destruct s as [h hd tl sz]. csimpl in *.
  rewrite <- (take_drop_middle _ _ _ Hx) in Hl.
  apply lseg_app_inv in Hl as (q & Hl1 & Hl2).
  inversion Hl2 as [|? ? q2 ? ? Ha]; subst.
  unfold at_. run. rewrite decide_False by lia. csimpl.
  replace (N.to_nat index) with (length (take (N.to_nat index) cells)) at 1
    by (rewrite length_take; lia).
  rewrite (advance_spec _ _ (Some a) _) by done. csimpl. by rewrite Ha.
Qed.

Lemma at_out_of_range index s :
  (size_ s ≤ index)%N →
  at_ index s = Throw (out_of_range "Index out of bounds") s.
Proof. intros Hi. unfold at_. run. by rewrite decide_True. Qed.

Lemma iterate_spec s p cells : ∀ fuel,
  lseg (store s) p None cells → (length cells ≤ fuel)%nat →
  iterate fuel p s = Ok cells.*2 s.
Proof.
  intros fuel Hl. revert fuel. remember None as r eqn:Er.
  induction Hl as [|a x q r cells Ha _ IH]; intros fuel Hfuel; subst.
  - by destruct fuel.
  - destruct fuel as [|fuel]; [csimpl in *; lia|]. csimpl. run.
    rewrite Ha. csimpl. rewrite IH; [done..|csimpl in *; lia].
Qed.

Lemma elements_spec s cells :
  represents s cells → elements s = Ok cells.*2 s.
Proof.
  intros (Hl & Hn & _). unfold elements. run.
  apply iterate_spec; [done|]. by eapply lseg_length.
Qed.

(** *** Reachable lists *)

Lemma represents_new : represents (T:=T) LinkedList_new [].
Proof. split_and!; [constructor|constructor|done|done]. Qed.

Lemma cells_rev_case cells : cells = [] ∨ ∃ cells' t y, cells = cells' ++ [(t, y)].
Proof. destruct cells as [|[t y] cells _] using rev_ind; eauto. Qed.

(** A modifier called on a well-formed list returns with a well-formed
    list, or throws with the list as it was. *)
Lemma modifier_cases s cells op :
  represents s cells → modifier op →
  (∃ s' cells', op s = Ok () s' ∧ represents s' cells')
  ∨ (∃ e, op s = Throw e s).
Proof.
  intros Hr Hop. pose proof Hr as (_ & _ & _ & Hs).
  destruct Hop as [v|v| | |i v|i| |].
  - left. destruct (push_front_spec v s cells Hr) as (a & s' & ? & ?); eauto.
  - left. destruct (push_back_spec v s cells Hr) as (a & s' & ? & ?); eauto.
  - destruct cells as [|[a x] cells].
    + right. eexists. by apply pop_front_empty.
    + left. destruct (pop_front_spec s a x cells Hr) as (s' & ? & ?); eauto.
  - destruct (cells_rev_case cells) as [->|(cells' & t & y & ->)].
    + right. eexists. by apply pop_back_empty.
    + left. destruct (pop_back_spec s cells' t y Hr) as (s' & ? & ?); eauto.
  - destruct (decide (i ≤ size_ s)%N).
    + left. destruct (insert_spec i v s cells Hr) as (a & s' & ? & ?); eauto.
    + right. eexists. apply insert_out_of_range. lia.
  - destruct (decide (i < size_ s)%N).
    + left. destruct (erase_spec i s cells Hr) as (s' & ? & ?); eauto.
    + right. eexists. apply erase_out_of_range. lia.
  - left. destruct (clear_spec s cells Hr) as (s' & ? & ?); eauto.
  - left. destruct (reverse_spec s cells Hr) as (s' & ? & ?); eauto.
Qed.

Lemma list_well_formed s : reachable s → well_formed s.
Proof.
  induction 1 as [|s s' op _ [cells Hr] Hop Hok|s s' e op _ [cells Hr] Hop Hthrow].
  - exists []. apply represents_new.
  - destruct (modifier_cases s cells op Hr Hop) as [(s1 & cells1 & E & Hr1)|[e E]];
      rewrite E in Hok; [|done]. injection Hok as <-. by exists cells1.
  - destruct (modifier_cases s cells op Hr Hop) as [(s1 & cells1 & E & Hr1)|[e' E]];
      rewrite E in Hthrow; [done|]. injection Hthrow as _ <-. by exists cells.
Qed.

Lemma reachable_push_all (init : list T) : ∀ s s',
  reachable s → push_all init s = Ok () s' → reachable s'.
Proof.
  induction init as [|x init IH]; intros s s' Hs; csimpl.
  - by intros [= <-].
  - destruct (list_well_formed s Hs) as [cells Hr].
    destruct (push_back_spec x s cells Hr) as (a & s1 & E & _).
    unfold mbind, M_bind. rewrite E. apply IH.
    by eapply reachable_ok; [|apply mod_push_back|].
Qed.

(** *** The properties of the specification *)

(** C5: the operations of the list fail exactly when their
    preconditions are violated.  [front], [back], [pop_front] and
    [pop_back] throw on the list of size 0 and return on every other;
    [insert] throws for an index above the size and returns otherwise;
    [at] and [erase] throw for an index at or above the size and return
    otherwise. *)
Theorem failure_conditions s :
  reachable s →
  (size_ s = 0%N → front s = Throw (out_of_range "List is empty") s)
  ∧ (size_ s ≠ 0%N → ∃ x, front s = Ok x s)
  ∧ (size_ s = 0%N → back s = Throw (out_of_range "List is empty") s)
  ∧ (size_ s ≠ 0%N → ∃ x, back s = Ok x s)
  ∧ (size_ s = 0%N → pop_front s = Throw (out_of_range "List is empty") s)
  ∧ (size_ s ≠ 0%N → ∃ s', pop_front s = Ok () s')
  ∧ (size_ s = 0%N → pop_back s = Throw (out_of_range "List is empty") s)
  ∧ (size_ s ≠ 0%N → ∃ s', pop_back s = Ok () s')
  ∧ (∀ index v, (index > size_ s)%N →
       insert index v s = Throw (out_of_range "Index out of bounds") s)
  ∧ (∀ index v, ¬ (index > size_ s)%N → ∃ s', insert index v s = Ok () s')
  ∧ (∀ index, (index >= size_ s)%N →
       at_ index s = Throw (out_of_range "Index out of bounds") s)
  ∧ (∀ index, ¬ (index >= size_ s)%N → ∃ x, at_ index s = Ok x s)
  ∧ (∀ index, (index >= size_ s)%N →
       erase index s = Throw (out_of_range "Index out of bounds") s)
  ∧ (∀ index, ¬ (index >= size_ s)%N → ∃ s', erase index s = Ok () s').
Proof.
  intros [cells Hr]%list_well_formed. pose proof Hr as (_ & _ & _ & Hs).
  split_and!.
  - apply front_empty.
  - intros Hne. destruct cells as [|[a x] cells]; [done|].
    exists x. by eapply front_spec.
  - apply back_empty.
  - intros Hne. destruct (cells_rev_case cells) as [->|(cells' & t & y & ->)]; [done|].
    exists y. by eapply back_spec.
  - apply pop_front_empty.
  - intros Hne. destruct cells as [|[a x] cells]; [done|].
    destruct (pop_front_spec s a x cells Hr) as (s' & ? & _). eauto.
  - apply pop_back_empty.
  - intros Hne. destruct (cells_rev_case cells) as [->|(cells' & t & y & ->)]; [done|].
    destruct (pop_back_spec s cells' t y Hr) as (s' & ? & _). eauto.
  - intros index v Hi. apply insert_out_of_range. lia.
  - intros index v Hi.
    destruct (insert_spec index v s cells Hr) as (a & s' & ? & _); [lia|eauto].
  - intros index Hi. apply at_out_of_range. lia.
  - intros index Hi.
    destruct (lookup_lt_is_Some_2 cells (N.to_nat index)) as [[a x] Hx]; [lia|].
    exists x. by eapply at_spec.
  - intros index Hi. apply erase_out_of_range. lia.
  - intros index Hi.
    destruct (erase_spec index s cells Hr) as (s' & ? & _); [lia|eauto].
Qed.

(** C6: when a modifier throws, the list is the one it was called on:
    store, [head_], [tail_] and [size_] are untouched. *)
Theorem throw_leaves_unchanged s op e s' :
  reachable s → modifier op → op s = Throw e s' → s' = s.
Proof.
  intros [cells Hr]%list_well_formed Hop Hthrow.
  destruct (modifier_cases s cells op Hr Hop) as [(s1 & cells1 & E & _)|[e' E]];
    rewrite E in Hthrow; [done|]. by injection Hthrow as _ <-.
Qed.

(** C8: [reverse()] returns with the elements in reverse order, the
    same elements and as many; a second [reverse()] brings back the
    order, and [front()] and [back()] answer as they did at first. *)
Theorem reverse_twice s :
  reachable s →
  ∃ xs s1 s2,
    elements s = Ok xs s
    ∧ reverse s = Ok () s1
    ∧ elements s1 = Ok (list.reverse xs) s1
    ∧ list.reverse xs ≡ₚ xs
    ∧ size_ s1 = size_ s
    ∧ reverse s1 = Ok () s2
    ∧ elements s2 = Ok xs s2
    ∧ answer_of (front s2) = answer_of (front s)
    ∧ answer_of (back s2) = answer_of (back s)
    ∧ size_ s2 = size_ s.
Proof.
  intros [cells Hr]%list_well_formed.
  destruct (reverse_spec s cells Hr) as (s1 & E1 & Hr1).
  destruct (reverse_spec s1 _ Hr1) as (s2 & E2 & Hr2).
  rewrite reverse_involutive in Hr2.
  exists cells.*2, s1, s2.
  pose proof Hr as (_ & _ & _ & Hs). pose proof Hr1 as (_ & _ & _ & Hs1).
  pose proof Hr2 as (_ & _ & _ & Hs2). rewrite length_reverse in Hs1.
  split_and!; try done.
  - by apply elements_spec.
  - rewrite <- fmap_reverse. by apply elements_spec.
  - apply reverse_Permutation.
  - congruence.
  - by apply elements_spec.
  - destruct cells as [|[a x] cells].
    + by rewrite !front_empty.
    + by rewrite (front_spec s2 a x cells), (front_spec s a x cells).
  - destruct (cells_rev_case cells) as [->|(cells' & t & y & ->)].
    + by rewrite !back_empty.
    + by rewrite (back_spec s2 t y cells'), (back_spec s t y cells').
  - congruence.
Qed.

End Facts.

Example demo_list_elements :
  answer_of (elements demo_list) = Returned _ [5; 10; 20; 25; 30; 40; 50; 60].
Proof. vm_compute. reflexivity. Qed.

Lemma demo_list_reachable : reachable demo_list.
Proof.
  apply (reachable_ok
           (match (push_all [10; 20; 30; 40; 50];; push_front 5;; push_back 60)
                    LinkedList_new with Ok _ s => s | _ => LinkedList_new end)
           _ (insert 3 25)); [|constructor|by vm_compute].
  apply (reachable_ok
           (match (push_all [10; 20; 30; 40; 50];; push_front 5) LinkedList_new
            with Ok _ s => s | _ => LinkedList_new end)
           _ (push_back 60)); [|constructor|by vm_compute].
  apply (reachable_ok
           (match push_all [10; 20; 30; 40; 50] LinkedList_new
            with Ok _ s => s | _ => LinkedList_new end)
           _ (push_front 5)); [|constructor|by vm_compute].
  apply (reachable_push_all [10; 20; 30; 40; 50] LinkedList_new);
    [constructor|by vm_compute].
Qed.

Lemma failure_conditions_witness :
  (∃ x, front demo_list = Ok x demo_list)
  ∧ (∃ x, back demo_list = Ok x demo_list)
  ∧ (∃ s', pop_front demo_list = Ok () s')
  ∧ (∃ s', pop_back demo_list = Ok () s')
  ∧ insert 9 0 demo_list = Throw (out_of_range "Index out of bounds") demo_list
  ∧ (∃ s', insert 8 0 demo_list = Ok () s')
  ∧ at_ 8 demo_list = Throw (out_of_range "Index out of bounds") demo_list
  ∧ (∃ x, at_ 7 demo_list = Ok x demo_list)
  ∧ erase 8 demo_list = Throw (out_of_range "Index out of bounds") demo_list
  ∧ (∃ s', erase 7 demo_list = Ok () s')
  ∧ front (T:=Z) LinkedList_new = Throw (out_of_range "List is empty") LinkedList_new
  ∧ pop_back (T:=Z) LinkedList_new = Throw (out_of_range "List is empty") LinkedList_new.
Proof.
  destruct (failure_conditions demo_list demo_list_reachable)
    as (_ & F & _ & B & _ & PF & _ & PB & I1 & I2 & A1 & A2 & E1 & E2).
  destruct (failure_conditions (T:=Z) LinkedList_new reachable_new)
    as (F0 & _ & _ & _ & _ & _ & PB0 & _).
  split_and!.
  - apply F. by vm_compute.
  - apply B. by vm_compute.
  - apply PF. by vm_compute.
  - apply PB. by vm_compute.
  - apply I1. by vm_compute.
  - apply I2. by vm_compute.
  - apply A1. by vm_compute.
  - apply A2. by vm_compute.
  - apply E1. by vm_compute.
  - apply E2. by vm_compute.
  - apply F0. by vm_compute.
  - apply PB0. by vm_compute.
Defined.

Lemma throw_leaves_unchanged_witness :
  erase 8 demo_list = Throw (out_of_range "Index out of bounds") demo_list
  ∧ demo_list = demo_list.
Proof.
  assert (erase 8 demo_list = Throw (out_of_range "Index out of bounds") demo_list)
    as E by (by vm_compute).
  split; [done|].
  apply (throw_leaves_unchanged demo_list (erase 8)
           (out_of_range "Index out of bounds") demo_list);
    [apply demo_list_reachable|constructor|done].
Defined.

Lemma reverse_twice_witness :
  ∃ xs s1 s2,
    elements demo_list = Ok xs demo_list
    ∧ reverse demo_list = Ok () s1
    ∧ elements s1 = Ok (list.reverse xs) s1
    ∧ list.reverse xs ≡ₚ xs
    ∧ size_ s1 = size_ demo_list
    ∧ reverse s1 = Ok () s2
    ∧ elements s2 = Ok xs s2
    ∧ answer_of (front s2) = answer_of (front demo_list)
    ∧ answer_of (back s2) = answer_of (back demo_list)
    ∧ size_ s2 = size_ demo_list.
Proof. apply (reverse_twice demo_list), demo_list_reachable. Defined.

End LinkedList_facts.
(** ** Sorting.hpp: every routine sorts *)

Module sort_props.
Import sort sort_spec sort_facts.

Section Arrays.
Context {T : Type}.
Implicit Types (arr out : list T) (x y : T).

Lemma get_nat arr (k : nat) x :
  Z.of_nat (length arr) ≤ 2 ^ 64 → arr !! k = Some x →
  get arr (Z.of_nat k) = Ret x.
Proof.
  intros Hlen Hx. pose proof (lookup_lt_Some _ _ _ Hx).
  apply get_lookup; [lia|]. by rewrite Nat2Z.id.
Qed.

Lemma set_nat arr (k : nat) x :
  Z.of_nat (length arr) ≤ 2 ^ 64 → (k < length arr)%nat →
  set arr (Z.of_nat k) x = Ret (<[k := x]> arr).
Proof.
  intros Hlen Hk. rewrite set_insert by lia. by rewrite Nat2Z.id.
Qed.

Lemma swap_nat arr (a b : nat) x y :
  Z.of_nat (length arr) ≤ 2 ^ 64 → arr !! a = Some x → arr !! b = Some y →
  swap arr (Z.of_nat a) (Z.of_nat b) = Ret (<[b := x]> (<[a := y]> arr)).
Proof.
  intros Hlen Hx Hy. unfold swap.
  pose proof (lookup_lt_Some _ _ _ Hx). pose proof (lookup_lt_Some _ _ _ Hy).
  rewrite (get_nat arr a x) by done. rewrite bind_Ret.
  rewrite (get_nat arr b y) by done. rewrite bind_Ret.
  rewrite (set_nat arr a y) by done. rewrite bind_Ret.
  apply set_nat; by rewrite length_insert.
Qed.

(** A swap rearranges. *)
Lemma swap_perm arr (a b : nat) x y :
  arr !! a = Some x → arr !! b = Some y →
  <[b := x]> (<[a := y]> arr) ≡ₚ arr.
Proof.
  intros Hx Hy. pose proof (lookup_lt_Some _ _ _ Hx) as Ha.
  pose proof (lookup_lt_Some _ _ _ Hy) as Hb.
  apply Permutation_inj. split; [by rewrite !length_insert|].
  exists (λ i, if decide (i = a) then b else if decide (i = b) then a else i).
  split.
  - intros i j. repeat case_decide; congruence.
  - intros i. destruct (decide (i = b)) as [->|Hib].
    + rewrite list_lookup_insert_eq by (by rewrite length_insert).
      case_decide; congruence.
    + rewrite list_lookup_insert_ne by done.
      destruct (decide (i = a)) as [->|Hia].
      * by rewrite list_lookup_insert_eq.
      * by rewrite list_lookup_insert_ne.
Qed.

Lemma swap_lookup arr (a b : nat) x y (q : nat) :
  arr !! a = Some x → arr !! b = Some y →
  <[b := x]> (<[a := y]> arr) !! q
  = if decide (q = b) then Some x else if decide (q = a) then Some y else arr !! q.
Proof.
  intros Hx Hy. pose proof (lookup_lt_Some _ _ _ Hx) as Ha.
  pose proof (lookup_lt_Some _ _ _ Hy) as Hb.
  destruct (decide (q = b)) as [->|Hqb].
  - by rewrite list_lookup_insert_eq by (by rewrite length_insert).
  - rewrite list_lookup_insert_ne by done. destruct (decide (q = a)) as [->|Hqa].
    + by rewrite list_lookup_insert_eq.
    + by rewrite list_lookup_insert_ne.
Qed.

Lemma swap_same arr (k : nat) x :
  Z.of_nat (length arr) ≤ 2 ^ 64 → arr !! k = Some x →
  swap arr (Z.of_nat k) (Z.of_nat k) = Ret arr.
Proof.
  intros Hlen Hx. rewrite (swap_nat arr k k x x) by done.
  rewrite (list_insert_id arr k x) by done.
  by rewrite (list_insert_id arr k x) by done.
Qed.

Lemma swap_apart (l1 : list T) u (l2 : list T) v (l3 : list T) :
  Z.of_nat (length (l1 ++ u :: l2 ++ v :: l3)) ≤ 2 ^ 64 →
  swap (l1 ++ u :: l2 ++ v :: l3)
    (Z.of_nat (length l1)) (Z.of_nat (length l1 + S (length l2)))
  = Ret (l1 ++ v :: l2 ++ u :: l3).
Proof.
  intros Hlen. rewrite (swap_nat _ _ _ u v); [|done|by apply list_lookup_middle|].
  - f_equal. rewrite <- (Nat.add_0_r (length l1)) at 2. rewrite insert_app_r. simpl.
    change (l1 ++ v :: l2 ++ v :: l3) with (l1 ++ (v :: l2) ++ v :: l3).
    rewrite app_assoc.
    replace (length l1 + S (length l2))%nat with (length (l1 ++ v :: l2) + 0)%nat
      by (rewrite length_app; simpl; lia).
    rewrite insert_app_r. simpl. by rewrite <- app_assoc.
  - change (l1 ++ u :: l2 ++ v :: l3) with (l1 ++ (u :: l2) ++ v :: l3).
    rewrite app_assoc. apply list_lookup_middle. rewrite length_app. simpl. lia.
Qed.

(** Counted loops whose body does not break. *)
Lemma for_up_invariant {St : Type} (I : nat → St → Prop)
    (body : Z → St → outcome (St * bool)) : ∀ (count i : nat) (s : St),
  I i s →
  (∀ (k : nat) s, (i ≤ k < i + count)%nat → I k s →
     ∃ s', body (Z.of_nat k) s = Ret (s', false) ∧ I (S k) s') →
  ∃ s', for_up count (Z.of_nat i) body s = Ret s' ∧ I (i + count)%nat s'.
Proof.
  induction count as [|count IH]; intros i s Hi Hbody.
  - exists s. by rewrite Nat.add_0_r.
  - destruct (Hbody i s) as (s1 & E1 & Hi1); [lia|done|].
    destruct (IH (S i) s1) as (s' & E' & Hi'); [done| |].
    { intros k s2 Hk. apply Hbody. lia. }
    exists s'. rewrite for_up_S, E1, bind_Ret.
    replace (Z.of_nat i + 1) with (Z.of_nat (S i)) by lia.
    split; [done|]. by replace (i + S count)%nat with (S i + count)%nat by lia.
Qed.

(** Counted loops that may break: [Q] is what a break establishes. *)
Lemma for_up_break {St : Type} (I : nat → St → Prop) (Q : St → Prop)
    (body : Z → St → outcome (St * bool)) : ∀ (count i : nat) (s : St),
  I i s →
  (∀ (k : nat) s, (i ≤ k < i + count)%nat → I k s →
     ∃ s' stop, body (Z.of_nat k) s = Ret (s', stop)
                ∧ if stop : bool then Q s' else I (S k) s') →
  ∃ s', for_up count (Z.of_nat i) body s = Ret s'
        ∧ (Q s' ∨ I (i + count)%nat s').
Proof.
  induction count as [|count IH]; intros i s Hi Hbody.
  - exists s. rewrite Nat.add_0_r. by split; [|right].
  - destruct (Hbody i s) as (s1 & stop & E1 & Hi1); [lia|done|].
    rewrite for_up_S, E1, bind_Ret. destruct stop.
    + exists s1. by split; [|left].
    + destruct (IH (S i) s1) as (s' & E' & Hi'); [done| |].
      { intros k s2 Hk. apply Hbody. lia. }
      exists s'. replace (Z.of_nat i + 1) with (Z.of_nat (S i)) by lia.
      split; [done|]. by replace (i + S count)%nat with (S i + count)%nat by lia.
Qed.

(** [for (i = hi; i >= lo; --i)]: [I k] holds once the rounds from [k]
    on are done. *)
Lemma for_down_invariant {St : Type} (I : nat → St → Prop)
    (body : Z → St → outcome St) (lo : nat) : ∀ (count : nat) (s : St),
  I (lo + count)%nat s →
  (∀ (k : nat) s, (lo ≤ k < lo + count)%nat → I (S k) s →
     ∃ s', body (Z.of_nat k) s = Ret s' ∧ I k s') →
  ∃ s', for_down count (Z.of_nat (lo + count) - 1) body s = Ret s' ∧ I lo s'.
Proof.
  induction count as [|count IH]; intros s Hi Hbody.
  - exists s. by rewrite Nat.add_0_r in Hi.
  - destruct (Hbody (lo + count)%nat s) as (s1 & E1 & Hi1); [lia| |].
    { by replace (S (lo + count)) with (lo + S count)%nat by lia. }
    destruct (IH s1) as (s' & E' & Hi'); [done| |].
    { intros k s2 Hk. apply Hbody. lia. }
    exists s'. split; [|done]. simpl.
    replace (Z.of_nat (lo + S count) - 1) with (Z.of_nat (lo + count)) by lia.
    by rewrite E1, bind_Ret.
Qed.

Lemma parent_children (c k : nat) :
  (1 ≤ c)%nat → parent c = k ↔ (c = 2 * k + 1 ∨ c = 2 * k + 2)%nat.
Proof.
  intros Hc. unfold parent. pose proof (Nat.div_mod_eq (c - 1) 2).
  pose proof (Nat.mod_upper_bound (c - 1) 2). lia.
Qed.

Lemma parent_lt (c : nat) : (1 ≤ c)%nat → (parent c < c)%nat.
Proof.
  intros Hc. unfold parent. pose proof (Nat.div_mod_eq (c - 1) 2).
  pose proof (Nat.mod_upper_bound (c - 1) 2). lia.
Qed.

End Arrays.

Ltac solve_length :=
  repeat rewrite length_app in *; simpl in *;
  repeat rewrite length_app in *; simpl in *; lia.

Section Order.
Context {T : Type} (comp : T → T → bool).
Implicit Types (arr out pre : list T) (x y key : T).

Lemma ordered_nil : ordered comp [].
Proof. by intros i x y ?. Qed.

Lemma ordered_singleton x : ordered comp [x].
Proof. by intros [|i] x' y ? ?. Qed.

Lemma ordered_cons x arr :
  ordered comp (x :: arr)
  ↔ (∀ y, head arr = Some y → comp y x = false) ∧ ordered comp arr.
Proof.
  split.
  - intros Ho. split.
    + intros y Hy. destruct arr as [|y' arr]; [done|]. injection Hy as ->.
      by apply (Ho 0%nat x y).
    + intros i a b Ha Hb. by apply (Ho (S i) a b).
  - intros [Hh Ho] [|i] a b Ha Hb.
    + injection Ha as <-. apply Hh. by destruct arr.
    + by apply (Ho i a b).
Qed.

Lemma ordered_app arr1 arr2 :
  ordered comp (arr1 ++ arr2)
  ↔ ordered comp arr1 ∧ ordered comp arr2
    ∧ ∀ x y, last arr1 = Some x → head arr2 = Some y → comp y x = false.
Proof.
  induction arr1 as [|a arr1 IH]; simpl.
  - split; [|by intros (_ & ? & _)]. intros Ho.
    split_and!; [apply ordered_nil|done|done].
  - rewrite !ordered_cons, IH. destruct arr1 as [|b arr1]; simpl.
    + split.
      * intros (Hh & Hn & Ho & _). split_and!; [done|done|done|].
        intros x y [= <-]. apply Hh.
      * intros ((_ & Hn) & Ho & Hl).
        split_and!; [intros y Hy; by apply (Hl a y)|done|done|done].
    + split.
      * intros (Hh & H1 & H2 & Hl). by split_and!.
      * intros ((Hh & H1) & H2 & Hl). by split_and!.
Qed.

(** [isSorted] looks at every pair of neighbours from position [i] on. *)
Lemma isSorted_loop arr :
  Z.of_nat (length arr) ≤ 2 ^ 64 →
  ∀ (count i : nat), (1 ≤ i)%nat → (i + count = length arr)%nat →
  ∃ b, for_up count (Z.of_nat i) (isSorted_body comp arr) true = Ret b
       ∧ (b = true ↔ ∀ (k : nat) x y,
            (i ≤ S k)%nat → arr !! k = Some x → arr !! S k = Some y →
            comp y x = false).
Proof.
  intros Hlen. induction count as [|count IH]; intros i Hi Hc.
  - exists true. split; [done|]. split; [|done]. intros _ k x y Hk _ Hy.
    apply lookup_lt_Some in Hy. lia.
  - destruct (lookup_lt_is_Some_2 arr i) as [y Hy]; [lia|].
    destruct (lookup_lt_is_Some_2 arr (i - 1)) as [x Hx]; [lia|].
    assert (isSorted_body comp arr (Z.of_nat i) true
            = Ret (if comp y x then (false, true) else (true, false))) as Ebody.
    { unfold isSorted_body.
      rewrite (get_nat arr i y) by done. rewrite bind_Ret.
      rewrite size_t_small by lia.
      replace (Z.of_nat i - 1) with (Z.of_nat (i - 1)) by lia.
      rewrite (get_nat arr (i - 1) x) by done. rewrite bind_Ret.
      by destruct (comp y x). }
    rewrite for_up_S, Ebody, bind_Ret.
    destruct (comp y x) eqn:Exy.
    + exists false. split; [done|]. split; [done|]. intros Hall.
      rewrite (Hall (i - 1)%nat x y) in Exy; [done|lia|done|].
      by replace (S (i - 1)) with i by lia.
    + replace (Z.of_nat i + 1) with (Z.of_nat (S i)) by lia.
      destruct (IH (S i)) as (b & -> & Hb); [lia..|]. exists b. split; [done|].
      rewrite Hb. split; intros Hall k a c Hk Ha Hkc.
      * destruct (decide (S k = i)) as [<-|]; [|apply (Hall k a c); [lia|done..]].
        replace (S k - 1)%nat with k in Hx by lia. congruence.
      * apply (Hall k a c); [lia|done..].
Qed.

Lemma isSorted_ordered arr :
  Z.of_nat (length arr) ≤ 2 ^ 64 →
  ∃ b, isSorted comp arr = Ret b ∧ (b = true ↔ ordered comp arr).
Proof.
  intros Hlen. unfold isSorted, size. destruct arr as [|x0 arr].
  - exists true. split; [done|]. split; [|done]. intros _. apply ordered_nil.
  - destruct (isSorted_loop (x0 :: arr) Hlen (length arr) 1) as (b & E & Hb);
      [lia|simpl; lia|].
    exists b. replace (Z.to_nat (Z.of_nat (length (x0 :: arr)) - 1))
      with (length arr) by (simpl; lia).
    split; [done|]. rewrite Hb. unfold ordered. split; intros Hall k a c.
    + apply Hall. lia.
    + intros _. apply Hall.
Qed.

Lemma isSorted_true arr :
  Z.of_nat (length arr) ≤ 2 ^ 64 → ordered comp arr → isSorted comp arr = Ret true.
Proof.
  intros Hlen Ho. destruct (isSorted_ordered arr Hlen) as (b & E & Hb).
  apply Hb in Ho. by subst.
Qed.

(** X1: [isSorted] compares neighbours and nothing else.  It returns
    true when no element has to precede the one just before it and false
    when some element has; it reads inside the vector only. *)
Theorem isSorted_decides arr :
  Z.of_nat (length arr) < 2 ^ 64 →
  (ordered comp arr → isSorted comp arr = Ret true)
  ∧ (¬ ordered comp arr → isSorted comp arr = Ret false).
Proof.
  intros Hlen. destruct (isSorted_ordered arr) as (b & E & Hb); [lia|].
  split; intros Ho.
  - apply Hb in Ho. by subst.
  - destruct b; [|done]. destruct Ho. by apply Hb.
Qed.

(** *** Insertion sort *)

Lemma place_last pre key :
  last (place comp pre key) = Some key
  ∨ (last (place comp pre key) = last pre
     ∧ ∃ x, last pre = Some x ∧ comp key x = true).
Proof.
  destruct pre as [|x pre _] using rev_ind.
  - left. by rewrite place_nil.
  - rewrite place_snoc. destruct (comp key x) eqn:E.
    + right. rewrite !last_snoc. eauto.
    + left. change (pre ++ [x; key]) with (pre ++ [x] ++ [key]).
      rewrite app_assoc. apply last_snoc.
Qed.

Lemma place_ordered pre key :
  asymmetric comp → ordered comp pre → ordered comp (place comp pre key).
Proof.
  intros Hasym. induction pre as [|x pre IH] using rev_ind; intros Ho.
  - rewrite place_nil. apply ordered_singleton.
  - rewrite place_snoc. apply ordered_app in Ho as (Hpre & _ & Hl).
    destruct (comp key x) eqn:E.
    + apply ordered_app. split_and!; [by apply IH|apply ordered_singleton|].
      intros a b Ha [= <-].
      destruct (place_last pre key) as [E1|[E1 _]]; rewrite E1 in Ha.
      * injection Ha as <-. by apply Hasym.
      * by apply Hl.
    + change (pre ++ [x; key]) with (pre ++ [x] ++ [key]).
      rewrite app_assoc. apply ordered_app.
      split_and!; [|apply ordered_singleton|].
      * apply ordered_app. split_and!; [done|apply ordered_singleton|done].
      * intros a b Ha [= <-]. rewrite last_snoc in Ha. by injection Ha as <-.
Qed.

Lemma isort_ordered arr : asymmetric comp → ordered comp (isort comp arr).
Proof.
  intros Hasym. induction arr as [|x arr IH] using rev_ind; [apply ordered_nil|].
  rewrite isort_snoc. by apply place_ordered.
Qed.

(** X2: [insertionSort] sorts.  With a comparator that never puts two
    elements each before the other, and a vector of at most [2^31]
    elements, it returns with the elements rearranged so that none has
    to precede the one before it; [isSorted] confirms it. *)
Theorem insertionSort_sorts arr :
  asymmetric comp → Z.of_nat (length arr) ≤ 2 ^ 31 →
  ∃ out, insertionSort comp arr = Ret out
         ∧ out ≡ₚ arr ∧ ordered comp out ∧ isSorted comp out = Ret true.
Proof.
  intros Hasym Hlen. exists (isort comp arr).
  pose proof (isort_ordered arr Hasym) as Ho. split_and!; [|apply isort_perm|done|].
  - by apply insertionSort_isort.
  - apply isSorted_true; [|done]. rewrite length_isort. lia.
Qed.

(** *** Selection sort *)

Section Selection.
Context (Hspo : strict_partial_order comp).

(** The inner loop finds a position from [i] on whose element no
    element from [i] on has to precede. *)
Lemma selection_min arr (i : nat) :
  Z.of_nat (length arr) ≤ 2 ^ 64 → (i < length arr)%nat →
  ∃ m : nat,
    for_up (length arr - S i) (Z.of_nat (S i)) (selection_inner comp)
      (arr, Z.of_nat i)
    = Ret (arr, Z.of_nat m)
    ∧ (i ≤ m < length arr)%nat
    ∧ ∀ (k : nat) z w,
        (i ≤ k)%nat → arr !! k = Some z → arr !! m = Some w → comp z w = false.
Proof.
  intros Hlen Hi.
  destruct (for_up_invariant
              (λ j st, st.1 = arr ∧ ∃ m : nat,
                 st.2 = Z.of_nat m ∧ (i ≤ m < j)%nat
                 ∧ ∀ (k : nat) z w, (i ≤ k < j)%nat →
                     arr !! k = Some z → arr !! m = Some w → comp z w = false)
              (selection_inner comp) (length arr - S i) (S i) (arr, Z.of_nat i))
    as ([a mz] & E & Ha & m & Hm & Hrange & Hmin).
  - split; [done|]. exists i. split_and!; [done|lia..|]. intros k z w Hk Hz Hw.
    assert (k = i) as -> by lia. rewrite Hz in Hw. injection Hw as ->.
    apply (spo_irreflexive comp Hspo).
  - intros j [a mz] Hj (Ha & m & Hm & Hrange & Hmin). simpl in *. subst a mz.
    destruct (lookup_lt_is_Some_2 arr j) as [x Hx]; [lia|].
    destruct (lookup_lt_is_Some_2 arr m) as [y Hy]; [lia|].
    exists (arr, if comp x y then Z.of_nat j else Z.of_nat m). split.
    + unfold selection_inner. rewrite (get_nat arr j x) by done. rewrite bind_Ret.
      by rewrite (get_nat arr m y) by done.
    + split; [done|]. destruct (comp x y) eqn:Exy.
      * exists j. split_and!; [done|lia..|]. intros k z w Hk Hz Hw.
        rewrite Hx in Hw. injection Hw as <-.
        destruct (decide (k = j)) as [->|Hkj].
        { rewrite Hx in Hz. injection Hz as <-. apply (spo_irreflexive comp Hspo). }
        destruct (comp z x) eqn:Ezx; [|done].
        pose proof (spo_transitive comp Hspo z x y Ezx Exy) as Ht.
        rewrite (Hmin k z y) in Ht; [done|lia|done..].
      * exists m. split_and!; [done|lia..|]. intros k z w Hk Hz Hw.
        destruct (decide (k = j)) as [->|Hkj].
        { rewrite Hx in Hz. injection Hz as <-. rewrite Hy in Hw.
          by injection Hw as <-. }
        apply (Hmin k z w); [lia|done..].
  - simpl in *. subst a mz. exists m.
    replace (S i + (length arr - S i))%nat with (length arr) in * by lia.
    split_and!; [done|lia..|]. intros k z w Hk Hz Hw.
    apply (Hmin k z w); [|done..]. apply lookup_lt_Some in Hz. lia.
Qed.

(** Swapping the element found into position [k] extends the part in
    order. *)
Lemma selection_step arr (k m : nat) x y :
  arr !! k = Some x → arr !! m = Some y → (k ≤ m)%nat →
  (∀ (p q : nat) u v, (p < q)%nat → (p < k)%nat →
     arr !! p = Some u → arr !! q = Some v → comp v u = false) →
  (∀ (j : nat) z, (k ≤ j)%nat → arr !! j = Some z → comp z y = false) →
  ∀ (p q : nat) u v, (p < q)%nat → (p < S k)%nat →
    <[m := x]> (<[k := y]> arr) !! p = Some u →
    <[m := x]> (<[k := y]> arr) !! q = Some v → comp v u = false.
Proof.
  intros Hx Hy Hkm Hsorted Hmin p q u v Hpq Hp.
  rewrite !(swap_lookup arr k m x y) by done. intros Hu Hv.
  destruct (decide (p = k)) as [->|Hpk].
  - assert (Some y = Some u) as [= <-].
    { destruct (decide (k = m)) as [<-|]; [|done]. congruence. }
    clear Hu. destruct (decide (q = m)) as [->|Hqm].
    + injection Hv as <-. by apply (Hmin k).
    + rewrite decide_False in Hv by lia. apply (Hmin q); [lia|done].
  - rewrite (decide_False (P:=p = m)) in Hu by lia.
    destruct (decide (q = m)) as [->|Hqm]; [|destruct (decide (q = k)) as [->|Hqk]].
    + injection Hv as <-. apply (Hsorted p k); [lia..|done|done].
    + injection Hv as <-. apply (Hsorted p m); [lia..|done|done].
    + apply (Hsorted p q); [lia..|done|done].
Qed.

Lemma selection_outer_spec arr (k : nat) :
  Z.of_nat (length arr) ≤ 2 ^ 64 → (S k < length arr)%nat →
  (∀ (p q : nat) u v, (p < q)%nat → (p < k)%nat →
     arr !! p = Some u → arr !! q = Some v → comp v u = false) →
  ∃ out,
    selection_outer comp (size arr) (Z.of_nat k) arr = Ret (out, false)
    ∧ length out = length arr ∧ out ≡ₚ arr
    ∧ ∀ (p q : nat) u v, (p < q)%nat → (p < S k)%nat →
        out !! p = Some u → out !! q = Some v → comp v u = false.
Proof.
  intros Hlen Hk Hsorted. unfold selection_outer, size.
  rewrite size_t_small by lia.
  replace (Z.of_nat k + 1) with (Z.of_nat (S k)) by lia.
  replace (Z.to_nat (Z.of_nat (length arr) - Z.of_nat (S k)))
    with (length arr - S k)%nat by lia.
  destruct (selection_min arr k) as (m & -> & Hm & Hmin); [done|lia|].
  rewrite bind_Ret. cbv beta iota.
  destruct (lookup_lt_is_Some_2 arr k) as [x Hx]; [lia|].
  destruct (lookup_lt_is_Some_2 arr m) as [y Hy]; [lia|].
  exists (<[m := x]> (<[k := y]> arr)). split_and!.
  - case_decide as Hne.
    + by rewrite (swap_nat arr k m x y) by done.
    + assert (m = k) as -> by lia. do 2 f_equal.
      assert (x = y) as -> by congruence.
      rewrite (list_insert_id arr k y) by done.
      by rewrite (list_insert_id arr k y) by done.
  - by rewrite !length_insert.
  - by apply swap_perm.
  - apply selection_step; try done; [lia|]. intros j z Hj Hz. by apply (Hmin j z y).
Qed.

Lemma selectionSort_spec arr :
  arr ≠ [] → Z.of_nat (length arr) < 2 ^ 64 →
  ∃ out, selectionSort comp arr = Ret out ∧ out ≡ₚ arr ∧ ordered comp out.
Proof.
  intros Hne Hlen.
  assert (0 < length arr)%nat as Hpos by (destruct arr; [done|simpl; lia]).
  unfold selectionSort. fold (size arr).
  destruct (for_up_invariant
              (λ k a, length a = length arr ∧ a ≡ₚ arr
                 ∧ ∀ (p q : nat) u v, (p < q)%nat → (p < k)%nat →
                     a !! p = Some u → a !! q = Some v → comp v u = false)
              (selection_outer comp (size arr)) (length arr - 1) 0 arr)
    as (out & E & Hl & Hp & Hsorted).
  - split_and!; [done..|]. intros p q u v _ Hk. lia.
  - intros k a Hk (Hl & Hp & Hsorted).
    destruct (selection_outer_spec a k) as (a' & E' & Hl' & Hp' & Hs');
      [lia|lia|done|].
    exists a'. unfold size in *. rewrite <- Hl. split; [done|].
    split_and!; [congruence|by rewrite Hp'|done].
  - exists out. unfold size. rewrite size_t_small by lia.
    replace (Z.to_nat (Z.of_nat (length arr) - 1)) with (length arr - 1)%nat by lia.
    split_and!; [done..|]. intros i x y Hx Hy.
    apply (Hsorted i (S i) x y); [lia| |done..].
    apply lookup_lt_Some in Hy. lia.
Qed.

End Selection.

(** X3: [selectionSort] sorts every vector that is not empty.  With a
    comparator that is a strict partial order it returns with the
    elements rearranged so that none has to precede the one before it;
    [isSorted] confirms it.  The empty vector is left aside: there the
    bound [n - 1] of the outer loop wraps around in [size_t]. *)
Theorem selectionSort_sorts arr :
  strict_partial_order comp → arr ≠ [] → Z.of_nat (length arr) < 2 ^ 64 →
  ∃ out, selectionSort comp arr = Ret out
         ∧ out ≡ₚ arr ∧ ordered comp out ∧ isSorted comp out = Ret true.
Proof.
  intros Hspo Hne Hlen.
  destruct (selectionSort_spec Hspo arr Hne Hlen) as (out & E & Hp & Ho).
  exists out. split_and!; [done..|]. apply isSorted_true; [|done].
  rewrite Hp. lia.
Qed.

(** *** Quick sort *)

Section Quick.
Context (Hasym : asymmetric comp).

Lemma partition_body_spec pivot arr (j : nat) x (i : Z) :
  Z.of_nat (length arr) ≤ 2 ^ 31 - 1 → arr !! j = Some x →
  -1 ≤ i < Z.of_nat (length arr) →
  partition_body comp pivot (Z.of_nat j) (arr, i)
  = if comp x pivot then
      arr' ← swap arr (i + 1) (Z.of_nat j); Ret ((arr', i + 1), false)
    else Ret ((arr, i), false).
Proof.
  intros Hlen Hx Hi. unfold partition_body.
  rewrite (get_nat arr j x) by (done || lia). rewrite bind_Ret.
  destruct (comp x pivot); [|done]. by rewrite int_small by lia.
Qed.

(** The loop of [partition], with [small] and [large] the elements
    already told apart and [rest] those still to come. *)
Lemma partition_loop pre pivot post (rest : list T) : ∀ small large,
  Z.of_nat (length (pre ++ small ++ large ++ rest ++ pivot :: post)) ≤ 2 ^ 31 - 1 →
  Forall (λ x, comp x pivot = true) small →
  Forall (λ x, comp x pivot = false) large →
  ∃ small' large',
    for_up (length rest) (Z.of_nat (length pre + length small + length large))
      (partition_body comp pivot)
      (pre ++ small ++ large ++ rest ++ pivot :: post,
       Z.of_nat (length pre + length small) - 1)
    = Ret (pre ++ small' ++ large' ++ pivot :: post,
           Z.of_nat (length pre + length small') - 1)
    ∧ small' ++ large' ≡ₚ small ++ large ++ rest
    ∧ Forall (λ x, comp x pivot = true) small'
    ∧ Forall (λ x, comp x pivot = false) large'.
Proof.
  induction rest as [|x rest IH]; intros small large Hlen Hs Hl.
  - exists small, large. by rewrite app_nil_r.
  - change (length (x :: rest)) with (S (length rest)).
    assert (Z.of_nat (length (pre ++ small ++ large ++ (x :: rest) ++ pivot :: post))
            ≤ 2 ^ 64) as Hlen' by lia.
    rewrite for_up_S, (partition_body_spec _ _ _ x); [|done| |].
    2:{ rewrite !app_assoc, <- (app_assoc _ (x :: rest)). simpl.
        apply list_lookup_middle. rewrite !length_app. lia. }
    2:{ rewrite !length_app. lia. }
    destruct (comp x pivot) eqn:Ex.
    + replace (Z.of_nat (length pre + length small) - 1 + 1)
        with (Z.of_nat (length (pre ++ small))) by (rewrite length_app; lia).
      destruct large as [|l0 large].
      * simpl. rewrite Nat.add_0_r, <- length_app.
        rewrite (swap_same _ _ x); [|done|].
        2:{ rewrite app_assoc. by apply list_lookup_middle. }
        rewrite !bind_Ret. cbv beta iota.
        destruct (IH (small ++ [x]) []) as (small' & large' & E & Hp & Hs' & Hl').
        { solve_length. }
        { apply Forall_app. split; [done|]. by repeat constructor. }
        { constructor. }
        exists small', large'. split_and!; [|by rewrite Hp, <- app_assoc|done..].
        rewrite <- E. f_equal.
        -- rewrite !length_app. simpl. lia.
        -- f_equal; [by rewrite <- !app_assoc|]. rewrite !length_app. simpl. lia.
      * replace (Z.of_nat (length pre + length small + length (l0 :: large)))
          with (Z.of_nat (length (pre ++ small) + S (length large)))
          by (rewrite length_app; simpl; lia).
        replace (pre ++ small ++ (l0 :: large) ++ (x :: rest) ++ pivot :: post)
          with ((pre ++ small) ++ l0 :: large ++ x :: (rest ++ pivot :: post))
          by (by rewrite <- !app_assoc).
        rewrite swap_apart.
        2:{ rewrite <- Hlen'. f_equal. by rewrite <- !app_assoc. }
        rewrite !bind_Ret. cbv beta iota.
        destruct (IH (small ++ [x]) (large ++ [l0]))
          as (small' & large' & E & Hp & Hs' & Hl').
        { solve_length. }
        { apply Forall_app. split; [done|]. by repeat constructor. }
        { apply Forall_cons in Hl as [? ?]. apply Forall_app. split; [done|].
          by repeat constructor. }
        exists small', large'. split_and!; [| |done..].
        -- rewrite <- E. f_equal.
           ++ rewrite !length_app. simpl. lia.
           ++ f_equal; [by rewrite <- !app_assoc|]. rewrite !length_app. simpl. lia.
        -- rewrite Hp. rewrite <- !app_assoc. simpl. f_equiv.
           rewrite <- !Permutation_middle. apply Permutation_swap.
    + rewrite bind_Ret. cbv beta iota.
      destruct (IH small (large ++ [x])) as (small' & large' & E & Hp & Hs' & Hl').
      { solve_length. }
      { done. }
      { apply Forall_app. split; [done|]. by repeat constructor. }
      exists small', large'. split_and!; [|by rewrite Hp, <- !app_assoc|done..].
      rewrite <- E. f_equal.
      * rewrite !length_app. simpl. lia.
      * f_equal. by rewrite <- !app_assoc.
Qed.

Lemma partition_spec pre body pivot post :
  Z.of_nat (length (pre ++ body ++ pivot :: post)) ≤ 2 ^ 31 - 1 →
  ∃ small large,
    partition comp (pre ++ body ++ pivot :: post)
      (Z.of_nat (length pre)) (Z.of_nat (length pre + length body))
    = Ret (pre ++ small ++ pivot :: large ++ post,
           Z.of_nat (length pre + length small))
    ∧ small ++ large ≡ₚ body
    ∧ Forall (λ x, comp x pivot = true) small
    ∧ Forall (λ x, comp x pivot = false) large.
Proof.
  intros Hlen. unfold partition.
  assert (Z.of_nat (length (pre ++ body ++ pivot :: post)) ≤ 2 ^ 64) as Hlen'
    by lia.
  rewrite (get_nat _ _ pivot); [|done|].
  2:{ rewrite app_assoc. apply list_lookup_middle. by rewrite length_app. }
  destruct (partition_loop pre pivot post body [] [])
    as (small & large & E & Hp & Hs & Hl); [done|constructor|constructor|].
  assert (length small + length large = length body)%nat as Hlens.
  { by rewrite <- length_app, Hp. }
  rewrite !length_app in Hlen. simpl in Hlen.
  rewrite bind_Ret, int_small by lia. rewrite bind_Ret.
  replace (Z.to_nat (Z.of_nat (length pre + length body) - Z.of_nat (length pre)))
    with (length body) by lia.
  simpl in E. rewrite !Nat.add_0_r in E. rewrite E, bind_Ret. cbv beta iota.
  rewrite int_small by lia. rewrite bind_Ret.
  replace (Z.of_nat (length pre + length small) - 1 + 1)
    with (Z.of_nat (length (pre ++ small))) by (rewrite length_app; lia).
  destruct large as [|l0 large].
  - exists small, []. simpl in *.
    replace (length pre + length body)%nat with (length (pre ++ small))
      by (rewrite length_app; lia).
    rewrite (swap_same _ _ pivot); [|rewrite !length_app; simpl; lia|].
    2:{ rewrite app_assoc. by apply list_lookup_middle. }
    rewrite bind_Ret. split_and!; try done. do 2 f_equal. rewrite length_app. lia.
  - exists small, (large ++ [l0]).
    replace (length pre + length body)%nat
      with (length (pre ++ small) + S (length large))%nat
      by (rewrite length_app; simpl in *; lia).
    replace (pre ++ small ++ (l0 :: large) ++ pivot :: post)
      with ((pre ++ small) ++ l0 :: large ++ pivot :: post)
      by (by rewrite <- !app_assoc).
    rewrite swap_apart by (rewrite !length_app; simpl; rewrite !length_app; simpl in *; lia).
    rewrite bind_Ret. split_and!.
    + f_equal. f_equal; [by rewrite <- !app_assoc|]. rewrite length_app. lia.
    + rewrite <- Hp. f_equiv. rewrite (Permutation_app_comm large [l0]). done.
    + done.
    + apply Forall_cons in Hl as [? ?]. apply Forall_app. split; [done|].
      by repeat constructor.
Qed.

Lemma quickSort_rec_unfold fuel arr low high :
  quickSort_rec comp fuel arr low high
  = if decide (low < high) then
      match fuel with
      | O => Exhausted
      | S fuel =>
          '(arr, pi) ← partition comp arr low high;
          p1 ← int (pi - 1);
          arr ← quickSort_rec comp fuel arr low p1;
          p2 ← int (pi + 1);
          quickSort_rec comp fuel arr p2 high
      end
    else Ret arr.
Proof. by destruct fuel. Qed.

(** [detail::quickSort] on the range that holds [mid] puts [mid] in
    order and leaves [pre] and [post] alone. *)
Lemma quickSort_rec_spec fuel : ∀ pre mid post,
  (length mid ≤ S fuel)%nat →
  Z.of_nat (length (pre ++ mid ++ post)) ≤ 2 ^ 31 - 1 →
  ∃ mid',
    quickSort_rec comp fuel (pre ++ mid ++ post)
      (Z.of_nat (length pre)) (Z.of_nat (length pre) + Z.of_nat (length mid) - 1)
    = Ret (pre ++ mid' ++ post)
    ∧ mid' ≡ₚ mid ∧ ordered comp mid'.
Proof.
  induction fuel as [|fuel IH]; intros pre mid post Hfuel Hlen;
    rewrite quickSort_rec_unfold.
  - exists mid. rewrite decide_False by lia. split_and!; [done..|].
    destruct mid as [|x [|y mid]]; [apply ordered_nil|apply ordered_singleton|].
    simpl in Hfuel. lia.
  - destruct (decide (length mid ≤ 1)%nat) as [Hshort|Hlong].
    { exists mid. rewrite decide_False by lia. split_and!; [done..|].
      destruct mid as [|x [|y mid]]; [apply ordered_nil|apply ordered_singleton|].
      simpl in Hshort. lia. }
    rewrite decide_True by lia.
    destruct mid as [|pivot body _] using rev_ind; [simpl in Hlong; lia|].
    rewrite length_app in Hfuel, Hlong. simpl in Hfuel, Hlong.
    rewrite <- (app_assoc body [pivot] post). simpl.
    rewrite <- (app_assoc body [pivot] post) in Hlen. simpl in Hlen.
    replace (Z.of_nat (length pre) + Z.of_nat (length (body ++ [pivot])) - 1)
      with (Z.of_nat (length pre + length body))
      by (rewrite length_app; simpl; lia).
    destruct (partition_spec pre body pivot post Hlen)
      as (small & large & -> & Hp & Hs & Hl).
    assert (length small + length large = length body)%nat as Hlens.
    { by rewrite <- length_app, Hp. }
    rewrite bind_Ret. cbv beta iota.
    rewrite !length_app in Hlen. simpl in Hlen.
    rewrite (int_small (Z.of_nat (length pre + length small) - 1)) by lia.
    rewrite (int_small (Z.of_nat (length pre + length small) + 1)) by lia.
    rewrite bind_Ret.
    destruct (IH pre small (pivot :: large ++ post)) as (small' & E1 & Hp1 & Ho1).
    { lia. }
    { solve_length. }
    replace (Z.of_nat (length pre + length small) - 1)
      with (Z.of_nat (length pre) + Z.of_nat (length small) - 1) by lia.
    rewrite E1, !bind_Ret.
    assert (length small' = length small) as Hls by (by rewrite Hp1).
    destruct (IH (pre ++ small' ++ [pivot]) large post) as (large' & E2 & Hp2 & Ho2).
    { lia. }
    { solve_length. }
    replace (pre ++ small' ++ pivot :: large ++ post)
      with ((pre ++ small' ++ [pivot]) ++ large ++ post)
      by (by rewrite <- !app_assoc).
    replace (Z.of_nat (length pre + length small) + 1)
      with (Z.of_nat (length (pre ++ small' ++ [pivot])))
      by (rewrite !length_app; simpl; lia).
    replace (Z.of_nat (length pre + length body))
      with (Z.of_nat (length (pre ++ small' ++ [pivot]))
            + Z.of_nat (length large) - 1)
      by (rewrite !length_app; simpl; lia).
    rewrite E2. exists (small' ++ pivot :: large'). split_and!.
    + by rewrite <- !app_assoc.
    + rewrite Hp1, Hp2, <- Hp. by rewrite <- Permutation_middle, Permutation_cons_append, <- app_assoc.
    + apply ordered_app. split_and!; [done| |].
      * apply ordered_cons. split; [|done]. intros y Hy.
        apply head_Some_elem_of in Hy. rewrite Hp2 in Hy.
        by apply (proj1 (Forall_forall _ _) Hl).
      * intros x y Hx [= <-]. apply Hasym.
        apply last_Some_elem_of in Hx. rewrite Hp1 in Hx.
        by apply (proj1 (Forall_forall _ _) Hs).
Qed.

Lemma quickSort_spec arr :
  Z.of_nat (length arr) ≤ 2 ^ 31 - 1 →
  ∃ out, quickSort comp arr = Ret out ∧ out ≡ₚ arr ∧ ordered comp out.
Proof.
  intros Hlen. unfold quickSort, size. case_decide as Hsz.
  - rewrite to_int_small by lia. rewrite int_small by lia. rewrite bind_Ret.
    destruct (quickSort_rec_spec (Z.to_nat (Z.of_nat (length arr) - 1)) [] arr [])
      as (out & E & Hp & Ho); [lia|by rewrite app_nil_r|].
    simpl in E. rewrite !app_nil_r in E. exists out. split; [|done].
    rewrite <- E. f_equal; lia.
  - exists arr. split_and!; [done..|].
    destruct arr as [|x [|y arr]]; [apply ordered_nil|apply ordered_singleton|].
    simpl in Hsz. lia.
Qed.

End Quick.

(** X4: [quickSort] sorts.  With a comparator that never puts two
    elements each before the other, and a vector of at most [2^31 - 1]
    elements, it returns with the elements rearranged so that none has
    to precede the one before it; [isSorted] confirms it. *)
Theorem quickSort_sorts arr :
  asymmetric comp → Z.of_nat (length arr) ≤ 2 ^ 31 - 1 →
  ∃ out, quickSort comp arr = Ret out
         ∧ out ≡ₚ arr ∧ ordered comp out ∧ isSorted comp out = Ret true.
Proof.
  intros Hasym Hlen.
  destruct (quickSort_spec Hasym arr Hlen) as (out & E & Hp & Ho).
  exists out. split_and!; [done..|]. apply isSorted_true; [|done].
  rewrite Hp. lia.
Qed.

(** *** Merge sort *)

Section Merge.
Context (T0 : T) (Hasym : asymmetric comp).

Lemma merge_both_unfold fuel arr temp mid right i j k :
  merge_both comp fuel arr temp mid right i j k
  = if decide (i ≤ mid ∧ j ≤ right) then
      match fuel with
      | O => Exhausted
      | S fuel =>
          x ← get arr i;
          y ← get arr j;
          if comp x y then
            i' ← int (i + 1);
            temp ← set temp k x;
            k ← int (k + 1);
            merge_both comp fuel arr temp mid right i' j k
          else
            j' ← int (j + 1);
            temp ← set temp k y;
            k ← int (k + 1);
            merge_both comp fuel arr temp mid right i j' k
      end
    else Ret (temp, i, j, k).
Proof. by destruct fuel. Qed.

Lemma merge_rest_unfold fuel (arr temp : list T) hi i k :
  merge_rest fuel arr temp hi i k
  = if decide (i ≤ hi) then
      match fuel with
      | O => Exhausted
      | S fuel =>
          x ← get arr i;
          i ← int (i + 1);
          temp ← set temp k x;
          k ← int (k + 1);
          merge_rest fuel arr temp hi i k
      end
    else Ret (temp, k).
Proof. by destruct fuel. Qed.

(** Writing the next element of the output over the first unused slot
    of [temp]. *)
Lemma set_next out (junk : list T) x :
  junk ≠ [] → Z.of_nat (length out + length junk) ≤ 2 ^ 64 →
  set (out ++ junk) (Z.of_nat (length out)) x = Ret ((out ++ [x]) ++ tail junk).
Proof.
  intros Hj Hlen. destruct junk as [|j0 junk]; [done|].
  rewrite set_nat by solve_length.
  rewrite <- (Nat.add_0_r (length out)), insert_app_r. simpl.
  by rewrite <- app_assoc.
Qed.

(** The first loop of [merge]: elements are taken from the two runs
    [Lr] and [Rr] until one of them is used up, and what is written
    stays in order. *)
Lemma merge_both_spec arr (mid right : Z) : ∀ fuel Lr Rr out junk (i j : nat),
  Z.of_nat (length arr) ≤ 2 ^ 31 - 1 →
  Z.of_nat (length out + length junk) ≤ 2 ^ 31 - 1 →
  (∀ (t : nat) x, Lr !! t = Some x → arr !! (i + t)%nat = Some x) →
  (∀ (t : nat) x, Rr !! t = Some x → arr !! (j + t)%nat = Some x) →
  mid = Z.of_nat (i + length Lr) - 1 → right = Z.of_nat (j + length Rr) - 1 →
  (length Lr + length Rr ≤ length junk)%nat →
  (length Lr + length Rr ≤ fuel)%nat →
  ordered comp out → ordered comp Lr → ordered comp Rr →
  (∀ z x, last out = Some z → head Lr = Some x → comp x z = false) →
  (∀ z y, last out = Some z → head Rr = Some y → comp y z = false) →
  ∃ out' junk' Lr' Rr' (i' j' : nat),
    merge_both comp fuel arr (out ++ junk) mid right
      (Z.of_nat i) (Z.of_nat j) (Z.of_nat (length out))
    = Ret (out' ++ junk', Z.of_nat i', Z.of_nat j', Z.of_nat (length out'))
    ∧ (Lr' = [] ∨ Rr' = [])
    ∧ (∀ (t : nat) x, Lr' !! t = Some x → arr !! (i' + t)%nat = Some x)
    ∧ (∀ (t : nat) x, Rr' !! t = Some x → arr !! (j' + t)%nat = Some x)
    ∧ mid = Z.of_nat (i' + length Lr') - 1
    ∧ right = Z.of_nat (j' + length Rr') - 1
    ∧ (length Lr' + length Rr' ≤ length junk')%nat
    ∧ (length out' + length junk' = length out + length junk)%nat
    ∧ ordered comp out' ∧ ordered comp Lr' ∧ ordered comp Rr'
    ∧ (∀ z x, last out' = Some z → head Lr' = Some x → comp x z = false)
    ∧ (∀ z y, last out' = Some z → head Rr' = Some y → comp y z = false)
    ∧ out' ++ Lr' ++ Rr' ≡ₚ out ++ Lr ++ Rr.
Proof.
  induction fuel as [|fuel IH];
    intros Lr Rr out junk i j Hlen Htemp HL HR Hmid Hright Hjunk Hfuel Ho HoL HoR HbL HbR;
    rewrite merge_both_unfold.
  - destruct Lr; [|simpl in Hfuel; lia]. rewrite decide_False by (simpl in *; lia).
    exists out, junk, [], Rr, i, j. split_and!; try done. by left.
  - destruct Lr as [|x Lr].
    { rewrite decide_False by (simpl in *; lia).
      exists out, junk, [], Rr, i, j. split_and!; try done. by left. }
    destruct Rr as [|y Rr].
    { rewrite decide_False by (simpl in *; lia).
      exists out, junk, (x :: Lr), [], i, j. split_and!; try done. by right. }
    rewrite decide_True by (simpl in *; lia).
    simpl in Hjunk, Hfuel, Hmid, Hright.
    pose proof (HL 0%nat x eq_refl) as Hx. rewrite Nat.add_0_r in Hx.
    pose proof (HR 0%nat y eq_refl) as Hy. rewrite Nat.add_0_r in Hy.
    pose proof (lookup_lt_Some _ _ _ Hx) as Hi.
    pose proof (lookup_lt_Some _ _ _ Hy) as Hj.
    rewrite (get_nat arr i x) by (done || lia). rewrite bind_Ret.
    rewrite (get_nat arr j y) by (done || lia). rewrite bind_Ret.
    assert (junk ≠ []) as Hne by (destruct junk; [simpl in *; lia|done]).
    assert (length (tail junk) = length junk - 1)%nat as Htail
      by (destruct junk; simpl; lia).
    apply ordered_cons in HoL as [HhL HoL]. apply ordered_cons in HoR as [HhR HoR].
    destruct (comp x y) eqn:Exy.
    + rewrite (int_small (Z.of_nat i + 1)) by lia. rewrite bind_Ret.
      rewrite set_next by (done || lia). rewrite bind_Ret.
      rewrite (int_small (Z.of_nat (length out) + 1)) by lia. rewrite bind_Ret.
      destruct (IH Lr (y :: Rr) (out ++ [x]) (tail junk) (S i) j)
        as (out' & junk' & Lr' & Rr' & i' & j' & E & Hend & HL' & HR' & Hmid'
            & Hright' & Hjunk' & Hlens & Ho' & HoL' & HoR' & HbL' & HbR' & Hp).
      { done. }
      { solve_length. }
      { intros t z Hz. replace (S i + t)%nat with (i + S t)%nat by lia.
        by apply HL. }
      { done. }
      { lia. }
      { simpl. lia. }
      { simpl. lia. }
      { simpl. lia. }
      { apply ordered_app. split_and!; [done|apply ordered_singleton|].
        intros z x' Hz [= <-]. by apply (HbL z x). }
      { done. }
      { by apply ordered_cons. }
      { intros z x'. rewrite last_snoc. intros [= <-]. apply HhL. }
      { intros z y'. rewrite last_snoc. intros [= <-] [= <-]. by apply Hasym. }
      exists out', junk', Lr', Rr', i', j'.
      replace (Z.of_nat i + 1) with (Z.of_nat (S i)) by lia.
      replace (Z.of_nat (length out) + 1) with (Z.of_nat (length (out ++ [x])))
        by solve_length.
      split_and!; try done.
      * solve_length.
      * rewrite Hp, <- !app_assoc. done.
    + rewrite (int_small (Z.of_nat j + 1)) by lia. rewrite bind_Ret.
      rewrite set_next by (done || lia). rewrite bind_Ret.
      rewrite (int_small (Z.of_nat (length out) + 1)) by lia. rewrite bind_Ret.
      destruct (IH (x :: Lr) Rr (out ++ [y]) (tail junk) i (S j))
        as (out' & junk' & Lr' & Rr' & i' & j' & E & Hend & HL' & HR' & Hmid'
            & Hright' & Hjunk' & Hlens & Ho' & HoL' & HoR' & HbL' & HbR' & Hp).
      { done. }
      { solve_length. }
      { done. }
      { intros t z Hz. replace (S j + t)%nat with (j + S t)%nat by lia.
        by apply HR. }
      { simpl. lia. }
      { lia. }
      { simpl. lia. }
      { simpl. lia. }
      { apply ordered_app. split_and!; [done|apply ordered_singleton|].
        intros z y' Hz [= <-]. by apply (HbR z y). }
      { by apply ordered_cons. }
      { done. }
      { intros z x'. rewrite last_snoc. by intros [= <-] [= <-]. }
      { intros z y'. rewrite last_snoc. intros [= <-]. apply HhR. }
      exists out', junk', Lr', Rr', i', j'.
      replace (Z.of_nat j + 1) with (Z.of_nat (S j)) by lia.
      replace (Z.of_nat (length out) + 1) with (Z.of_nat (length (out ++ [y])))
        by solve_length.
      split_and!; try done.
      * solve_length.
      * rewrite Hp, <- !app_assoc. simpl. f_equiv.
        apply (Permutation_middle (x :: Lr) Rr y).
Qed.

(** The second and third loop of [merge] copy what is left of a run. *)
Lemma merge_rest_spec arr (l : list T) : ∀ fuel out junk (i : nat) hi,
  Z.of_nat (length arr) ≤ 2 ^ 31 - 1 →
  Z.of_nat (length out + length junk) ≤ 2 ^ 31 - 1 →
  (∀ (t : nat) x, l !! t = Some x → arr !! (i + t)%nat = Some x) →
  hi = Z.of_nat (i + length l) - 1 →
  (length l ≤ length junk)%nat → (length l ≤ fuel)%nat →
  merge_rest fuel arr (out ++ junk) hi (Z.of_nat i) (Z.of_nat (length out))
  = Ret ((out ++ l) ++ drop (length l) junk, Z.of_nat (length (out ++ l))).
Proof.
  induction l as [|x l IH]; intros fuel out junk i hi Hlen Htemp Hl Hhi Hjunk Hfuel;
    rewrite merge_rest_unfold.
  - rewrite decide_False by (simpl in *; lia). by rewrite app_nil_r.
  - rewrite decide_True by (simpl in *; lia).
    destruct fuel as [|fuel]; [simpl in *; lia|].
    simpl in Hjunk, Hfuel, Hhi.
    pose proof (Hl 0%nat x eq_refl) as Hx. rewrite Nat.add_0_r in Hx.
    pose proof (lookup_lt_Some _ _ _ Hx) as Hi.
    rewrite (get_nat arr i x) by (done || lia). rewrite bind_Ret.
    assert (junk ≠ []) as Hne by (destruct junk; [simpl in *; lia|done]).
    rewrite (int_small (Z.of_nat i + 1)) by lia. rewrite bind_Ret.
    rewrite set_next by (done || lia). rewrite bind_Ret.
    rewrite (int_small (Z.of_nat (length out) + 1)) by lia. rewrite bind_Ret.
    replace (Z.of_nat i + 1) with (Z.of_nat (S i)) by lia.
    replace (Z.of_nat (length out) + 1) with (Z.of_nat (length (out ++ [x])))
      by solve_length.
    destruct junk as [|j0 junk]; [done|]. simpl tail.
    rewrite (IH fuel (out ++ [x]) junk (S i) hi).
    + by rewrite <- !app_assoc.
    + done.
    + solve_length.
    + intros t z Hz. replace (S i + t)%nat with (i + S t)%nat by lia.
      by apply Hl.
    + lia.
    + simpl in *. lia.
    + lia.
Qed.

(** The copy back of the merged run. *)
Lemma merge_back_spec pre old post (M temp : list T) :
  Z.of_nat (length (pre ++ old ++ post)) ≤ 2 ^ 31 - 1 →
  Z.of_nat (length temp) ≤ 2 ^ 31 - 1 →
  length old = length M →
  (∀ (p : nat) x, M !! p = Some x → temp !! p = Some x) →
  for_up (length M) 0 (merge_back temp (Z.of_nat (length pre))) (pre ++ old ++ post)
  = Ret (pre ++ M ++ post).
Proof.
  intros Hlen Htemp Hold Hread.
  destruct (for_up_invariant
              (λ p a, a = pre ++ take p M ++ drop p old ++ post)
              (merge_back temp (Z.of_nat (length pre))) (length M) 0
              (pre ++ old ++ post)) as (out & E & ->).
  - done.
  - intros p a Hp ->.
    destruct (lookup_lt_is_Some_2 M p) as [x Hx]; [lia|].
    destruct (lookup_lt_is_Some_2 old p) as [o Ho]; [lia|].
    exists (pre ++ take (S p) M ++ drop (S p) old ++ post). split; [|done].
    unfold merge_back. rewrite (get_nat temp p x) by (auto || lia). rewrite bind_Ret.
    rewrite int_small by solve_length. rewrite bind_Ret.
    replace (Z.of_nat (length pre) + Z.of_nat p) with (Z.of_nat (length pre + p)) by lia.
    rewrite set_nat.
    + rewrite bind_Ret. do 2 f_equal. rewrite insert_app_r.
      rewrite (drop_S _ _ _ Ho), (take_S_r _ _ _ Hx).
      replace p with (length (take p M) + 0)%nat at 1
        by (rewrite length_take; lia).
      rewrite insert_app_r. simpl. by rewrite <- app_assoc.
    + rewrite !length_app, length_take, length_drop. solve_length.
    + rewrite !length_app, length_take, length_drop. solve_length.
  - change (Z.of_nat 0) with 0 in E. rewrite E. f_equal. simpl.
    rewrite take_ge by lia. by rewrite drop_ge by lia.
Qed.

Lemma lookup_run (pre run post : list T) (t : nat) x :
  run !! t = Some x → (pre ++ run ++ post) !! (length pre + t)%nat = Some x.
Proof.
  intros Hx. rewrite lookup_app_r by lia.
  replace (length pre + t - length pre)%nat with t by lia.
  by apply lookup_app_l_Some.
Qed.

(** [merge] of two runs in order, next to one another, leaves one run in
    order. *)
Lemma merge_spec pre L R post :
  Z.of_nat (length (pre ++ L ++ R ++ post)) ≤ 2 ^ 31 - 1 →
  L ≠ [] → ordered comp L → ordered comp R →
  ∃ M,
    merge T0 comp (pre ++ L ++ R ++ post) (Z.of_nat (length pre))
      (Z.of_nat (length pre + length L) - 1)
      (Z.of_nat (length pre + length L + length R) - 1)
    = Ret (pre ++ M ++ post)
    ∧ M ≡ₚ L ++ R ∧ ordered comp M.
Proof.
  intros Hlen HLne HoL HoR. unfold merge.
  assert (0 < length L)%nat as HLpos by (destruct L; [done|simpl; lia]).
  pose proof Hlen as Hlen0. rewrite !length_app in Hlen.
  rewrite (int_small (Z.of_nat (length pre + length L + length R) - 1
                      - Z.of_nat (length pre))) by lia.
  rewrite bind_Ret.
  rewrite (int_small (Z.of_nat (length pre + length L + length R) - 1
                      - Z.of_nat (length pre) + 1)) by lia.
  rewrite bind_Ret.
  rewrite size_t_small by lia. rewrite length_replicate.
  replace (Z.to_nat (Z.of_nat (length pre + length L + length R) - 1
                     - Z.of_nat (length pre) + 1))
    with (length L + length R)%nat by lia.
  rewrite (int_small (Z.of_nat (length pre + length L) - 1 + 1)) by lia.
  rewrite bind_Ret.
  replace (Z.of_nat (length pre + length L) - 1 + 1)
    with (Z.of_nat (length pre + length L)) by lia.
  set (arr := pre ++ L ++ R ++ post) in *.
  destruct (merge_both_spec arr (Z.of_nat (length pre + length L) - 1)
              (Z.of_nat (length pre + length L + length R) - 1)
              (length L + length R) L R [] (replicate (length L + length R) T0)
              (length pre) (length pre + length L))
    as (out1 & junk1 & L1 & R1 & i1 & j1 & E1 & Hend & HL1 & HR1 & Hmid1
        & Hright1 & Hjunk1 & Hlens1 & Ho1 & HoL1 & HoR1 & HbL1 & HbR1 & Hp1).
  { done. }
  { simpl. rewrite length_replicate. lia. }
  { intros t x Hx. by apply lookup_run. }
  { intros t x Hx. unfold arr. rewrite (app_assoc pre L), <- length_app.
    by apply lookup_run. }
  { done. }
  { done. }
  { by rewrite length_replicate. }
  { done. }
  { apply ordered_nil. }
  { done. }
  { done. }
  { done. }
  { done. }
  simpl in E1. change (Z.of_nat 0) with 0 in E1.
  rewrite E1, bind_Ret. cbv beta iota.
  simpl in Hlens1. rewrite length_replicate in Hlens1.
  rewrite (merge_rest_spec arr L1); try done; [|lia..].
  rewrite bind_Ret. cbv beta iota.
  rewrite (merge_rest_spec arr R1); try done.
  2:{ rewrite length_app, length_drop. lia. }
  2:{ rewrite length_drop. lia. }
  2:{ lia. }
  rewrite bind_Ret. cbv beta iota. rewrite Nat2Z.id.
  assert (length ((out1 ++ L1) ++ R1) = (length L + length R)%nat) as HM.
  { rewrite <- app_assoc, Hp1. simpl. by rewrite length_app. }
  assert (ordered comp ((out1 ++ L1) ++ R1)) as HoM.
  { apply ordered_app. split_and!; [|done|].
    - apply ordered_app. split_and!; [done..|]. apply HbL1.
    - intros z y Hz Hy. destruct Hend as [->| ->]; [|done].
      rewrite app_nil_r in Hz. by apply (HbR1 z y). }
  unfold arr.
  replace (pre ++ L ++ R ++ post) with (pre ++ (L ++ R) ++ post)
    by (by rewrite <- app_assoc).
  rewrite (merge_back_spec pre (L ++ R) post ((out1 ++ L1) ++ R1)).
  - exists ((out1 ++ L1) ++ R1). split_and!; [done| |done].
    by rewrite <- app_assoc, Hp1.
  - by rewrite <- app_assoc.
  - rewrite !length_app, !length_drop. rewrite !length_app in HM. lia.
  - by rewrite length_app.
  - intros p x Hx. by apply lookup_app_l_Some.
Qed.

Lemma mergeSort_rec_unfold fuel arr left right :
  mergeSort_rec T0 comp fuel arr left right
  = if decide (left < right) then
      match fuel with
      | O => Exhausted
      | S fuel =>
          d ← int (right - left);
          mid ← int (left + d `quot` 2);
          arr ← mergeSort_rec T0 comp fuel arr left mid;
          m1 ← int (mid + 1);
          arr ← mergeSort_rec T0 comp fuel arr m1 right;
          merge T0 comp arr left mid right
      end
    else Ret arr.
Proof. by destruct fuel. Qed.

(** [detail::mergeSort] on the range that holds [mid] puts [mid] in
    order and leaves [pre] and [post] alone. *)
Lemma mergeSort_rec_spec fuel : ∀ pre mid post,
  (length mid ≤ S fuel)%nat →
  Z.of_nat (length (pre ++ mid ++ post)) ≤ 2 ^ 31 - 1 →
  ∃ M,
    mergeSort_rec T0 comp fuel (pre ++ mid ++ post)
      (Z.of_nat (length pre)) (Z.of_nat (length pre) + Z.of_nat (length mid) - 1)
    = Ret (pre ++ M ++ post)
    ∧ M ≡ₚ mid ∧ ordered comp M.
Proof.
  induction fuel as [|fuel IH]; intros pre mid post Hfuel Hlen;
    rewrite mergeSort_rec_unfold.
  - exists mid. rewrite decide_False by lia. split_and!; [done..|].
    destruct mid as [|x [|y mid]]; [apply ordered_nil|apply ordered_singleton|].
    simpl in Hfuel. lia.
  - destruct (decide (length mid ≤ 1)%nat) as [Hshort|Hlong].
    { exists mid. rewrite decide_False by lia. split_and!; [done..|].
      destruct mid as [|x [|y mid]]; [apply ordered_nil|apply ordered_singleton|].
      simpl in Hshort. lia. }
    rewrite decide_True by lia.
    pose proof Hlen as Hlen0. rewrite !length_app in Hlen.
    set (d := Z.of_nat (length mid) - 1).
    replace (Z.of_nat (length pre) + Z.of_nat (length mid) - 1 - Z.of_nat (length pre))
      with d by lia.
    assert (0 ≤ d `quot` 2 < d) as Hq.
    { split; [apply Z.quot_pos; lia|apply Z.quot_lt; lia]. }
    set (h := Z.to_nat (d `quot` 2 + 1)).
    assert (0 < h < length mid)%nat as Hh by lia.
    rewrite <- (take_drop h mid). set (L := take h mid). set (R := drop h mid).
    assert (length L = h) as HL by (unfold L; rewrite length_take; lia).
    assert (length R = length mid - h)%nat as HR by (unfold R; by rewrite length_drop).
    rewrite int_small by lia. rewrite bind_Ret.
    rewrite int_small by lia. rewrite bind_Ret.
    replace (Z.of_nat (length pre) + d `quot` 2)
      with (Z.of_nat (length pre) + Z.of_nat (length L) - 1) by lia.
    rewrite <- (app_assoc L R post).
    destruct (IH pre L (R ++ post)) as (L' & E1 & Hp1 & Ho1).
    { lia. }
    { rewrite !length_app. lia. }
    rewrite E1, bind_Ret.
    assert (length L' = length L) as HL' by (by rewrite Hp1).
    rewrite int_small by lia. rewrite bind_Ret.
    replace (pre ++ L' ++ R ++ post) with ((pre ++ L') ++ R ++ post)
      by (by rewrite <- app_assoc).
    replace (Z.of_nat (length pre) + Z.of_nat (length L) - 1 + 1)
      with (Z.of_nat (length (pre ++ L'))) by (rewrite length_app; lia).
    replace (Z.of_nat (length pre) + Z.of_nat (length (L ++ R)) - 1)
      with (Z.of_nat (length (pre ++ L')) + Z.of_nat (length R) - 1)
      by (rewrite !length_app; lia).
    destruct (IH (pre ++ L') R post) as (R' & E2 & Hp2 & Ho2).
    { lia. }
    { rewrite !length_app. lia. }
    rewrite E2, bind_Ret.
    assert (length R' = length R) as HR' by (by rewrite Hp2).
    replace ((pre ++ L') ++ R' ++ post) with (pre ++ L' ++ R' ++ post)
      by (by rewrite <- app_assoc).
    destruct (merge_spec pre L' R' post) as (M & EM & HpM & HoM); try done.
    { rewrite !length_app. lia. }
    { destruct L'; [simpl in *; lia|done]. }
    exists M. split_and!; [|by rewrite HpM, Hp1, Hp2|done].
    rewrite <- EM. f_equal; rewrite ?length_app; lia.
Qed.

Lemma mergeSort_spec arr :
  Z.of_nat (length arr) ≤ 2 ^ 31 - 1 →
  ∃ out, mergeSort T0 comp arr = Ret out ∧ out ≡ₚ arr ∧ ordered comp out.
Proof.
  intros Hlen. unfold mergeSort, size. case_decide as Hsz.
  - rewrite to_int_small by lia. rewrite int_small by lia. rewrite bind_Ret.
    destruct (mergeSort_rec_spec (Z.to_nat (Z.of_nat (length arr) - 1)) [] arr [])
      as (out & E & Hp & Ho); [lia|by rewrite app_nil_r|].
    simpl in E. rewrite !app_nil_r in E. exists out. split; [|done].
    rewrite <- E. f_equal; lia.
  - exists arr. split_and!; [done..|].
    destruct arr as [|x [|y arr]]; [apply ordered_nil|apply ordered_singleton|].
    simpl in Hsz. lia.
Qed.

End Merge.

(** X5: [mergeSort] sorts.  With a comparator that never puts two
    elements each before the other, and a vector of at most [2^31 - 1]
    elements, it returns with the elements rearranged so that none has
    to precede the one before it; [isSorted] confirms it.  The value the
    scratch vector is filled with does not matter. *)
Theorem mergeSort_sorts (T0 : T) arr :
  asymmetric comp → Z.of_nat (length arr) ≤ 2 ^ 31 - 1 →
  ∃ out, mergeSort T0 comp arr = Ret out
         ∧ out ≡ₚ arr ∧ ordered comp out ∧ isSorted comp out = Ret true.
Proof.
  intros Hasym Hlen.
  destruct (mergeSort_spec T0 Hasym arr Hlen) as (out & E & Hp & Ho).
  exists out. split_and!; [done..|]. apply isSorted_true; [|done].
  rewrite Hp. lia.
Qed.

(** *** Strict weak orders *)

Section WeakOrder.
Context (Hswo : strict_weak_order comp).

Lemma swo_asymmetric : asymmetric comp.
Proof.
  intros a b Hab. destruct (comp b a) eqn:Hba; [|done].
  pose proof (swo_transitive comp Hswo a b a Hab Hba) as Haa.
  by rewrite (swo_irreflexive comp Hswo) in Haa.
Qed.

(** "Need not precede" is transitive. *)
Lemma swo_negative a b c :
  comp a b = false → comp b c = false → comp a c = false.
Proof.
  intros Hab Hbc. destruct (comp a c) eqn:Hac; [|done].
  destruct (comp b a) eqn:Hba.
  { pose proof (swo_transitive comp Hswo b a c Hba Hac). congruence. }
  destruct (comp c b) eqn:Hcb.
  { pose proof (swo_transitive comp Hswo a c b Hac Hcb). congruence. }
  destruct (swo_equivalent comp Hswo a b c) as [Hf _]; [done..|]. congruence.
Qed.

(** *** Bubble sort *)

(** One pass over the first [w] elements: they are rearranged among
    themselves, one that none of them has to follow ends up last, and
    when nothing was swapped they were in order already. *)
Lemma bubble_pass a (w : nat) :
  Z.of_nat (length a) ≤ 2 ^ 64 → (1 ≤ w ≤ length a)%nat →
  ∃ b sw,
    for_up (w - 1) 0 (bubble_inner comp) (a, false) = Ret (b, sw)
    ∧ length b = length a ∧ b ≡ₚ a
    ∧ (∀ q : nat, (w ≤ q)%nat → b !! q = a !! q)
    ∧ (∀ (p : nat) x, (p < w)%nat → b !! p = Some x →
         ∃ p' : nat, (p' < w)%nat ∧ a !! p' = Some x)
    ∧ (∀ (p : nat) x y, (p < w)%nat → b !! p = Some x →
         b !! (w - 1)%nat = Some y → comp y x = false)
    ∧ (sw = false →
         b = a ∧ ∀ (p : nat) x y, (S p < w)%nat →
                   a !! p = Some x → a !! S p = Some y → comp y x = false).
Proof.
  intros Hlen Hw.
  destruct (for_up_invariant
              (λ j st,
                 length st.1 = length a ∧ st.1 ≡ₚ a
                 ∧ (∀ q : nat, (w ≤ q)%nat → st.1 !! q = a !! q)
                 ∧ (∀ (p : nat) x, (p < w)%nat → st.1 !! p = Some x →
                      ∃ p' : nat, (p' < w)%nat ∧ a !! p' = Some x)
                 ∧ (∀ (p : nat) x y, (p ≤ j)%nat → st.1 !! p = Some x →
                      st.1 !! j = Some y → comp y x = false)
                 ∧ (st.2 = false →
                      st.1 = a ∧ ∀ (p : nat) x y, (S p ≤ j)%nat →
                        a !! p = Some x → a !! S p = Some y → comp y x = false))
              (bubble_inner comp) (w - 1) 0 (a, false))
    as ([b sw] & E & Hl & Hp & Hout & Hin & Hmax & Hsw).
  - simpl. split_and!; try done.
    + intros p x Hp Hx. eauto.
    + intros p x y Hp Hx Hy. assert (p = 0)%nat as -> by lia.
      rewrite Hx in Hy. injection Hy as <-. apply (swo_irreflexive comp Hswo).
    + intros _. split; [done|]. intros p x y Hp. lia.
  - intros j [b sw] Hj (Hl & Hp & Hout & Hin & Hmax & Hsw). simpl in *.
    destruct (lookup_lt_is_Some_2 b j) as [y Hy]; [lia|].
    destruct (lookup_lt_is_Some_2 b (S j)) as [x Hx]; [lia|].
    exists (if comp x y then (<[S j := y]> (<[j := x]> b), true) else (b, sw)).
    split.
    + unfold bubble_inner. rewrite size_t_small by lia.
      replace (Z.of_nat j + 1) with (Z.of_nat (S j)) by lia.
      rewrite (get_nat b (S j) x) by (done || lia). rewrite bind_Ret.
      rewrite (get_nat b j y) by (done || lia). rewrite bind_Ret.
      destruct (comp x y); [|done].
      by rewrite (swap_nat b j (S j) y x) by (done || lia).
    + destruct (comp x y) eqn:Exy; simpl.
      * split_and!.
        -- by rewrite !length_insert.
        -- by rewrite (swap_perm b j (S j) y x).
        -- intros q Hq. rewrite (swap_lookup b j (S j) y x) by done.
           rewrite !decide_False by lia. by apply Hout.
        -- intros p z Hpw. rewrite (swap_lookup b j (S j) y x) by done.
           repeat case_decide; intros Hz.
           ++ injection Hz as <-. apply (Hin j); [lia|done].
           ++ injection Hz as <-. apply (Hin (S j)); [lia|done].
           ++ by apply (Hin p).
        -- intros p z y' Hpj. rewrite !(swap_lookup b j (S j) y x) by done.
           rewrite (decide_True (P:=S j = S j)) by done. intros Hz [= <-].
           destruct (decide (p = S j)) as [->|Hp1]; [|destruct (decide (p = j)) as [->|Hp2]].
           ++ injection Hz as <-. apply (swo_irreflexive comp Hswo).
           ++ injection Hz as <-. by apply swo_asymmetric.
           ++ apply (Hmax p z y); [lia|done..].
        -- done.
      * split_and!; try done.
        -- intros p z x' Hpj Hz Hx'. rewrite Hx in Hx'. injection Hx' as <-.
           destruct (decide (p = S j)) as [->|Hp1].
           { rewrite Hx in Hz. injection Hz as <-. apply (swo_irreflexive comp Hswo). }
           apply (swo_negative x y z); [done|]. apply (Hmax p z y); [lia|done..].
        -- intros Hf. destruct (Hsw Hf) as [-> Hadj]. split; [done|].
           intros p z z' Hpj Hz Hz'. destruct (decide (p = j)) as [->|Hp1].
           { rewrite Hy in Hz. rewrite Hx in Hz'. congruence. }
           apply (Hadj p z z'); [lia|done..].
  - simpl in *. exists b, sw. replace (0 + (w - 1))%nat with (w - 1)%nat in * by lia.
    split_and!; try done.
    + intros p x y Hpw. apply Hmax. lia.
    + intros Hf. destruct (Hsw Hf) as [-> Hadj]. split; [done|].
      intros p x y Hpw. apply Hadj. lia.
Qed.

Lemma bubble_outer_spec arr a (k : nat) :
  Z.of_nat (length arr) < 2 ^ 64 → (S k < length arr)%nat →
  length a = length arr → a ≡ₚ arr →
  (∀ (p q : nat) x y, (p < q)%nat → (length arr - k ≤ q)%nat →
     a !! p = Some x → a !! q = Some y → comp y x = false) →
  ∃ b stop,
    bubble_outer comp (size arr) (Z.of_nat k) a = Ret (b, stop)
    ∧ if stop : bool then b ≡ₚ arr ∧ ordered comp b
      else length b = length arr ∧ b ≡ₚ arr
           ∧ ∀ (p q : nat) x y, (p < q)%nat → (length arr - S k ≤ q)%nat →
               b !! p = Some x → b !! q = Some y → comp y x = false.
Proof.
  intros Hlen Hk Hl Hp Hdom. unfold bubble_outer, size.
  rewrite (size_t_small (Z.of_nat (length arr) - Z.of_nat k)) by lia.
  rewrite size_t_small by lia.
  replace (Z.to_nat (Z.of_nat (length arr) - Z.of_nat k - 1))
    with (length arr - k - 1)%nat by lia.
  destruct (bubble_pass a (length arr - k))
    as (b & sw & E & Hl' & Hp' & Hout & Hin & Hmax & Hsw); [lia..|].
  rewrite E, bind_Ret. cbv beta iota.
  exists b, (negb sw). split; [done|]. destruct sw; simpl.
  - split_and!; [congruence|by rewrite Hp'|].
    intros p q x y Hpq Hq Hx Hy.
    destruct (decide (length arr - k ≤ q)%nat) as [Hq'|Hq'].
    + rewrite Hout in Hy by done.
      destruct (decide (length arr - k ≤ p)%nat) as [Hp1|Hp1].
      * rewrite Hout in Hx by done. by apply (Hdom p q).
      * destruct (Hin p x) as (p' & Hp2 & Hx'); [lia|done|].
        apply (Hdom p' q); [lia|done..].
    + assert (q = length arr - k - 1)%nat as -> by lia.
      apply (Hmax p x y); [lia|done..].
  - destruct (Hsw eq_refl) as [-> Hadj]. split; [done|].
    intros i x y Hx Hy. destruct (decide (length arr - k ≤ S i)%nat).
    + apply (Hdom i (S i)); [lia|done..].
    + apply (Hadj i); [lia|done..].
Qed.

Lemma bubbleSort_spec arr :
  arr ≠ [] → Z.of_nat (length arr) < 2 ^ 64 →
  ∃ out, bubbleSort comp arr = Ret out ∧ out ≡ₚ arr ∧ ordered comp out.
Proof.
  intros Hne Hlen. assert (0 < length arr)%nat as Hpos by (destruct arr; simpl; [done|lia]).
  unfold bubbleSort. fold (size arr).
  destruct (for_up_break
              (λ k a, length a = length arr ∧ a ≡ₚ arr
                 ∧ ∀ (p q : nat) x y, (p < q)%nat → (length arr - k ≤ q)%nat →
                     a !! p = Some x → a !! q = Some y → comp y x = false)
              (λ a, a ≡ₚ arr ∧ ordered comp a)
              (bubble_outer comp (size arr)) (length arr - 1) 0 arr)
    as (out & E & Hout).
  - split_and!; [done..|]. intros p q x y _ Hq _ Hy.
    apply lookup_lt_Some in Hy. lia.
  - intros k a Hk (Hl & Hp & Hdom).
    destruct (bubble_outer_spec arr a k) as (b & stop & E & Hb); [lia|lia|done..|].
    by exists b, stop.
  - exists out. unfold size. rewrite size_t_small by lia.
    replace (Z.to_nat (Z.of_nat (length arr) - 1)) with (length arr - 1)%nat by lia.
    split; [done|]. destruct Hout as [[Hp Ho]|(Hl & Hp & Hdom)]; [done|].
    split; [done|]. intros i x y Hx Hy.
    apply (Hdom i (S i)); [lia| |done..]. lia.
Qed.

(** *** Heap sort *)

Lemma heapify_unfold fuel arr n i :
  heapify comp fuel arr n i
  = (i2 ← int (2 * i);
     left ← int (i2 + 1);
     right ← int (i2 + 2);
     largest ← heapify_child comp arr n i left;
     largest ← heapify_child comp arr n largest right;
     if decide (largest ≠ i) then
       match fuel with
       | O => Exhausted
       | S fuel =>
           arr ← swap arr i largest;
           heapify comp fuel arr n largest
       end
     else Ret arr).
Proof. by destruct fuel. Qed.

Lemma heapify_child_spec a (n l c : nat) x :
  Z.of_nat (length a) ≤ 2 ^ 64 → (n ≤ length a)%nat → a !! l = Some x →
  ∃ m : nat,
    heapify_child comp a (Z.of_nat n) (Z.of_nat l) (Z.of_nat c) = Ret (Z.of_nat m)
    ∧ ((m = l ∧ ∀ y, (c < n)%nat → a !! c = Some y → comp x y = false)
       ∨ (m = c ∧ (c < n)%nat ∧ ∃ y, a !! c = Some y ∧ comp x y = true)).
Proof.
  intros Hlen Hn Hx. unfold heapify_child. case_decide as Hc.
  - destruct (lookup_lt_is_Some_2 a c) as [y Hy]; [lia|].
    rewrite (get_nat a l x) by done. rewrite bind_Ret.
    rewrite (get_nat a c y) by done. rewrite bind_Ret.
    destruct (comp x y) eqn:E.
    + exists c. split; [done|]. right. split_and!; [done|lia|eauto].
    + exists l. split; [done|]. left. split; [done|]. intros y' _ Hy'. congruence.
  - exists l. split; [done|]. left. split; [done|]. intros y ?. lia.
Qed.

(** What [heapify] picks among the node at [k] and its children: an
    element that has to precede none of the three. *)
Lemma heapify_choice a (n k : nat) xk :
  Z.of_nat (length a) ≤ 2 ^ 64 → (n ≤ length a)%nat → (k < n)%nat →
  a !! k = Some xk →
  ∃ (m1 m : nat) xm,
    heapify_child comp a (Z.of_nat n) (Z.of_nat k) (Z.of_nat (2 * k + 1))
    = Ret (Z.of_nat m1)
    ∧ heapify_child comp a (Z.of_nat n) (Z.of_nat m1) (Z.of_nat (2 * k + 2))
      = Ret (Z.of_nat m)
    ∧ a !! m = Some xm
    ∧ (m = k ∨ ((m = 2 * k + 1 ∨ m = 2 * k + 2) ∧ m < n))%nat
    ∧ comp xm xk = false
    ∧ ∀ (c : nat) y, (1 ≤ c < n)%nat → parent c = k → a !! c = Some y →
        comp xm y = false.
Proof.
  intros Hlen Hn Hk Hxk.
  pose proof (swo_irreflexive comp Hswo) as Hirr.
  pose proof (swo_transitive comp Hswo) as Htr.
  pose proof swo_asymmetric as Hasym.
  destruct (heapify_child_spec a n k (2 * k + 1) xk Hlen Hn Hxk)
    as (m1 & E1 & [[-> H1]|(-> & Hl & xl & Hxl & Hkl)]).
  - destruct (heapify_child_spec a n k (2 * k + 2) xk Hlen Hn Hxk)
      as (m & E2 & [[-> H2]|(-> & Hr & xr & Hxr & Hkr)]).
    + exists k, k, xk. split_and!; try done; [by left|].
      intros c y Hc Hp Hy. apply parent_children in Hp; [|lia]. destruct Hp as [->| ->].
      * by apply H1; [lia|].
      * by apply H2; [lia|].
    + exists k, (2 * k + 2)%nat, xr. split_and!; try done; [right; lia|by apply Hasym|].
      intros c y Hc Hp Hy. apply parent_children in Hp; [|lia]. destruct Hp as [->| ->].
      * destruct (comp xr y) eqn:E; [|done].
        pose proof (Htr xk xr y Hkr E) as Ht.
        rewrite (H1 y) in Ht; [done|lia|done].
      * rewrite Hxr in Hy. injection Hy as <-. apply Hirr.
  - destruct (heapify_child_spec a n (2 * k + 1) (2 * k + 2) xl Hlen Hn Hxl)
      as (m & E2 & [[-> H2]|(-> & Hr & xr & Hxr & Hlr)]).
    + exists (2 * k + 1)%nat, (2 * k + 1)%nat, xl.
      split_and!; try done; [right; lia|by apply Hasym|].
      intros c y Hc Hp Hy. apply parent_children in Hp; [|lia]. destruct Hp as [->| ->].
      * rewrite Hxl in Hy. injection Hy as <-. apply Hirr.
      * by apply H2; [lia|].
    + exists (2 * k + 1)%nat, (2 * k + 2)%nat, xr.
      split_and!; try done; [right; lia| |].
      * apply Hasym. by apply (Htr xk xl xr).
      * intros c y Hc Hp Hy. apply parent_children in Hp; [|lia]. destruct Hp as [->| ->].
        -- rewrite Hxl in Hy. injection Hy as <-. by apply Hasym.
        -- rewrite Hxr in Hy. injection Hy as <-. apply Hirr.
Qed.

(** [heapify] at [k] makes a heap of what is a heap but for [k]; it
    rearranges the first [n] elements among themselves. *)
Lemma heapify_spec (n s : nat) : ∀ fuel (k : nat) a,
  Z.of_nat (length a) < 2 ^ 30 → (n ≤ length a)%nat → (s ≤ k < n)%nat →
  (n - k ≤ S fuel)%nat →
  heap_except comp s n k a →
  ∃ a',
    heapify comp fuel a (Z.of_nat n) (Z.of_nat k) = Ret a'
    ∧ length a' = length a ∧ a' ≡ₚ a
    ∧ (∀ q : nat, (n ≤ q)%nat → a' !! q = a !! q)
    ∧ (∀ (p : nat) x, (p < n)%nat → a' !! p = Some x →
         ∃ p' : nat, (p' < n)%nat ∧ a !! p' = Some x)
    ∧ heap_from comp s n a'.
Proof.
  induction fuel as [|fuel IH]; intros k a Hlen Hn Hk Hfuel [Hh1 Hh2];
    rewrite heapify_unfold;
    (destruct (lookup_lt_is_Some_2 a k) as [xk Hxk]; [lia|]);
    (destruct (heapify_choice a n k xk) as (m1 & m & xm & E1 & E2 & Hxm & Hm & Hmk & Hmc);
       [lia|done|lia|done|]);
    rewrite (int_small (2 * Z.of_nat k)) by lia; rewrite bind_Ret;
    rewrite (int_small (2 * Z.of_nat k + 1)) by lia; rewrite bind_Ret;
    rewrite (int_small (2 * Z.of_nat k + 2)) by lia; rewrite bind_Ret;
    replace (2 * Z.of_nat k + 1) with (Z.of_nat (2 * k + 1)) by lia;
    replace (2 * Z.of_nat k + 2) with (Z.of_nat (2 * k + 2)) by lia;
    rewrite E1, bind_Ret, E2, bind_Ret.
  - (* no fuel: the node is a leaf *)
    destruct Hm as [->|Hm]; [|lia]. rewrite decide_False by lia.
    exists a. split_and!; try done; [eauto|].
    intros c x y Hc Hs Hx Hy. destruct (decide (parent c = k)) as [Hp|Hp].
    + rewrite Hp, Hxk in Hx. injection Hx as <-.
      rewrite Hxk in Hxm. injection Hxm as <-. by apply (Hmc c).
    + by apply (Hh1 c).
  - destruct Hm as [->|[Hm Hmn]].
    { rewrite decide_False by lia.
      exists a. split_and!; try done; [eauto|].
      intros c x y Hc Hs Hx Hy. destruct (decide (parent c = k)) as [Hp|Hp].
      + rewrite Hp, Hxk in Hx. injection Hx as <-.
        rewrite Hxk in Hxm. injection Hxm as <-. by apply (Hmc c).
      + by apply (Hh1 c). }
    rewrite decide_True by lia.
    rewrite (swap_nat a k m xk xm) by (done || lia). rewrite bind_Ret.
    assert (parent m = k) as Hpm by (apply parent_children; lia).
    destruct (IH m (<[m := xk]> (<[k := xm]> a)))
      as (a' & E & Hl' & Hp' & Hout & Hin & Hheap).
    { by rewrite !length_insert. }
    { by rewrite !length_insert. }
    { lia. }
    { lia. }
    { split.
      - intros c x y Hc Hs Hne. rewrite !(swap_lookup a k m xk xm) by done.
        destruct (decide (parent c = k)) as [Hp|Hp].
        + rewrite (decide_False (P:=parent c = m)) by lia.
          intros [= <-]. destruct (decide (c = m)) as [->|Hcm].
          * by intros [= <-].
          * pose proof (parent_lt c). rewrite decide_False by lia.
            intros Hy. by apply (Hmc c).
        + rewrite (decide_False (P:=parent c = m)) by done. intros Hx.
          destruct (decide (c = m)) as [->|Hcm]; [done|].
          destruct (decide (c = k)) as [->|Hck].
          * intros [= <-]. apply (Hh2 m); try done; lia.
          * intros Hy. by apply (Hh1 c).
      - intros c x y Hm1 Hs Hc Hp. rewrite Hpm.
        rewrite !(swap_lookup a k m xk xm) by done.
        rewrite (decide_False (P:=k = m)) by lia.
        rewrite (decide_True (P:=k = k)) by done. intros [= <-].
        pose proof (parent_lt c). rewrite !decide_False by lia.
        intros Hy. apply (Hh1 c); try done; [lia..|]. by rewrite Hp. }
    exists a'. rewrite !length_insert in Hl'. split_and!; try done.
    + by rewrite Hp', (swap_perm a k m xk xm).
    + intros q Hq. rewrite Hout by done.
      rewrite (swap_lookup a k m xk xm) by done. by rewrite !decide_False by lia.
    + intros p x Hp Hx. destruct (Hin p x Hp Hx) as (p' & Hp1 & Hx').
      rewrite (swap_lookup a k m xk xm) in Hx' by done.
      destruct (decide (p' = m)) as [->|Hpm'].
      * injection Hx' as <-. exists k. split; [lia|done].
      * destruct (decide (p' = k)) as [->|Hpk'].
        -- injection Hx' as <-. exists m. split; [lia|done].
        -- exists p'. by split.
Qed.

(** The node at the top of a heap has to precede none of the others. *)
Lemma heap_top (n : nat) a x0 :
  heap_from comp 0 n a → a !! 0%nat = Some x0 →
  ∀ (p : nat) x, (p < n)%nat → a !! p = Some x → comp x0 x = false.
Proof.
  intros Hheap H0 p. induction p as [p IH] using lt_wf_ind. intros x Hp Hx.
  destruct (decide (p = 0)%nat) as [->|Hp0].
  - rewrite H0 in Hx. injection Hx as <-. apply (swo_irreflexive comp Hswo).
  - pose proof (parent_lt p) as Hlt.
    destruct (lookup_lt_is_Some_2 a (parent p)) as [y Hy].
    { apply lookup_lt_Some in Hx. lia. }
    apply (swo_negative x0 y x).
    + apply (IH (parent p)); [lia..|done].
    + apply (Hheap p); [lia..|done|done].
Qed.

Lemma heapSort_build arr (fuel : nat) :
  Z.of_nat (length arr) < 2 ^ 30 → (length arr ≤ fuel)%nat →
  ∃ a,
    for_down (length arr / 2) (Z.of_nat (length arr / 2) - 1)
      (λ i arr', heapify comp fuel arr' (Z.of_nat (length arr)) i) arr
    = Ret a
    ∧ length a = length arr ∧ a ≡ₚ arr ∧ heap_from comp 0 (length arr) a.
Proof.
  intros Hlen Hfuel.
  pose proof (Nat.div_mod_eq (length arr) 2) as Hdiv.
  pose proof (Nat.mod_upper_bound (length arr) 2) as Hmod.
  destruct (for_down_invariant
              (λ m a, length a = length arr ∧ a ≡ₚ arr
                      ∧ heap_from comp m (length arr) a)
              (λ i arr', heapify comp fuel arr' (Z.of_nat (length arr)) i)
              0 (length arr / 2) arr) as (a & E & Hl & Hp & Hheap).
  - split_and!; [done..|]. intros c x y Hc Hs _ _.
    assert (c = 2 * parent c + 1 ∨ c = 2 * parent c + 2)%nat
      by (by apply parent_children; [lia|]).
    lia.
  - intros k a Hk (Hl & Hp & Hheap).
    destruct (heapify_spec (length arr) k fuel k a)
      as (a' & E' & Hl' & Hp' & _ & _ & Hheap'); [lia..| |].
    { split.
      - intros c x y Hc Hs Hne. apply Hheap; [done|lia].
      - intros c x y Hk1 Hs. pose proof (parent_lt k). lia. }
    exists a'. split; [done|]. split_and!; [congruence|by rewrite Hp'|done].
  - exists a. by split.
Qed.

Lemma heapSort_extract arr a0 (fuel : nat) :
  Z.of_nat (length arr) < 2 ^ 30 → (length arr ≤ fuel)%nat →
  (1 ≤ length arr)%nat →
  length a0 = length arr → a0 ≡ₚ arr → heap_from comp 0 (length arr) a0 →
  ∃ a,
    for_down (length arr - 1) (Z.of_nat (1 + (length arr - 1)) - 1)
      (λ i arr', arr' ← swap arr' 0 i; heapify comp fuel arr' i 0) a0
    = Ret a
    ∧ a ≡ₚ arr ∧ ordered comp a.
Proof.
  intros Hlen Hfuel Hpos Hl0 Hp0 Hheap0.
  destruct (for_down_invariant
              (λ m a, length a = length arr ∧ a ≡ₚ arr
                      ∧ heap_from comp 0 m a
                      ∧ ∀ (p q : nat) x y, (p < q)%nat → (m ≤ q)%nat →
                          a !! p = Some x → a !! q = Some y → comp y x = false)
              (λ i arr', arr' ← swap arr' 0 i; heapify comp fuel arr' i 0)
              1 (length arr - 1) a0) as (a & E & Hl & Hp & Hheap & Hdom).
  - replace (1 + (length arr - 1))%nat with (length arr) by lia.
    split_and!; [done..|]. intros p q x y _ Hq _ Hy.
    apply lookup_lt_Some in Hy. lia.
  - intros k a Hk (Hl & Hp & Hheap & Hdom).
    destruct (lookup_lt_is_Some_2 a 0) as [x0 Hx0]; [lia|].
    destruct (lookup_lt_is_Some_2 a k) as [xk Hxk]; [lia|].
    pose proof (heap_top (S k) a x0 Hheap Hx0) as Htop.
    change 0 with (Z.of_nat 0).
    rewrite (swap_nat a 0 k x0 xk) by (done || lia). rewrite bind_Ret.
    destruct (heapify_spec k 0 fuel 0 (<[k := x0]> (<[0%nat := xk]> a)))
      as (a' & E' & Hl' & Hp' & Hout & Hin & Hheap').
    { rewrite !length_insert. lia. }
    { rewrite !length_insert. lia. }
    { lia. }
    { lia. }
    { split; [|lia]. intros c x y Hc _ Hne.
      rewrite !(swap_lookup a 0 k x0 xk) by done.
      pose proof (parent_lt c). rewrite !decide_False by lia.
      apply Hheap; lia. }
    exists a'. rewrite !length_insert in Hl'. split; [done|].
    split_and!; [congruence|by rewrite Hp', (swap_perm a 0 k x0 xk)|done|].
    intros p q x y Hpq Hq Hx Hy. rewrite Hout in Hy by done.
    rewrite (swap_lookup a 0 k x0 xk) in Hy by done.
    rewrite (decide_False (P:=q = 0%nat)) in Hy by lia.
    assert (∃ p' : nat, a !! p' = Some x
              ∧ ((q = k ∧ p' ≤ k) ∨ (k < q ∧ p' < q))%nat) as (p' & Hx' & Hcase).
    { destruct (decide (p < k)%nat) as [Hpk|Hpk].
      - destruct (Hin p x Hpk Hx) as (p1 & Hp1 & Hx1).
        rewrite (swap_lookup a 0 k x0 xk) in Hx1 by done.
        rewrite (decide_False (P:=p1 = k)) in Hx1 by lia.
        destruct (decide (p1 = 0)%nat) as [->|Hp10].
        + injection Hx1 as <-. exists k. split; [done|lia].
        + exists p1. split; [done|lia].
      - rewrite Hout in Hx by lia.
        rewrite (swap_lookup a 0 k x0 xk) in Hx by done.
        destruct (decide (p = k)) as [->|Hpk'].
        + injection Hx as <-. exists 0%nat. split; [done|lia].
        + rewrite (decide_False (P:=p = 0%nat)) in Hx by lia.
          exists p. split; [done|lia]. }
    destruct Hcase as [[-> Hp'k]|[Hkq Hp'q]].
    + rewrite decide_True in Hy by done. injection Hy as <-.
      apply (Htop p' x); [lia|done].
    + rewrite decide_False in Hy by lia.
      apply (Hdom p' q x y); [lia|lia|done|done].
  - exists a. split; [done|]. split; [done|].
    intros i x y Hx Hy. apply (Hdom i (S i) x y); [lia|lia|done|done].
Qed.

Lemma heapSort_spec arr :
  Z.of_nat (length arr) < 2 ^ 30 →
  ∃ out, heapSort comp arr = Ret out ∧ out ≡ₚ arr ∧ ordered comp out.
Proof.
  intros Hlen. unfold heapSort, size. rewrite to_int_small by lia.
  assert (Z.of_nat (length arr) `quot` 2 = Z.of_nat (length arr / 2)) as Hq.
  { rewrite Z.quot_div_nonneg by lia. by rewrite Nat2Z.inj_div. }
  pose proof (Nat.div_mod_eq (length arr) 2) as Hdiv.
  pose proof (Nat.mod_upper_bound (length arr) 2) as Hmod.
  rewrite Hq. rewrite (int_small (Z.of_nat (length arr / 2) - 1)) by lia.
  rewrite bind_Ret.
  replace (Z.to_nat (Z.of_nat (length arr / 2) - 1 + 1)) with (length arr / 2)%nat
    by lia.
  destruct (heapSort_build arr (length arr)) as (a0 & E0 & Hl0 & Hp0 & Hheap0);
    [done..|].
  rewrite E0, bind_Ret. rewrite (int_small (Z.of_nat (length arr) - 1)) by lia.
  rewrite bind_Ret.
  destruct (decide (length arr = 0)%nat) as [Hz|Hz].
  - rewrite Hz. simpl. exists a0. split; [done|]. split; [done|].
    destruct a0; [apply ordered_nil|simpl in *; lia].
  - destruct (heapSort_extract arr a0 (length arr)) as (a & E & Hp & Ho);
      [done|lia|lia|done..|].
    exists a. split; [|done]. rewrite <- E. f_equal; lia.
Qed.

End WeakOrder.

(** X6: [bubbleSort] sorts every vector that is not empty.  With a
    comparator that is a strict weak order it returns with the elements
    rearranged so that none has to precede the one before it;
    [isSorted] confirms it. *)
Theorem bubbleSort_sorts arr :
  strict_weak_order comp → arr ≠ [] → Z.of_nat (length arr) < 2 ^ 64 →
  ∃ out, bubbleSort comp arr = Ret out
         ∧ out ≡ₚ arr ∧ ordered comp out ∧ isSorted comp out = Ret true.
Proof.
  intros Hswo Hne Hlen.
  destruct (bubbleSort_spec Hswo arr Hne Hlen) as (out & E & Hp & Ho).
  exists out. split_and!; [done..|]. apply isSorted_true; [|done].
  rewrite Hp. lia.
Qed.

(** X7: [heapSort] sorts.  With a comparator that is a strict weak
    order, and a vector of fewer than [2^30] elements, it returns with
    the elements rearranged so that none has to precede the one before
    it; [isSorted] confirms it. *)
Theorem heapSort_sorts arr :
  strict_weak_order comp → Z.of_nat (length arr) < 2 ^ 30 →
  ∃ out, heapSort comp arr = Ret out
         ∧ out ≡ₚ arr ∧ ordered comp out ∧ isSorted comp out = Ret true.
Proof.
  intros Hswo Hlen.
  destruct (heapSort_spec Hswo arr Hlen) as (out & E & Hp & Ho).
  exists out. split_and!; [done..|]. apply isSorted_true; [|done].
  rewrite Hp. lia.
Qed.

End Order.

(** *** The comparator and the vector of the demo program *)

Lemma Zltb_asymmetric : asymmetric Z.ltb.
Proof. intros a b Hab. apply Z.ltb_lt in Hab. apply Z.ltb_ge. lia. Qed.

Lemma Zltb_strict_partial_order : strict_partial_order Z.ltb.
Proof.
  split.
  - intros a. apply Z.ltb_irrefl.
  - intros a b c. rewrite !Z.ltb_lt. lia.
Qed.

Lemma Zltb_strict_weak_order : strict_weak_order Z.ltb.
Proof.
  split.
  - intros a. apply Z.ltb_irrefl.
  - intros a b c. rewrite !Z.ltb_lt. lia.
  - intros a b c. unfold equivalent. rewrite !Z.ltb_ge. lia.
Qed.

Lemma ordered_demo : ordered Z.ltb [11; 12; 22; 25].
Proof.
  intros i x y Hx Hy.
  do 3 (destruct i as [|i]; [by injection Hx as <-; injection Hy as <-|]).
  by destruct i.
Qed.

Lemma not_ordered_demo : ¬ ordered Z.ltb demo_vector.
Proof. intros Ho. by specialize (Ho 0%nat 64 34 eq_refl eq_refl). Qed.

Lemma isSorted_decides_witness :
  isSorted Z.ltb [11; 12; 22; 25] = Ret true
  ∧ isSorted Z.ltb demo_vector = Ret false.
Proof.
  split.
  - apply (isSorted_decides Z.ltb [11; 12; 22; 25]); [by vm_compute|].
    apply ordered_demo.
  - apply (isSorted_decides Z.ltb demo_vector); [by vm_compute|].
    apply not_ordered_demo.
Defined.

Lemma insertionSort_sorts_witness :
  ∃ out, insertionSort Z.ltb demo_vector = Ret out
         ∧ out ≡ₚ demo_vector ∧ ordered Z.ltb out
         ∧ isSorted Z.ltb out = Ret true.
Proof.
  apply (insertionSort_sorts Z.ltb demo_vector); [apply Zltb_asymmetric|].
  by vm_compute.
Defined.

Lemma selectionSort_sorts_witness :
  ∃ out, selectionSort Z.ltb demo_vector = Ret out
         ∧ out ≡ₚ demo_vector ∧ ordered Z.ltb out
         ∧ isSorted Z.ltb out = Ret true.
Proof.
  apply (selectionSort_sorts Z.ltb demo_vector);
    [apply Zltb_strict_partial_order|done|].
  by vm_compute.
Defined.

Lemma quickSort_sorts_witness :
  ∃ out, quickSort Z.ltb demo_vector = Ret out
         ∧ out ≡ₚ demo_vector ∧ ordered Z.ltb out
         ∧ isSorted Z.ltb out = Ret true.
Proof.
  apply (quickSort_sorts Z.ltb demo_vector); [apply Zltb_asymmetric|].
  by vm_compute.
Defined.

Lemma mergeSort_sorts_witness :
  ∃ out, mergeSort 0 Z.ltb demo_vector = Ret out
         ∧ out ≡ₚ demo_vector ∧ ordered Z.ltb out
         ∧ isSorted Z.ltb out = Ret true.
Proof.
  apply (mergeSort_sorts Z.ltb 0 demo_vector); [apply Zltb_asymmetric|].
  by vm_compute.
Defined.

Lemma bubbleSort_sorts_witness :
  ∃ out, bubbleSort Z.ltb demo_vector = Ret out
         ∧ out ≡ₚ demo_vector ∧ ordered Z.ltb out
         ∧ isSorted Z.ltb out = Ret true.
Proof.
  apply (bubbleSort_sorts Z.ltb demo_vector);
    [apply Zltb_strict_weak_order|done|].
  by vm_compute.
Defined.

Lemma heapSort_sorts_witness :
  ∃ out, heapSort Z.ltb demo_vector = Ret out
         ∧ out ≡ₚ demo_vector ∧ ordered Z.ltb out
         ∧ isSorted Z.ltb out = Ret true.
Proof.
  apply (heapSort_sorts Z.ltb demo_vector); [apply Zltb_strict_weak_order|].
  by vm_compute.
Defined.

End sort_props.
(** ** BinarySearchTree.hpp: shape, traversals and round trips *)

Module BinarySearchTree_props.
Import BinarySearchTree BinarySearchTree_spec BinarySearchTree_facts.

Section Props.
Context {T : Type} (lt : relation T) `{!RelDecision lt} `{!EqDecision T}.
Context `{!StrictOrder lt} `{!Trichotomy lt}.

Implicit Types (n l r : NodePtr (T:=T)) (v x d : T) (t : BinarySearchTree (T:=T)).
Implicit Types (q : list (NodePtr (T:=T))) (xs : list T).

(** *** Height *)

Lemma depth_bounds n :
  -1 ≤ depth n < Z.of_nat (length (values n))
  ∧ Z.of_nat (length (values n)) ≤ 2 ^ (depth n + 1) - 1.
Proof.
  induction n as [|d l [IHl Pl] r [IHr Pr]]; simpl; [lia|].
  rewrite length_app. simpl. split; [lia|].
  replace (1 + Z.max (depth l) (depth r) + 1)
    with (Z.succ (Z.max (depth l) (depth r) + 1)) by lia.
  rewrite Z.pow_succ_r by lia.
  assert (2 ^ (depth l + 1)
          ≤ 2 ^ (Z.max (depth l) (depth r) + 1))
    by (apply Z.pow_le_mono_r; lia).
  assert (2 ^ (depth r + 1)
          ≤ 2 ^ (Z.max (depth l) (depth r) + 1))
    by (apply Z.pow_le_mono_r; lia).
  lia.
Qed.

Lemma height_node_depth n :
  depth n ≤ INT_MAX → height_node n = Ret (depth n).
Proof.
  induction n as [|d l IHl r IHr]; simpl; [done|]. intros Hmax.
  pose proof (depth_bounds l) as [? _].
  pose proof (depth_bounds r) as [? _].
  rewrite IHl, IHr by lia. simpl. unfold int.
  rewrite decide_True; [done|]. unfold INT_MIN. lia.
Qed.

(** X8: [height()] of a tree of at most [2^31] values is computed
    without overflow.  It is [-1] exactly for the empty tree and below
    [size()] otherwise, and a tree of height [h] holds at most
    [2^(h+1) - 1] values. *)
Theorem height_bounds t :
  reachable lt t → (size t ≤ 2 ^ 31)%N →
  ∃ h, height t = Ret h
       ∧ h = depth (root_ t)
       ∧ (h = -1 ↔ size t = 0%N)
       ∧ -1 ≤ h < Z.of_N (size t)
       ∧ Z.of_N (size t) ≤ 2 ^ (h + 1) - 1.
Proof.
  intros Ht Hsz. pose proof (tree_well_formed lt t Ht) as [_ E].
  exists (depth (root_ t)). unfold size, height in *.
  pose proof (depth_bounds (root_ t)) as [Hh Hp].
  rewrite E in *. rewrite nat_N_Z. split_and!; try lia.
  - apply height_node_depth. unfold INT_MAX. lia.
  - split; [|lia]. intros Hm. rewrite Hm in Hp. simpl in Hp. lia.
Qed.

(** *** No balancing *)

Lemma insert_node_spine xs v size :
  Forall (λ x, lt x v) xs →
  (insert_node lt (spine xs) v size).1 = spine (xs ++ [v]).
Proof.
  induction xs as [|x xs IH]; intros Hall; simpl; [done|].
  apply Forall_cons in Hall as [Hx Hall].
  destruct (order_cases lt v x) as [Hlt|Hgt| ->].
  - by destruct (lt_asym lt v x).
  - specialize (IH Hall). destruct (insert_node lt (spine xs) v size). simpl in *.
    by rewrite IH.
  - by destruct (lt_irrefl lt x).
Qed.

(** The height of a chain fits [int] up to [2^31] values and no
    further. *)
Lemma height_node_spine xs :
  height_node (spine xs)
  = if decide (Z.of_nat (length xs) ≤ 2 ^ 31)
    then Ret (Z.of_nat (length xs) - 1) else Undef.
Proof.
  induction xs as [|x xs IH]; [done|].
  change (height_node (spine (x :: xs)))
    with (hl ← Ret (-1); hr ← height_node (spine xs); int (1 + Z.max hl hr)).
  rewrite sort_facts.bind_Ret, IH.
  change (length (x :: xs)) with (S (length xs)).
  destruct (decide (Z.of_nat (length xs) ≤ 2 ^ 31)) as [Hle|Hgt].
  - rewrite sort_facts.bind_Ret. unfold int, INT_MIN, INT_MAX.
    replace (1 + Z.max (-1) (Z.of_nat (length xs) - 1))
      with (Z.of_nat (S (length xs)) - 1) by lia.
    repeat case_decide; try done; lia.
  - rewrite decide_False by lia. done.
Qed.

Lemma of_list_snoc xs v : of_list lt (xs ++ [v]) = insert lt v (of_list lt xs).
Proof. unfold of_list. by rewrite foldl_snoc. Qed.

Lemma of_list_spine xs :
  StronglySorted lt xs → root_ (of_list lt xs) = spine xs.
Proof.
  induction xs as [|v xs IH] using rev_ind; intros Hs; [done|].
  apply StronglySorted_app in Hs as (Hlt & Hxs & _).
  rewrite of_list_snoc. unfold insert. rewrite (IH Hxs).
  pose proof (insert_node_spine xs v (size_ (of_list lt xs))) as Hi.
  destruct (insert_node lt (spine xs) v _). simpl in *. apply Hi.
  apply Forall_forall. intros x Hx. apply (Hlt x v); set_solver.
Qed.

(** X9: the tree does not balance itself.  Built from at most [2^31]
    values given in ascending order it is a chain of right children, and
    [height()] returns their number less one. *)
Theorem ascending_degenerate xs :
  StronglySorted lt xs → Z.of_nat (length xs) ≤ 2 ^ 31 →
  root_ (of_list lt xs) = spine xs
  ∧ height (of_list lt xs) = Ret (Z.of_nat (length xs) - 1).
Proof.
  intros Hs Hlen. pose proof (of_list_spine xs Hs) as E. split; [done|].
  unfold height. rewrite E, height_node_spine. by rewrite decide_True.
Qed.

(** *** Traversals *)

Lemma preorder_values n result :
  preorder n result
  = result ++ match n with
              | nullptr => []
              | node d l r => d :: preorder l [] ++ preorder r []
              end.
Proof.
  revert result. induction n as [|d l IHl r IHr]; intros result; simpl.
  - by rewrite app_nil_r.
  - rewrite IHr, IHl. rewrite (IHl []), (IHr []). simpl.
    by rewrite <- !app_assoc.
Qed.

Lemma postorder_values n result :
  postorder n result
  = result ++ match n with
              | nullptr => []
              | node d l r => postorder l [] ++ postorder r [] ++ [d]
              end.
Proof.
  revert result. induction n as [|d l IHl r IHr]; intros result; simpl.
  - by rewrite app_nil_r.
  - rewrite IHr, IHl. rewrite (IHl []), (IHr []). simpl.
    by rewrite <- !app_assoc.
Qed.

Lemma preorder_perm n : preorder n [] ≡ₚ values n.
Proof.
  induction n as [|d l IHl r IHr]; [done|].
  rewrite preorder_values. simpl. rewrite IHl, IHr.
  by rewrite Permutation_middle.
Qed.

Lemma postorder_perm n : postorder n [] ≡ₚ values n.
Proof.
  induction n as [|d l IHl r IHr]; [done|].
  rewrite postorder_values. simpl. rewrite IHl, IHr.
  rewrite (Permutation_app_comm (values r) [d]). done.
Qed.

(** X10: the three depth-first traversals of a tree list the same
    values, [size()] of them, each once: [preorderTraversal()] and
    [postorderTraversal()] are rearrangements of [inorderTraversal()].
    The value at the root comes first in preorder and last in
    postorder. *)
Theorem traversals_rearranged t :
  reachable lt t →
  preorderTraversal t ≡ₚ inorderTraversal t
  ∧ postorderTraversal t ≡ₚ inorderTraversal t
  ∧ NoDup (inorderTraversal t)
  ∧ length (inorderTraversal t) = N.to_nat (size t)
  ∧ match root_ t with
    | nullptr => inorderTraversal t = []
    | node d _ _ =>
        head (preorderTraversal t) = Some d ∧ last (postorderTraversal t) = Some d
    end.
Proof.
  intros Ht. pose proof (tree_well_formed lt t Ht) as [B E].
  unfold preorderTraversal, postorderTraversal, inorderTraversal, size.
  rewrite inorder_values. simpl. split_and!.
  - apply preorder_perm.
  - apply postorder_perm.
  - apply bst_sorted in B; [|done..]. revert B. generalize (values (root_ t)).
    induction 1 as [|x xs _ IH Hx]; constructor; [|done].
    intros Hin. rewrite Forall_forall in Hx. by apply (lt_irrefl lt x), Hx.
  - rewrite E. lia.
  - destruct (root_ t) as [|d l r]; [done|].
    rewrite preorder_values, postorder_values. simpl.
    by rewrite app_assoc, last_snoc.
Qed.

(** *** Rebuilding a tree from its preorder *)

Lemma insert_node_size n v size size' :
  (insert_node lt n v size).1 = (insert_node lt n v size').1.
Proof.
  induction n as [|d l IHl r IHr]; simpl; [done|].
  destruct (ltb lt v d); [|destruct (gtb lt v d); [|done]].
  - destruct (insert_node lt l v size), (insert_node lt l v size'). simpl in *.
    by rewrite IHl.
  - destruct (insert_node lt r v size), (insert_node lt r v size'). simpl in *.
    by rewrite IHr.
Qed.

Lemma root_of_list_from xs : ∀ t,
  root_ (foldl (λ t item, insert lt item t) t xs) = insert_all lt (root_ t) xs.
Proof.
  induction xs as [|x xs IH]; intros t; simpl; [done|].
  rewrite IH. f_equal. unfold insert.
  pose proof (insert_node_size (root_ t) x (size_ t) 0) as E.
  by destruct (insert_node lt (root_ t) x (size_ t)), (insert_node lt (root_ t) x 0).
Qed.

Lemma insert_all_left d l r xs :
  Forall (λ x, lt x d) xs →
  insert_all lt (node d l r) xs = node d (insert_all lt l xs) r.
Proof.
  revert l. induction xs as [|x xs IH]; intros l Hall; simpl; [done|].
  apply Forall_cons in Hall as [Hx Hall]. rewrite <- (IH _ Hall). f_equal.
  destruct (order_cases lt x d) as [Hlt|Hgt| ->].
  - by destruct (insert_node lt l x 0).
  - by destruct (lt_asym lt x d).
  - by destruct (lt_irrefl lt d).
Qed.

Lemma insert_all_right d l r xs :
  Forall (λ x, lt d x) xs →
  insert_all lt (node d l r) xs = node d l (insert_all lt r xs).
Proof.
  revert r. induction xs as [|x xs IH]; intros r Hall; simpl; [done|].
  apply Forall_cons in Hall as [Hx Hall]. rewrite <- (IH _ Hall). f_equal.
  destruct (order_cases lt x d) as [Hlt|Hgt| ->].
  - by destruct (lt_asym lt x d).
  - by destruct (insert_node lt r x 0).
  - by destruct (lt_irrefl lt d).
Qed.

Lemma insert_all_preorder n : bst lt n → insert_all lt nullptr (preorder n []) = n.
Proof.
  induction n as [|d l IHl r IHr]; [done|]. intros (Hl & Hr & Bl & Br).
  rewrite preorder_values. simpl.
  unfold insert_all. rewrite foldl_app. fold (insert_all lt (node d nullptr nullptr) (preorder l [])).
  rewrite insert_all_left.
  - rewrite (IHl Bl). fold (insert_all lt (node d l nullptr) (preorder r [])).
    rewrite insert_all_right; [by rewrite (IHr Br)|].
    apply Forall_forall. intros x Hx. apply Hr. by rewrite <- preorder_perm.
  - apply Forall_forall. intros x Hx. apply Hl. by rewrite <- preorder_perm.
Qed.

(** X11: a tree is rebuilt from its preorder.  Inserting the values of
    [preorderTraversal()] into an empty tree, in that order, gives a tree
    of the same shape and the same count. *)
Theorem preorder_rebuilds t :
  reachable lt t → of_list lt (preorderTraversal t) = t.
Proof.
  intros Ht. pose proof (tree_well_formed lt t Ht) as [B E].
  pose proof (tree_well_formed lt _ (reachable_of_list lt (preorderTraversal t)))
    as [_ E'].
  assert (root_ (of_list lt (preorderTraversal t)) = root_ t) as Er.
  { unfold of_list. rewrite root_of_list_from. by apply insert_all_preorder. }
  destruct t as [n s], (of_list lt (preorderTraversal (mk n s))) as [n' s'].
  simpl in *. congruence.
Qed.

(** *** The initializer list *)

Lemma of_list_values xs :
  ∀ x, x ∈ values (root_ (of_list lt xs)) ↔ x ∈ xs.
Proof.
  induction xs as [|v xs IH] using rev_ind; intros x; [done|].
  rewrite of_list_snoc. unfold insert.
  pose proof (insert_node_values lt (root_ (of_list lt xs)) v
                (size_ (of_list lt xs)) x) as Hi.
  destruct (insert_node lt _ v _). simpl in *. rewrite Hi, IH. set_solver.
Qed.

(** X12: the constructor from an initializer list sorts and removes
    duplicates.  [inorderTraversal()] of the tree built lists the values
    given, each once, in ascending order; so the order in which they
    were given does not show in it. *)
Theorem of_list_sorts xs :
  StronglySorted lt (inorderTraversal (of_list lt xs))
  ∧ (∀ x, x ∈ inorderTraversal (of_list lt xs) ↔ x ∈ xs)
  ∧ (∀ ys, ys ≡ₚ xs →
       inorderTraversal (of_list lt ys) = inorderTraversal (of_list lt xs)).
Proof.
  assert (∀ zs, StronglySorted lt (inorderTraversal (of_list lt zs))) as Hsorted.
  { intros zs. unfold inorderTraversal. rewrite inorder_values. simpl.
    apply bst_sorted; [done..|]. apply (tree_well_formed lt), reachable_of_list; done. }
  assert (∀ zs x, x ∈ inorderTraversal (of_list lt zs) ↔ x ∈ zs) as Hin.
  { intros zs x. unfold inorderTraversal. rewrite inorder_values. simpl.
    apply of_list_values. }
  assert (∀ zs, NoDup (inorderTraversal (of_list lt zs))) as Hnd.
  { intros zs. generalize (Hsorted zs).
    induction 1 as [|x l _ IH Hx]; constructor; [|done].
    intros Hl. rewrite Forall_forall in Hx. by apply (lt_irrefl lt x), Hx. }
  split_and!; [done..|]. intros ys Hperm.
  apply (StronglySorted_unique_strong lt); [|done..|].
  { intros x1 x2 _ _ H1 H2. by destruct (lt_asym lt x1 x2). }
  apply NoDup_Permutation; [done..|]. intros x. rewrite !Hin. by rewrite Hperm.
Qed.

(** *** insert, then remove *)

Lemma remove_insert_node n v : ∀ size size',
  search lt n v = false →
  remove_node lt (insert_node lt n v size).1 v size' = Ret (n, decr size').
Proof.
  induction n as [|d l IHl r IHr]; intros size size'; simpl.
  - intros _. destruct (order_cases lt v v) as [Hlt|Hgt|_]; [| |done];
      by destruct (lt_irrefl lt v).
  - destruct (order_cases lt v d) as [Hlt|Hgt| ->]; intros Hs; [| |done].
    + specialize (IHl size size' Hs).
      destruct (insert_node lt l v size) as [l' s']. simpl in *.
      destruct (order_cases lt v d) as [_|Hgt| ->];
        [|by destruct (lt_asym lt v d)|by destruct (lt_irrefl lt d)].
      by rewrite IHl.
    + specialize (IHr size size' Hs).
      destruct (insert_node lt r v size) as [r' s']. simpl in *.
      destruct (order_cases lt v d) as [Hlt|_| ->];
        [by destruct (lt_asym lt v d)| |by destruct (lt_irrefl lt d)].
      by rewrite IHr.
Qed.

(** X13: [remove(v)] undoes [insert(v)].  When [v] is not in the tree,
    inserting it and removing it again gives back the very tree: the
    same shape and the same count. *)
Theorem remove_undoes_insert t v :
  reachable lt t → contains lt v t = false →
  remove lt v (insert lt v t) = Ret t.
Proof.
  intros Ht Hc. pose proof (tree_well_formed lt t Ht) as [B E].
  unfold contains in Hc. destruct t as [n s]. simpl in *.
  unfold remove, insert. simpl.
  destruct (insert_node_fresh lt n v s Hc) as [Es _].
  pose proof (remove_insert_node n v s (insert_node lt n v s).2 Hc) as Hr.
  destruct (insert_node lt n v s) as [n' s']. simpl in *. rewrite Hr. simpl.
  rewrite Es. unfold incr, decr. rewrite decide_False by lia.
  do 2 f_equal. lia.
Qed.

(** *** Validation *)

(** X14: [isValid()] is an exact check of the BST property, on any tree
    of nodes and not only on those the class builds: it returns true
    when every value is greater than all values in its left subtree and
    less than all in its right subtree, and false otherwise. *)
Theorem isValid_exact t : isValid lt t = true ↔ bst lt (root_ t).
Proof.
  unfold isValid. rewrite isValidBST_spec by done. split; [by intros [? _]|].
  intros B. split; [done|]. intros x _. by split.
Qed.

(** *** Level order *)

Lemma level_children k n : level (S k) n = children n ≫= level k.
Proof.
  destruct n as [|d l r]; [done|]. simpl.
  destruct l, r; csimpl; by rewrite ?app_nil_r.
Qed.

Lemma forest_level_children k q :
  q ≫= level (S k) = (q ≫= children) ≫= level k.
Proof.
  induction q as [|n q IH]; [done|]. csimpl.
  by rewrite bind_app, IH, level_children.
Qed.

Lemma children_nonnull n : Forall (λ c, c ≠ nullptr) (children n).
Proof. destruct n as [|d [] []]; simpl; repeat constructor; done. Qed.

Lemma children_height n H :
  depth n < Z.of_nat (S H) →
  Forall (λ c, depth c < Z.of_nat H) (children n).
Proof.
  destruct n as [|d l r]; simpl; [constructor|]. intros Hh.
  destruct l, r; simpl in *; repeat constructor; simpl; lia.
Qed.

Lemma children_values n :
  n ≠ nullptr → length (values n) = S (length (children n ≫= values)).
Proof.
  destruct n as [|d l r]; [done|]. intros _. simpl.
  rewrite length_app. simpl.
  destruct l, r; csimpl; rewrite ?app_nil_r, ?length_app; simpl; lia.
Qed.

Lemma forest_children_values q :
  Forall (λ n, n ≠ nullptr) q →
  length (q ≫= values) = (length q + length ((q ≫= children) ≫= values))%nat.
Proof.
  induction 1 as [|n q Hn _ IH]; [done|]. csimpl.
  rewrite bind_app, !length_app, IH, (children_values n Hn). lia.
Qed.

(** One round of the loop for every node of the front of the queue:
    their values are appended to the result and their children to the
    queue. *)
Lemma levelOrder_loop_front q : ∀ cq fuel xs,
  Forall (λ n, n ≠ nullptr) q → (length q ≤ fuel)%nat →
  levelOrder_loop fuel (q ++ cq) xs
  = levelOrder_loop (fuel - length q) (cq ++ (q ≫= children)) (xs ++ (q ≫= level 0)).
Proof.
  induction q as [|n q IH]; intros cq fuel xs Hq Hfuel.
  - csimpl. by rewrite Nat.sub_0_r, !app_nil_r.
  - apply Forall_cons in Hq as [Hn Hq]. destruct n as [|d l r]; [done|].
    destruct fuel as [|fuel]; [simpl in *; lia|]. simpl in Hfuel.
    transitivity (levelOrder_loop fuel (q ++ (cq ++ children (node d l r)))
                    (xs ++ [d])).
    { simpl. destruct l, r; simpl; by rewrite ?app_nil_r, <- ?app_assoc. }
    rewrite IH by (done || lia). csimpl. by rewrite <- !app_assoc.
Qed.

Lemma levelOrder_loop_levels H : ∀ q fuel xs,
  Forall (λ n, n ≠ nullptr) q →
  Forall (λ n, depth n < Z.of_nat H) q →
  (length (q ≫= values) ≤ fuel)%nat →
  levelOrder_loop fuel q xs
  = Ret (xs ++ concat ((λ k, q ≫= level k) <$> seq 0 H)).
Proof.
  induction H as [|H IH]; intros q fuel xs Hq Hh Hfuel.
  - destruct q as [|n q]; [destruct fuel; simpl; by rewrite app_nil_r|].
    apply Forall_cons in Hq as [Hn _]. apply Forall_cons in Hh as [Hh _].
    destruct n as [|d l r]; [done|]. simpl in Hh.
    pose proof (depth_bounds l). lia.
  - pose proof (forest_children_values q Hq) as Hc.
    rewrite <- (app_nil_r q) at 1.
    rewrite levelOrder_loop_front by (done || lia). simpl.
    rewrite IH.
    + rewrite <- app_assoc. do 3 f_equal. rewrite <- fmap_S_seq, <- list_fmap_compose.
      f_equal. apply list_fmap_ext. intros _ k _. simpl. by rewrite forest_level_children.
    + apply Forall_bind. eapply Forall_impl; [done|].
      intros n _. apply children_nonnull.
    + apply Forall_bind. eapply Forall_impl; [done|].
      intros n Hn. by apply children_height.
    + lia.
Qed.

Lemma concat_fmap_app_perm {A B} (f g : A → list B) (ks : list A) :
  concat ((λ k, f k ++ g k) <$> ks) ≡ₚ concat (f <$> ks) ++ concat (g <$> ks).
Proof.
  induction ks as [|k ks IH]; [done|]. csimpl. rewrite IH.
  rewrite <- !app_assoc. f_equiv. rewrite !app_assoc. f_equiv.
  apply Permutation_app_comm.
Qed.

Lemma levels_perm n : ∀ H,
  depth n < Z.of_nat H →
  concat ((λ k, level k n) <$> seq 0 H) ≡ₚ values n.
Proof.
  induction n as [|d l IHl r IHr]; intros H Hh.
  - simpl. clear Hh. generalize (seq 0 H). intros ks.
    induction ks as [|k ks IH]; [done|]. by destruct k.
  - simpl in Hh. pose proof (depth_bounds l) as [? _].
    destruct H as [|H]; [lia|]. simpl. rewrite <- fmap_S_seq, <- list_fmap_compose.
    change (d :: concat ((λ k, level k l ++ level k r) <$> seq 0 H)
            ≡ₚ values l ++ d :: values r).
    rewrite concat_fmap_app_perm, IHl, IHr by lia.
    by rewrite Permutation_middle.
Qed.

(** X15: [levelOrderTraversal()] lists the values level by level, the
    root first, every level from left to right; it lists the values of
    [inorderTraversal()], each once. *)
Theorem levelOrder_by_levels t :
  reachable lt t →
  ∃ xs,
    levelOrderTraversal t = Ret xs
    ∧ xs = concat ((λ k, level k (root_ t))
                     <$> seq 0 (Z.to_nat (depth (root_ t) + 1)))
    ∧ xs ≡ₚ inorderTraversal t.
Proof.
  intros Ht. pose proof (tree_well_formed lt t Ht) as [_ E].
  eexists. split_and!; [|done|].
  - unfold levelOrderTraversal.
    destruct (root_ t) as [|d l r] eqn:Er; [done|].
    pose proof (depth_bounds l) as [Hh _].
    rewrite (levelOrder_loop_levels (Z.to_nat (depth (node d l r) + 1))).
    + f_equal. simpl. f_equal. apply list_fmap_ext. intros _ k _. csimpl.
      by rewrite app_nil_r.
    + by repeat constructor.
    + repeat constructor. lia.
    + csimpl. rewrite app_nil_r, E. simpl. lia.
  - unfold inorderTraversal. rewrite inorder_values. simpl.
    apply levels_perm. pose proof (depth_bounds (root_ t)). lia.
Qed.

End Props.

#[local] Existing Instance Z_lt_trichotomy.

Lemma height_bounds_witness :
  ∃ h, height demo_tree = Ret h
       ∧ h = depth (root_ demo_tree)
       ∧ (h = -1 ↔ size demo_tree = 0%N)
       ∧ -1 ≤ h < Z.of_N (size demo_tree)
       ∧ Z.of_N (size demo_tree) ≤ 2 ^ (h + 1) - 1.
Proof.
  apply (height_bounds Z.lt demo_tree); [apply reachable_of_list|].
  by vm_compute.
Defined.

Lemma ascending_degenerate_witness :
  root_ (of_list Z.lt [10; 20; 30; 40]) = spine [10; 20; 30; 40]
  ∧ height (of_list Z.lt [10; 20; 30; 40])
    = Ret (Z.of_nat (length [10; 20; 30; 40]) - 1).
Proof.
  apply (ascending_degenerate Z.lt [10; 20; 30; 40]).
  - apply (bool_decide_unpack _). vm_compute. exact I.
  - by vm_compute.
Defined.

Lemma traversals_rearranged_witness :
  preorderTraversal demo_tree ≡ₚ inorderTraversal demo_tree
  ∧ postorderTraversal demo_tree ≡ₚ inorderTraversal demo_tree
  ∧ NoDup (inorderTraversal demo_tree)
  ∧ length (inorderTraversal demo_tree) = N.to_nat (size demo_tree)
  ∧ match root_ demo_tree with
    | nullptr => inorderTraversal demo_tree = []
    | node d _ _ =>
        head (preorderTraversal demo_tree) = Some d
        ∧ last (postorderTraversal demo_tree) = Some d
    end.
Proof. apply (traversals_rearranged Z.lt demo_tree), reachable_of_list. Defined.

Lemma preorder_rebuilds_witness :
  of_list Z.lt (preorderTraversal demo_tree) = demo_tree.
Proof. apply (preorder_rebuilds Z.lt demo_tree), reachable_of_list. Defined.

Lemma of_list_sorts_witness :
  StronglySorted Z.lt (inorderTraversal (of_list Z.lt [50; 30; 70; 30; 20]))
  ∧ (∀ x, x ∈ inorderTraversal (of_list Z.lt [50; 30; 70; 30; 20])
          ↔ x ∈ [50; 30; 70; 30; 20])
  ∧ (∀ ys, ys ≡ₚ [50; 30; 70; 30; 20] →
       inorderTraversal (of_list Z.lt ys)
       = inorderTraversal (of_list Z.lt [50; 30; 70; 30; 20])).
Proof. apply (of_list_sorts Z.lt [50; 30; 70; 30; 20]). Defined.

Lemma remove_undoes_insert_witness :
  remove Z.lt 35 (insert Z.lt 35 demo_tree) = Ret demo_tree.
Proof.
  apply (remove_undoes_insert Z.lt demo_tree 35); [apply reachable_of_list|].
  by vm_compute.
Defined.

Lemma isValid_exact_witness :
  isValid Z.lt demo_tree = true ↔ bst Z.lt (root_ demo_tree).
Proof. apply (isValid_exact Z.lt demo_tree). Defined.

Lemma levelOrder_by_levels_witness :
  ∃ xs,
    levelOrderTraversal demo_tree = Ret xs
    ∧ xs = concat ((λ k, level k (root_ demo_tree))
                     <$> seq 0 (Z.to_nat (depth (root_ demo_tree) + 1)))
    ∧ xs ≡ₚ inorderTraversal demo_tree.
Proof. apply (levelOrder_by_levels Z.lt demo_tree), reachable_of_list. Defined.

End BinarySearchTree_props.
(** ** LinkedList.hpp: the list as a sequence of elements *)

Module LinkedList_props.
Import LinkedList LinkedList_spec LinkedList_facts.
#[local] Existing Instances M_ret M_bind.

Section Props.
Context {T : Type}.
Implicit Types (s : LinkedList (T:=T)) (h : gmap positive (Node (T:=T))).
Implicit Types (xs : list T) (cells : list (positive * T)).

Ltac run :=
  unfold push_front, push_back, pop_front, front, back,
    mbind, M_bind, mret, M_ret, get_head, get_tail, get_size,
    set_head, set_tail, set_size, incr_size, decr_size, empty, load, set_next,
    new_node, delete_node, throw, out_of_fuel; csimpl.

(** The elements of a reachable list are those of the cells it is made of. *)
Lemma reachable_cells s xs :
  reachable s → elements s = Ok xs s →
  ∃ cells, represents s cells ∧ xs = cells.*2.
Proof.
  intros [cells Hr]%list_well_formed E. exists cells. split; [done|].
  rewrite (elements_spec s cells Hr) in E. by injection E as <-.
Qed.

(** X16: a list built by the public operations can always be read:
    iterating from [begin()] to [end()] returns its elements and leaves
    it as it is; [size()] is their number and [empty()] tells whether
    there is none. *)
Theorem size_counts_elements s :
  reachable s →
  ∃ xs, elements s = Ok xs s
        ∧ size s = Ok (N.of_nat (length xs)) s
        ∧ empty s = Ok (bool_decide (xs = [])) s.
Proof.
  intros [cells Hr]%list_well_formed. exists cells.*2.
  pose proof Hr as (_ & _ & _ & Hs).
  split_and!; [by apply elements_spec|..].
  - unfold size, get_size. by rewrite Hs, length_fmap.
  - unfold empty. run. rewrite Hs. f_equal.
    destruct cells; [done|]. by rewrite !bool_decide_eq_false_2.
Qed.

(** X17: [push_front(v)] puts [v] before the elements of the list and
    [push_back(v)] puts it after them; the other elements keep their
    order. *)
Theorem push_elements s xs v :
  reachable s → elements s = Ok xs s →
  ∃ s1 s2,
    push_front v s = Ok () s1 ∧ elements s1 = Ok (v :: xs) s1
    ∧ push_back v s = Ok () s2 ∧ elements s2 = Ok (xs ++ [v]) s2.
Proof.
  intros Hs E. destruct (reachable_cells s xs Hs E) as (cells & Hr & ->).
  destruct (push_front_spec v s cells Hr) as (a1 & s1 & E1 & Hr1).
  destruct (push_back_spec v s cells Hr) as (a2 & s2 & E2 & Hr2).
  exists s1, s2. split_and!; try done.
  - by rewrite (elements_spec s1 _ Hr1).
  - by rewrite (elements_spec s2 _ Hr2), fmap_snoc.
Qed.

(** X18: on a list that is not empty, [pop_front()] removes the first
    element and [pop_back()] the last one, and nothing else. *)
Theorem pop_elements s xs :
  reachable s → elements s = Ok xs s → xs ≠ [] →
  ∃ s1 s2,
    pop_front s = Ok () s1 ∧ elements s1 = Ok (tail xs) s1
    ∧ pop_back s = Ok () s2 ∧ elements s2 = Ok (removelast xs) s2.
Proof.
  intros Hs E Hne. destruct (reachable_cells s xs Hs E) as (cells & Hr & ->).
  destruct (cells_rev_case cells) as [->|(cells' & t & y & Ecells)]; [done|].
  destruct cells as [|[a x] cells0]; [done|].
  destruct (pop_front_spec s a x cells0 Hr) as (s1 & E1 & Hr1).
  rewrite Ecells in Hr. destruct (pop_back_spec s cells' t y Hr) as (s2 & E2 & Hr2).
  exists s1, s2. split_and!; try done.
  - by rewrite (elements_spec s1 _ Hr1).
  - by rewrite (elements_spec s2 _ Hr2), Ecells, fmap_snoc, removelast_last.
Qed.

(** X19: [insert(index, v)] with [index] at most the number of elements
    puts [v] at position [index]: the elements before that position stay,
    those from it on move one place back. *)
Theorem insert_elements s xs index v :
  reachable s → elements s = Ok xs s → (N.to_nat index ≤ length xs)%nat →
  ∃ s',
    insert index v s = Ok () s'
    ∧ elements s' = Ok (take (N.to_nat index) xs ++ v :: drop (N.to_nat index) xs) s'.
Proof.
  intros Hs E Hi. destruct (reachable_cells s xs Hs E) as (cells & Hr & ->).
  pose proof Hr as (_ & _ & _ & Hsz). rewrite length_fmap in Hi.
  destruct (insert_spec index v s cells Hr) as (a & s' & E' & Hr'); [lia|].
  exists s'. split; [done|].
  by rewrite (elements_spec s' _ Hr'), fmap_app, fmap_cons, fmap_take, fmap_drop.
Qed.

(** X20: [erase(index)] with [index] below the number of elements removes
    the element at position [index] and no other. *)
Theorem erase_elements s xs index :
  reachable s → elements s = Ok xs s → (N.to_nat index < length xs)%nat →
  ∃ s',
    erase index s = Ok () s'
    ∧ elements s' = Ok (take (N.to_nat index) xs ++ drop (S (N.to_nat index)) xs) s'.
Proof.
  intros Hs E Hi. destruct (reachable_cells s xs Hs E) as (cells & Hr & ->).
  pose proof Hr as (_ & _ & _ & Hsz). rewrite length_fmap in Hi.
  destruct (erase_spec index s cells Hr) as (s' & E' & Hr'); [lia|].
  exists s'. split; [done|].
  by rewrite (elements_spec s' _ Hr'), delete_take_drop, fmap_app, fmap_take,
    fmap_drop.
Qed.

(** X21: [front()] returns the first element, [back()] the last and
    [at(index)] the element at position [index], counted from 0; none of
    them changes the list. *)
Theorem access_elements s xs :
  reachable s → elements s = Ok xs s →
  (∀ x, head xs = Some x → front s = Ok x s)
  ∧ (∀ y, last xs = Some y → back s = Ok y s)
  ∧ (∀ index x, xs !! N.to_nat index = Some x → at_ index s = Ok x s).
Proof.
  intros Hs E. destruct (reachable_cells s xs Hs E) as (cells & Hr & ->).
  split_and!.
  - intros x Hx. destruct cells as [|[a x'] cells]; [done|].
    injection Hx as <-. by eapply front_spec.
  - intros y Hy. destruct (cells_rev_case cells) as [->|(cells' & t & y' & ->)]; [done|].
    rewrite fmap_snoc, last_snoc in Hy. injection Hy as <-. by eapply back_spec.
  - intros index x Hx. rewrite list_lookup_fmap in Hx.
    destruct (cells !! N.to_nat index) as [[a x']|] eqn:Ha; [|done].
    injection Hx as <-. by eapply at_spec.
Qed.

(** X22: the constructor from an initializer list builds the list of
    the given elements, in the given order. *)
Theorem initializer_list_elements (init : list T) :
  ∃ s, push_all init LinkedList_new = Ok () s
       ∧ reachable s
       ∧ elements s = Ok init s.
Proof.
  assert (∀ xs s0 cells, represents s0 cells →
            ∃ s cells', push_all xs s0 = Ok () s ∧ represents s cells'
                        ∧ cells'.*2 = cells.*2 ++ xs) as Hgen.
  { induction xs as [|x xs IH]; intros s0 cells Hr; csimpl.
    - exists s0, cells. by rewrite app_nil_r.
    - destruct (push_back_spec x s0 cells Hr) as (a & s1 & E1 & Hr1).
      destruct (IH s1 _ Hr1) as (s2 & cells2 & E2 & Hr2 & Hc).
      exists s2, cells2. unfold mbind, M_bind. rewrite E1.
      split_and!; [done..|]. by rewrite Hc, fmap_snoc, <- app_assoc. }
  destruct (Hgen init LinkedList_new [] represents_new) as (s & cells & E & Hr & Hc).
  exists s. split_and!; [done|..].
  - by apply (reachable_push_all init LinkedList_new s); [constructor|].
  - by rewrite (elements_spec s cells Hr), Hc.
Qed.

Lemma contains_loop_spec `{!EqDecision T} s v p cells : ∀ fuel,
  lseg (store s) p None cells → (length cells ≤ fuel)%nat →
  contains_loop fuel v p s = Ok (bool_decide (v ∈ cells.*2)) s.
Proof.
  intros fuel Hl. revert fuel. remember None as r eqn:Er.
  induction Hl as [|a x q r cells Ha _ IH]; intros fuel Hfuel; subst.
  - rewrite bool_decide_eq_false_2 by (csimpl; apply not_elem_of_nil). by destruct fuel.
  - destruct fuel as [|fuel]; [csimpl in *; lia|]. csimpl. run.
    rewrite Ha. csimpl. destruct (decide (x = v)) as [Hx|Hx].
    + subst. by rewrite bool_decide_eq_true_2 by apply list_elem_of_here.
    + rewrite IH; [|done|csimpl in *; lia]. f_equal. apply bool_decide_ext.
      rewrite elem_of_cons. naive_solver.
Qed.

(** X23: [contains(v)] answers whether [v] is one of the elements, and
    leaves the list as it is. *)
Theorem contains_elements `{!EqDecision T} s xs v :
  reachable s → elements s = Ok xs s →
  contains v s = Ok (bool_decide (v ∈ xs)) s.
Proof.
  intros Hs E. destruct (reachable_cells s xs Hs E) as (cells & Hr & ->).
  destruct Hr as (Hl & Hn & _). unfold contains. run.
  apply contains_loop_spec; [done|]. by eapply lseg_length.
Qed.

Lemma find_if_loop_spec s pred p r cells : ∀ fuel,
  lseg (store s) p r cells → (length cells ≤ fuel)%nat →
  Forall (λ c, pred c.2 = false) cells →
  find_if_loop fuel pred p s = find_if_loop (fuel - length cells) pred r s.
Proof.
  intros fuel Hl. revert fuel.
  induction Hl as [|a x q r cells Ha _ IH]; intros fuel Hfuel Hall.
  - csimpl. by rewrite Nat.sub_0_r.
  - apply Forall_cons in Hall as [Hx Hall]. csimpl in *.
    destruct fuel as [|fuel]; [lia|]. csimpl. run.
    rewrite Ha. csimpl. rewrite Hx. apply IH; [lia|done].
Qed.

(** X24: [find_if(pred)] returns the first node whose element satisfies
    [pred], and the null pointer when no element does. *)
Theorem find_if_first s xs pred :
  reachable s → elements s = Ok xs s →
  (Forall (λ x, pred x = false) xs → find_if pred s = Ok None s)
  ∧ (∀ pre x post,
       xs = pre ++ x :: post → Forall (λ y, pred y = false) pre → pred x = true →
       ∃ a n, find_if pred s = Ok (Some a) s
              ∧ store s !! a = Some n ∧ data n = x
              ∧ iterate (length post) (next n) s = Ok post s).
Proof.
  intros Hs E. destruct (reachable_cells s xs Hs E) as (cells & Hr & ->).
  destruct Hr as (Hl & Hn & _). pose proof (lseg_length _ _ _ _ Hl Hn) as Hfuel.
  split.
  - intros Hall. unfold find_if. run.
    rewrite (find_if_loop_spec s pred (head_ s) None cells); [|done..|].
    + by destruct (_ - _)%nat.
    + by apply Forall_fmap in Hall.
  - intros pre x post Exs Hpre Hx.
    apply fmap_app_inv in Exs as (cpre & crest & -> & Ecr & ->).
    symmetry in Ecr. apply fmap_cons_inv in Ecr as ([a x'] & cpost & -> & -> & ->).
    csimpl in *. apply lseg_app_inv in Hl as (q & Hl1 & Hl2).
    inversion Hl2 as [|? ? q2 ? ? Ha Hl3]; subst.
    exists a, (mkNode x' q2). rewrite length_app in Hfuel. csimpl in *.
    split_and!; [|done..|].
    + unfold find_if. run.
      rewrite (find_if_loop_spec s pred (head_ s) (Some a) cpre); [|done|lia|].
      * destruct (_ - _)%nat as [|fuel] eqn:Ef; [lia|]. csimpl. run.
        rewrite Ha. csimpl. by rewrite Hx.
      * by apply Forall_fmap in Hpre.
    + rewrite length_fmap. by apply iterate_spec.
Qed.

(** *** The copy constructor *)

Lemma lseg_mono h h' p q cells :
  h ⊆ h' → lseg h p q cells → lseg h' p q cells.
Proof.
  intros Hsub. induction 1 as [|a x q' r cells Ha _ IH]; [constructor|].
  econstructor; [|done]. by eapply lookup_weaken.
Qed.

(** [push_back] allocates one node, the new last one, and writes to no
    other node than the old last one. *)
Lemma push_back_effect v s s' :
  push_back v s = Ok () s' →
  tail_ s' = Some (fresh (dom (store s)))
  ∧ ∀ b, b ≠ fresh (dom (store s)) → tail_ s ≠ Some b →
         store s' !! b = store s !! b.
Proof.
  destruct s as [h hd tl sz]. run. destruct tl as [t|]; csimpl.
  - destruct (_ !! t) as [n|]; [|done]. intros [= <-]. csimpl.
    split; [done|]. intros b Hb Ht.
    rewrite !lookup_insert_ne; [done|congruence..].
  - intros [= <-]. csimpl. split; [done|]. intros b Hb _.
    by rewrite lookup_insert_ne.
Qed.

Lemma copy_loop_spec h0 ocells : ∀ fuel p s cells,
  lseg h0 p None ocells → (length ocells ≤ fuel)%nat →
  h0 ⊆ store s → represents s cells → (∀ a, a ∈ cells.*1 → h0 !! a = None) →
  ∃ s' cells',
    copy_loop fuel p s = Ok () s' ∧ represents s' cells'
    ∧ cells'.*2 = cells.*2 ++ ocells.*2
    ∧ h0 ⊆ store s' ∧ (∀ a, a ∈ cells'.*1 → h0 !! a = None).
Proof.
  induction ocells as [|[a x] ocells IH]; intros fuel p s cells Hl Hfuel Hsub Hr Hdisj.
  - inversion Hl; subst. exists s, cells. rewrite app_nil_r. by destruct fuel.
  - inversion Hl as [|? ? q ? ? Ha Hl']; subst.
    destruct fuel as [|fuel]; [csimpl in *; lia|].
    destruct (push_back_spec x s cells Hr) as (b & s1 & E1 & Hr1).
    destruct (push_back_effect x s s1 E1) as [Htl Hframe].
    assert (b = fresh (dom (store s))) as ->.
    { destruct Hr1 as (_ & _ & Ht1 & _). rewrite fmap_snoc, last_snoc in Ht1.
      csimpl in Ht1. congruence. }
    assert (h0 !! fresh (dom (store s)) = None) as Hfresh.
    { destruct (h0 !! fresh (dom (store s))) as [n|] eqn:En; [|done].
      exfalso. apply (is_fresh (dom (store s))). apply elem_of_dom.
      exists n. by eapply lookup_weaken. }
    destruct (IH fuel q s1 (cells ++ [(fresh (dom (store s)), x)]))
      as (s' & cells' & E' & Hr' & Hc & Hsub' & Hdisj'); [done|csimpl in *; lia| |done| |].
    + apply map_subseteq_spec. intros c n Hc. rewrite Hframe.
      * by eapply lookup_weaken.
      * intros ->. congruence.
      * destruct Hr as (_ & _ & Ht & _). rewrite Ht. intros Hlast.
        apply last_Some_elem_of, Hdisj in Hlast. congruence.
    + intros c. rewrite fmap_snoc, elem_of_app, list_elem_of_singleton.
      intros [?| ->]; [by apply Hdisj|done].
    + exists s', cells'. split_and!; try done.
      * csimpl. unfold mbind at 1, M_bind at 1, load. csimpl.
        rewrite (lookup_weaken _ _ _ _ Ha Hsub). csimpl.
        unfold mbind, M_bind. by rewrite E1.
      * by rewrite Hc, fmap_snoc, <- app_assoc.
Qed.

(** X25: the copy constructor makes a deep copy.  The new list holds the
    elements of [other] in the same order; its nodes are newly
    allocated, none of them a node that existed before; and every node
    that existed before, those of [other] among them, is left as it
    was. *)
Theorem copy_is_deep (other : LinkedList (T:=T)) xs :
  reachable other → elements other = Ok xs other →
  ∃ s cells,
    LinkedList_copy other = Ok () s
    ∧ represents s cells ∧ cells.*2 = xs ∧ elements s = Ok xs s
    ∧ store other ⊆ store s
    ∧ (∀ a, a ∈ cells.*1 → store other !! a = None).
Proof.
  intros Hs E. destruct (reachable_cells other xs Hs E) as (ocells & Hr & ->).
  destruct Hr as (Hl & Hn & _).
  destruct (copy_loop_spec (store other) ocells (map_size (store other))
              (head_ other) (mk (store other) None None 0) [])
    as (s & cells & Ec & Hr' & Hc & Hsub & Hdisj);
    [done|by eapply lseg_length|done| |by intros a ?%elem_of_nil|].
  { split_and!; [constructor|constructor|done|done]. }
  exists s, cells. split_and!; try done.
  by rewrite (elements_spec s cells Hr'), Hc.
Qed.

(** *** Allocation: every node is freed *)

Lemma advance_pure n : ∀ p s q s', advance n p s = Ok q s' → s' = s.
Proof.
  induction n as [|n IH]; intros p s q s'; csimpl.
  - by intros [= _ <-].
  - run. destruct (p ≫= _); [|done]. apply IH.
Qed.

Lemma find_prev_pure fuel : ∀ p s q s', find_prev fuel p s = Ok q s' → s' = s.
Proof.
  induction fuel as [|fuel IH]; intros p s q s'; rewrite find_prev_unfold; run;
    (destruct (p ≫= _); [|done]); case_decide; try done.
  - by intros [= _ <-].
  - apply IH.
  - by intros [= _ <-].
Qed.

Lemma insert_fresh_size h a n :
  h !! a = None → map_size (<[a:=n]> h) = S (map_size h).
Proof. apply map_size_insert_None. Qed.

Lemma insert_same_size h a n :
  is_Some (h !! a) → map_size (<[a:=n]> h) = map_size h.
Proof. apply map_size_insert_Some. Qed.

Lemma delete_size h a :
  is_Some (h !! a) → S (map_size (delete a h)) = map_size h.
Proof.
  intros Ha. pose proof (map_size_delete_Some a h Ha) as Hd.
  change (base.size (delete a h)) with (map_size (delete a h)) in Hd.
  change (base.size h) with (map_size h) in Hd.
  assert (map_size h ≠ 0%nat); [|lia].
  intros ->%map_size_empty_inv. rewrite lookup_empty in Ha. by destruct Ha.
Qed.

Lemma fresh_lookup h : h !! fresh (dom h) = None.
Proof. apply not_elem_of_dom, is_fresh. Qed.

Lemma push_front_size v s s' :
  push_front v s = Ok () s' → map_size (store s') = S (map_size (store s)).
Proof.
  destruct s as [h hd tl sz]. run. rewrite lookup_insert_eq. csimpl.
  rewrite insert_insert_eq. intros E.
  assert (store s' = <[fresh (dom h) := mkNode v hd]> h) as ->.
  { destruct tl; csimpl in E; by injection E as <-. }
  apply insert_fresh_size, fresh_lookup.
Qed.

Lemma push_back_size v s s' :
  push_back v s = Ok () s' → map_size (store s') = S (map_size (store s)).
Proof.
  destruct s as [h hd tl sz]. run.
  destruct tl as [t|]; csimpl.
  - destruct (_ !! t) as [n|] eqn:Et; [|done]. intros [= <-]. csimpl.
    rewrite insert_same_size by done. apply insert_fresh_size, fresh_lookup.
  - intros [= <-]. csimpl. apply insert_fresh_size, fresh_lookup.
Qed.

Lemma pop_front_size s s' :
  pop_front s = Ok () s' → S (map_size (store s')) = map_size (store s).
Proof.
  destruct s as [h hd tl sz]. run. case_bool_decide; [done|]. csimpl.
  destruct hd as [a|]; [|done]. csimpl.
  destruct (h !! a) as [n|] eqn:Ea; [|done]. csimpl. rewrite Ea. csimpl. intros E.
  assert (store s' = delete a h) as ->.
  { case_bool_decide; csimpl in E; by injection E as <-. }
  by apply delete_size.
Qed.

Lemma pop_back_size s s' :
  pop_back s = Ok () s' → is_Some (head_ s) → is_Some (tail_ s) →
  S (map_size (store s')) = map_size (store s).
Proof.
  destruct s as [h hd tl sz]. csimpl. intros E [a ->] [t ->]. revert E.
  unfold pop_back. run. case_bool_decide; [done|]. csimpl. case_decide; csimpl.
  - destruct (h !! a) as [n|] eqn:Ea; [|done]. csimpl. intros [= <-]. csimpl.
    by apply delete_size.
  - destruct (find_prev _ _ _) as [q s1| | |] eqn:Ef; try done.
    apply find_prev_pure in Ef as ->. csimpl.
    destruct (h !! t) as [n|] eqn:Et; [|done]. csimpl.
    destruct q as [c|]; [|done].
    destruct (delete t h !! c) as [m|] eqn:Ec; [|done]. csimpl.
    intros [= <-]. csimpl.
    rewrite insert_same_size by done. by apply delete_size.
Qed.

Lemma insert_size index v s s' :
  insert index v s = Ok () s' → map_size (store s') = S (map_size (store s)).
Proof.
  rewrite insert_unfold. repeat case_decide; try done.
  - apply push_front_size.
  - apply push_back_size.
  - destruct s as [h hd tl sz]. run.
    destruct (advance _ _ _) as [q s1| | |] eqn:Ea; try done.
    apply advance_pure in Ea as ->. csimpl.
    destruct q as [c|]; [|done]. csimpl.
    destruct (<[fresh (dom h):=_]> h !! c) as [n|] eqn:Ec; [|done]. csimpl.
    rewrite lookup_insert_eq. csimpl. rewrite insert_insert_eq.
    destruct (<[_:=mkNode v (next n)]> h !! c) as [m|] eqn:Ec'; [|done]. run.
    intros [= <-]. csimpl.
    rewrite insert_same_size by done. apply insert_fresh_size, fresh_lookup.
Qed.

Lemma erase_size index s s' :
  erase index s = Ok () s' → S (map_size (store s')) = map_size (store s).
Proof.
  rewrite erase_unfold. repeat case_decide; try done.
  - apply pop_front_size.
  - destruct s as [h hd tl sz]. run.
    destruct (advance _ _ _) as [q s1| | |] eqn:Ea; try done.
    apply advance_pure in Ea as ->. csimpl.
    destruct q as [c|]; [|done]. csimpl.
    destruct (h !! c) as [n|] eqn:Ec; [|done]. csimpl.
    destruct (next n) as [d|] eqn:En; [|done]. csimpl.
    destruct (h !! d) as [m|] eqn:Ed; [|done]. csimpl. rewrite Ec. csimpl.
    intros E.
    assert (store s' = delete d (<[c:=mkNode (data n) (next m)]> h)
            ∧ is_Some (<[c:=mkNode (data n) (next m)]> h !! d)) as [-> Hd].
    { case_decide; csimpl in E;
        (destruct (<[c:=_]> h !! d) eqn:Ed'; [|done]); csimpl in E;
        by injection E as <-. }
    rewrite (delete_size _ _ Hd). by apply insert_same_size.
Qed.

Lemma reverse_loop_size fuel : ∀ prev curr s p s',
  reverse_loop fuel prev curr s = Ok p s' →
  map_size (store s') = map_size (store s).
Proof.
  induction fuel as [|fuel IH]; intros prev curr s p s';
    (destruct curr as [c|]; csimpl; [|by intros [= _ <-]]); [done|].
  destruct s as [h hd tl sz]. run.
  destruct (h !! c) as [n|] eqn:Ec; [|done]. csimpl. rewrite Ec. csimpl.
  intros ->%IH. csimpl.
  by apply insert_same_size.
Qed.

Lemma reverse_size s s' :
  reverse s = Ok () s' → map_size (store s') = map_size (store s).
Proof.
  destruct s as [h hd tl sz]. unfold reverse. run.
  destruct (reverse_loop _ _ _ _) as [q s1| | |] eqn:Er; try done.
  apply reverse_loop_size in Er. csimpl in *. by intros [= <-].
Qed.

Lemma clear_owns s cells :
  owns s cells → ∃ s', clear s = Ok () s' ∧ owns s' [].
Proof.
  intros [Hr Hsz]. unfold clear, mbind, M_bind, get_size. csimpl.
  pose proof Hr as (_ & _ & _ & ->). rewrite Nat2N.id.
  revert s Hr Hsz. induction cells as [|[a x] cells IH]; intros s Hr Hsz;
    rewrite clear_loop_unfold; pose proof Hr as (_ & _ & _ & Hs);
    unfold mbind, M_bind, empty, get_size; csimpl; rewrite Hs; csimpl.
  - by exists s.
  - destruct (pop_front_spec _ _ _ _ Hr) as (s' & E & Hr'). rewrite E.
    apply IH; [done|]. apply pop_front_size in E. csimpl in *. lia.
Qed.

Lemma modifier_owns s cells op s' :
  owns s cells → modifier op → op s = Ok () s' → ∃ cells', owns s' cells'.
Proof.
  intros [Hr Hsz] Hop E. pose proof Hr as (Hl & _ & Ht & Hs).
  destruct Hop as [v|v| | |i v|i| |].
  - destruct (push_front_spec v s cells Hr) as (a & s1 & E1 & Hr1).
    rewrite E in E1. injection E1 as <-. eexists. split; [done|].
    rewrite (push_front_size _ _ _ E). csimpl. lia.
  - destruct (push_back_spec v s cells Hr) as (a & s1 & E1 & Hr1).
    rewrite E in E1. injection E1 as <-. eexists. split; [done|].
    rewrite (push_back_size _ _ _ E), length_app. csimpl. lia.
  - destruct cells as [|[a x] cells]; [by rewrite pop_front_empty in E|].
    destruct (pop_front_spec s a x cells Hr) as (s1 & E1 & Hr1).
    rewrite E in E1. injection E1 as <-. eexists. split; [done|].
    apply pop_front_size in E. csimpl in *. lia.
  - destruct (cells_rev_case cells) as [->|(cells' & t & y & ->)];
      [by rewrite pop_back_empty in E|].
    destruct (pop_back_spec s cells' t y Hr) as (s1 & E1 & Hr1).
    rewrite E in E1. injection E1 as <-. eexists. split; [done|].
    apply pop_back_size in E.
    + rewrite length_app in Hsz. csimpl in *. lia.
    + apply lseg_head in Hl. rewrite Hl. by destruct cells'.
    + rewrite Ht, fmap_snoc, last_snoc. eauto.
  - destruct (decide (i ≤ size_ s)%N);
      [|rewrite insert_out_of_range in E by lia; done].
    destruct (insert_spec i v s cells Hr) as (a & s1 & E1 & Hr1); [done|].
    rewrite E in E1. injection E1 as <-. eexists. split; [done|].
    rewrite (insert_size _ _ _ _ E), length_app. csimpl.
    rewrite length_take, length_drop. lia.
  - destruct (decide (i < size_ s)%N);
      [|rewrite erase_out_of_range in E by lia; done].
    destruct (erase_spec i s cells Hr) as (s1 & E1 & Hr1); [done|].
    rewrite E in E1. injection E1 as <-. eexists. split; [done|].
    apply erase_size in E. rewrite length_delete; [lia|].
    apply lookup_lt_is_Some_2. lia.
  - destruct (clear_owns s cells) as (s1 & E1 & Ho); [done|].
    rewrite E in E1. injection E1 as <-. eauto.
  - destruct (reverse_spec s cells Hr) as (s1 & E1 & Hr1).
    rewrite E in E1. injection E1 as <-. eexists. split; [done|].
    rewrite (reverse_size _ _ E), length_reverse. done.
Qed.

Lemma reachable_owns s : reachable s → ∃ cells, owns s cells.
Proof.
  induction 1 as [|s s' op _ [cells Ho] Hop Hok|s s' e op _ [cells Ho] Hop Hthrow].
  - exists []. split; [apply represents_new|done].
  - by eapply modifier_owns.
  - destruct Ho as [Hr Hsz].
    destruct (modifier_cases s cells op Hr Hop) as [(s1 & cells1 & E & Hr1)|[e' E]];
      rewrite E in Hthrow; [done|]. injection Hthrow as _ <-. by exists cells.
Qed.

(** X26: no node is lost.  In a list built by the public operations, the
    nodes allocated are exactly the [size()] nodes chained from the head:
    each is allocated, no two coincide, and there is no other. *)
Theorem no_leak s :
  reachable s →
  ∃ cells,
    represents s cells
    ∧ dom (store s) = list_to_set cells.*1
    ∧ N.of_nat (map_size (store s)) = size_ s.
Proof.
  intros [cells [Hr Hsz]]%reachable_owns. exists cells.
  pose proof Hr as (Hl & Hn & _ & Hs). split_and!; [done| |congruence].
  symmetry. apply set_subseteq_size_eq.
  - intros a Ha%elem_of_list_to_set. apply elem_of_dom. by eapply lseg_allocated.
  - rewrite size_dom, (size_list_to_set _ Hn), length_fmap.
    change (base.size (store s)) with (map_size (store s)). lia.
Qed.

(** X27: [clear()], which is all the destructor does, empties the list
    and frees every node: nothing stays allocated. *)
Theorem clear_frees_all s :
  reachable s →
  ∃ s', clear s = Ok () s'
        ∧ elements s' = Ok [] s'
        ∧ store s' = ∅
        ∧ size_ s' = 0%N ∧ head_ s' = None ∧ tail_ s' = None.
Proof.
  intros [cells Ho]%reachable_owns.
  destruct (clear_owns s cells Ho) as (s' & E & Hr' & Hsz).
  exists s'. pose proof Hr' as (Hl & _ & Ht & Hs).
  split_and!; try done.
  - by rewrite (elements_spec s' _ Hr').
  - by apply map_size_empty_inv.
  - by apply lseg_head in Hl.
Qed.

End Props.

Lemma demo_list_holds :
  elements demo_list = Ok [5; 10; 20; 25; 30; 40; 50; 60] demo_list.
Proof. by vm_compute. Qed.

Lemma size_counts_elements_witness :
  ∃ xs, elements demo_list = Ok xs demo_list
        ∧ size demo_list = Ok (N.of_nat (length xs)) demo_list
        ∧ empty demo_list = Ok (bool_decide (xs = [])) demo_list.
Proof. apply (size_counts_elements demo_list), demo_list_reachable. Defined.

Lemma push_elements_witness :
  ∃ s1 s2,
    push_front 1 demo_list = Ok () s1
    ∧ elements s1 = Ok (1 :: [5; 10; 20; 25; 30; 40; 50; 60]) s1
    ∧ push_back 1 demo_list = Ok () s2
    ∧ elements s2 = Ok ([5; 10; 20; 25; 30; 40; 50; 60] ++ [1]) s2.
Proof.
  apply (push_elements demo_list _ 1 demo_list_reachable). by vm_compute.
Defined.

Lemma pop_elements_witness :
  ∃ s1 s2,
    pop_front demo_list = Ok () s1
    ∧ elements s1 = Ok (tail [5; 10; 20; 25; 30; 40; 50; 60]) s1
    ∧ pop_back demo_list = Ok () s2
    ∧ elements s2 = Ok (removelast [5; 10; 20; 25; 30; 40; 50; 60]) s2.
Proof.
  apply (pop_elements demo_list _ demo_list_reachable); [by vm_compute|done].
Defined.

Lemma insert_elements_witness :
  ∃ s',
    insert 3 7 demo_list = Ok () s'
    ∧ elements s'
      = Ok (take (N.to_nat 3) [5; 10; 20; 25; 30; 40; 50; 60]
            ++ 7 :: drop (N.to_nat 3) [5; 10; 20; 25; 30; 40; 50; 60]) s'.
Proof.
  apply (insert_elements demo_list _ 3 7 demo_list_reachable); [by vm_compute|].
  vm_compute. lia.
Defined.

Lemma erase_elements_witness :
  ∃ s',
    erase 3 demo_list = Ok () s'
    ∧ elements s'
      = Ok (take (N.to_nat 3) [5; 10; 20; 25; 30; 40; 50; 60]
            ++ drop (S (N.to_nat 3)) [5; 10; 20; 25; 30; 40; 50; 60]) s'.
Proof.
  apply (erase_elements demo_list _ 3 demo_list_reachable); [by vm_compute|].
  vm_compute. lia.
Defined.

Lemma access_elements_witness :
  front demo_list = Ok 5 demo_list
  ∧ back demo_list = Ok 60 demo_list
  ∧ at_ 3 demo_list = Ok 25 demo_list.
Proof.
  destruct (access_elements demo_list [5; 10; 20; 25; 30; 40; 50; 60]
              demo_list_reachable) as (F & B & A); [by vm_compute|].
  split_and!; [by apply F|by apply B|by apply A].
Defined.

Lemma contains_elements_witness :
  contains 25 demo_list
  = Ok (bool_decide (25 ∈ [5; 10; 20; 25; 30; 40; 50; 60])) demo_list.
Proof.
  apply (contains_elements demo_list _ 25 demo_list_reachable). by vm_compute.
Defined.

Lemma find_if_first_witness :
  find_if (λ x, 20 <? x) (mk ∅ None None 0) = Ok None (mk ∅ None None 0)
  ∧ ∃ a n, find_if (λ x, 20 <? x) demo_list = Ok (Some a) demo_list
           ∧ store demo_list !! a = Some n ∧ data n = 25
           ∧ iterate (length [30; 40; 50; 60]) (next n) demo_list
             = Ok [30; 40; 50; 60] demo_list.
Proof.
  destruct (find_if_first (mk ∅ None None 0) [] (λ x, 20 <? x) reachable_new)
    as [F0 _]; [by vm_compute|].
  destruct (find_if_first demo_list [5; 10; 20; 25; 30; 40; 50; 60]
              (λ x, 20 <? x) demo_list_reachable) as [_ F1]; [by vm_compute|].
  split; [by apply F0|].
  apply (F1 [5; 10; 20] 25 [30; 40; 50; 60]); [done| |done].
  by repeat constructor.
Defined.

Lemma copy_is_deep_witness :
  ∃ s cells,
    LinkedList_copy demo_list = Ok () s
    ∧ represents s cells ∧ cells.*2 = [5; 10; 20; 25; 30; 40; 50; 60]
    ∧ elements s = Ok [5; 10; 20; 25; 30; 40; 50; 60] s
    ∧ store demo_list ⊆ store s
    ∧ (∀ a, a ∈ cells.*1 → store demo_list !! a = None).
Proof.
  apply (copy_is_deep demo_list _ demo_list_reachable). by vm_compute.
Defined.

Lemma no_leak_witness :
  ∃ cells,
    represents demo_list cells
    ∧ dom (store demo_list) = list_to_set cells.*1
    ∧ N.of_nat (map_size (store demo_list)) = size_ demo_list.
Proof. apply (no_leak demo_list), demo_list_reachable. Defined.

Lemma clear_frees_all_witness :
  ∃ s', clear demo_list = Ok () s'
        ∧ elements s' = Ok [] s'
        ∧ store s' = ∅
        ∧ size_ s' = 0%N ∧ head_ s' = None ∧ tail_ s' = None.
Proof. apply (clear_frees_all demo_list), demo_list_reachable. Defined.

End LinkedList_props.
